(** * Paystub analyzer: the label-anchored field extractor of [app.py]

    A shallow embedding of [src/app.py]:

    - [extract_text_from_pdf_bytes] (text acquisition with OCR fallback),
    - [money_re] and the regular expression built in [find_best_pattern],
    - [find_best_pattern] (the running-best scan),
    - the loop that fills [extracted] (value normalisation),
    - the editable defaults and the summary arithmetic,
    - the withholding check: the annual figures, [estimate_federal_tax_simple]
      and the message chosen from the difference.

    Python strings are lists of characters; a character is an 8-bit code
    point ([ascii]), so the model covers ASCII and Latin-1 text. Python
    floats are Rocq's primitive binary64 floats, and [float(s)] rounds
    the decimal it reads to the nearest of them. The functions of the
    [re] module are given by a small backtracking matcher that lists the
    ways a pattern can match in the order a backtracking engine tries
    them; the head of that list is the match the engine reports. Calls
    that can raise return an [outcome]. The libraries behind the text
    acquisition are parameters; the similarity score of rapidfuzz is a
    parameter of [find_best_pattern], with a model of it after the spec.

    The file has three parts: the model, the vocabulary in which the
    properties are stated, and the properties: the lemmas, the claims
    C1 to C10 of the specification, and further properties X1 to X13 of
    the code. *)

From stdpp Require Import gmap strings.
From Stdlib Require Import Ascii String Bool Arith Lia ZArith QArith Floats.
From Stdlib Require Import List Permutation.
Import ListNotations.

Close Scope Q_scope.

(** ** Characters and strings *)

Abbreviation str := (list ascii) (only parsing).

Definition chars (s : string) : str := list_ascii_of_string s.

Definition code (c : ascii) : nat := nat_of_ascii c.

Definition in_range (lo hi : nat) (c : ascii) : bool :=
  (lo <=? code c) && (code c <=? hi).

(** [[0-9]] *)
Definition is_digit (c : ascii) : bool := in_range 48 57 c.

(** [str.isspace] and the class [\s] on code points below 256. *)
Definition is_space (c : ascii) : bool :=
  in_range 9 13 c || in_range 28 32 c || (code c =? 133) || (code c =? 160).

(** [.] without DOTALL: anything but a line feed. *)
Definition is_dot (c : ascii) : bool := negb (code c =? 10).

Definition is_char (a c : ascii) : bool := code c =? code a.

(** [str.lower] on one code point below 256. *)
Definition lower_char (c : ascii) : ascii :=
  if in_range 65 90 c || (in_range 192 222 c && negb (code c =? 215))
  then ascii_of_nat (code c + 32)
  else c.

Definition lower (s : str) : str := map lower_char s.

(** A literal character under [re.IGNORECASE]. *)
Definition is_char_ci (a c : ascii) : bool := code (lower_char c) =? code (lower_char a).

(** [s.replace(",", "")] *)
Definition remove_commas (s : str) : str :=
  List.filter (fun c => negb (is_char "," c)) s.

Fixpoint lstrip (s : str) : str :=
  match s with
  | c :: s' => if is_space c then lstrip s' else s
  | [] => []
  end.

Definition rstrip (s : str) : str := rev (lstrip (rev s)).

(** [s.strip()] *)
Definition strip (s : str) : str := rstrip (lstrip s).

Definition newline : ascii := ascii_of_nat 10.

(** [a == b] *)
Definition str_eqb (a b : str) : bool :=
  if List.list_eq_dec Ascii.ascii_dec a b then true else false.

(** [s[a:b]] for [0 <= a <= b] *)
Definition slice (s : str) (a b : nat) : str := firstn (b - a) (skipn a s).

(** ** Regular expressions as [re] matches them *)

Module Re.

Inductive regex : Type :=
| Eps
| Chr (p : ascii -> bool)
| Seq (r1 r2 : regex)
| Rep (r : regex) (lo : nat) (hi : option nat)
| Grp (r : regex).

(** A matcher state: the input still to read, and what group 1 holds. *)
Abbreviation mstate := (list ascii * option (list ascii))%type (only parsing).

(** Greedy repetition between [lo] and [hi] times: one more round of [f]
    is tried before stopping. *)
Fixpoint rep (f : mstate -> list mstate) (lo hi : nat) (st : mstate) : list mstate :=
  match hi with
  | 0 => if lo =? 0 then [st] else []
  | S hi' => flat_map (rep f (pred lo) hi') (f st) ++ (if lo =? 0 then [st] else [])
  end.

(** All the ways [r] matches a prefix of the input, in the order a
    backtracking engine finds them. An unbounded repetition runs at most
    once per remaining character: the bodies used here read at least one
    character each round. *)
Fixpoint run (r : regex) (st : mstate) : list mstate :=
  match r with
  | Eps => [st]
  | Chr p =>
      match fst st with
      | c :: s' => if p c then [(s', snd st)] else []
      | [] => []
      end
  | Seq r1 r2 => flat_map (run r2) (run r1 st)
  | Rep r lo hi =>
      rep (run r) lo (match hi with Some h => h | None => length (fst st) end) st
  | Grp r =>
      map (fun st' => (fst st', Some (firstn (length (fst st) - length (fst st')) (fst st))))
          (run r st)
  end.

Definition opt (r : regex) : regex := Rep r 0 (Some 1).

Fixpoint lit_ci (s : str) : regex :=
  match s with
  | [] => Eps
  | a :: s' => Seq (Chr (is_char_ci a)) (lit_ci s')
  end.

(** A match object. *)
Record Match : Type := mkMatch {
  m_start : nat;
  m_end : nat;
  group0 : str;
  group1 : option str
}.

Definition consumed (s : str) (st : mstate) : nat := length s - length (fst st).

Definition mk (s : str) (pos : nat) (st : mstate) : Match :=
  {| m_start := pos;
     m_end := pos + consumed s st;
     group0 := firstn (consumed s st) s;
     group1 := snd st |}.

(** The match at the current position: [re.match] on the rest of the text. *)
Definition match_here (r : regex) (s : str) : option mstate :=
  head (run r (s, None)).

(** [re.search]: the first position, left to right, where the pattern
    matches; [s] is the text from position [pos] on. *)
Fixpoint search_from (r : regex) (s : str) (pos : nat) : option Match :=
  match match_here r s with
  | Some st => Some (mk s pos st)
  | None =>
      match s with
      | [] => None
      | _ :: s' => search_from r s' (S pos)
      end
  end.

Definition search (r : regex) (text : str) : option Match := search_from r text 0.

(** [re.finditer]: the matches from left to right, none overlapping; the
    scan resumes where the last match ended. [skip] counts the characters
    of the last match still to pass. After an empty match the engine asks
    for a non-empty one at the same position before it moves on. *)
Fixpoint scan (r : regex) (s : str) (pos skip : nat) : list Match :=
  match skip with
  | S k =>
      match s with
      | [] => []
      | _ :: s' => scan r s' (S pos) k
      end
  | 0 =>
      let next (n : nat) :=
        match s with
        | [] => []
        | _ :: s' => scan r s' (S pos) n
        end in
      match run r (s, None) with
      | [] => next 0
      | st :: sts =>
          match consumed s st with
          | S k => mk s pos st :: next k
          | 0 =>
              mk s pos st ::
              match List.filter (fun st' => negb (consumed s st' =? 0)) sts with
              | st' :: _ => mk s pos st' :: next (pred (consumed s st'))
              | [] => next 0
              end
          end
      end
  end.

Definition finditer (r : regex) (text : str) : list Match := scan r text 0 0.

End Re.

Import Re.

(** ** The patterns of [app.py] *)

(** [money_re = r"\$?\s?([0-9]{1,3}(?:,[0-9]{3})*(?:\.[0-9]{1,2})?)"] *)
Definition money_group : regex :=
  Seq (Rep (Chr is_digit) 1 (Some 3))
 (Seq (Rep (Seq (Chr (is_char ",")) (Rep (Chr is_digit) 3 (Some 3))) 0 None)
      (opt (Seq (Chr (is_char ".")) (Rep (Chr is_digit) 1 (Some 2))))).

Definition money_re : regex :=
  Seq (opt (Chr (is_char "$"))) (Seq (opt (Chr is_space)) (Grp money_group)).

(** [r".{0,40}" + re.escape(pat) + r".{0,40}"] with [re.IGNORECASE] *)
Definition window_re (pat : str) : regex :=
  Seq (Rep (Chr is_dot) 0 (Some 40))
 (Seq (lit_ci pat)
      (Rep (Chr is_dot) 0 (Some 40))).

(** [patterns] *)
Definition patterns : list (string * list str) :=
  [ ("gross", [chars "Gross Pay"; chars "Gross Earnings"; chars "Total Gross"; chars "Gross"]);
    ("net", [chars "Net Pay"; chars "Net Amount"; chars "Net Pay to Employee"; chars "Pay After Deductions"]);
    ("federal", [chars "Federal Withholding"; chars "Federal Tax"; chars "Fed Withheld"; chars "Federal Income Tax"]);
    ("state", [chars "State Withholding"; chars "State Tax"; chars "State Income Tax"]);
    ("ss", [chars "Social Security"; chars "FICA Social Security"; chars "Social Sec"]);
    ("medicare", [chars "Medicare"; chars "FICA Medicare"]);
    ("regular_hours", [chars "Regular Hours"; chars "Hours Regular"; chars "Reg Hrs"]);
    ("overtime_hours", [chars "Overtime Hours"; chars "OT Hours"; chars "Overtime Hrs"]);
    ("regular_amount", [chars "Regular Pay"; chars "Regular Earnings"]);
    ("overtime_amount", [chars "Overtime Pay"; chars "OT Pay"; chars "Overtime Earnings"]) ]%string.

(** ** Exceptions *)

(** [ValueError]; another exception of the class [Exception]; and an
    exception outside that class, such as [KeyboardInterrupt] or
    [SystemExit], which a bare [except] catches and [except Exception]
    does not. *)
Inductive exn : Type :=
| ValueError
| OtherError
| Interrupt.

(** [isinstance(e, Exception)] *)
Definition is_exception (e : exn) : bool :=
  match e with
  | Interrupt => false
  | _ => true
  end.

Inductive outcome (A : Type) : Type :=
| Ok (a : A)
| Raise (e : exn).

Arguments Ok {A} a.
Arguments Raise {A} e.

Definition bind {A B : Type} (c : outcome A) (k : A -> outcome B) : outcome B :=
  match c with
  | Ok a => k a
  | Raise e => Raise e
  end.

(** [try: c  except: h] with a bare [except]. *)
Definition try_except {A : Type} (c : outcome A) (h : outcome A) : outcome A :=
  match c with
  | Ok a => Ok a
  | Raise _ => h
  end.

(** ** [float(s)] for a string [s] *)

Module PyFloat.

(** The digits of a [digitpart]: digits, with single underscores allowed
    between two digits. [after_digit] tells whether the character before
    was a digit. *)
Fixpoint digitpart (after_digit : bool) (s : str) : list ascii * str :=
  match s with
  | c :: s' =>
      if is_digit c then
        let (ds, r) := digitpart true s' in (c :: ds, r)
      else if is_char "_" c && after_digit then
        match s' with
        | c2 :: _ => if is_digit c2 then digitpart false s' else ([], s)
        | [] => ([], s)
        end
      else ([], s)
  | [] => ([], [])
  end.

Definition digit_val (c : ascii) : Z := Z.of_nat (code c - 48).

Definition int_of_digits (ds : list ascii) : Z :=
  fold_left (fun n c => 10 * n + digit_val c)%Z ds 0%Z.

(** [sign] *)
Definition sign (s : str) : bool * str :=
  match s with
  | c :: s' =>
      if is_char "-" c then (true, s')
      else if is_char "+" c then (false, s')
      else (false, s)
  | [] => (false, [])
  end.

(** [exponent]: absent, or [e] or [E], an optional sign and digits. *)
Definition exponent (s : str) : option (Z * str) :=
  match s with
  | c :: s' =>
      if is_char "e" c || is_char "E" c then
        let (neg, s1) := sign s' in
        match digitpart false s1 with
        | ([], _) => None
        | (ds, r) => Some ((if neg then - int_of_digits ds else int_of_digits ds)%Z, r)
        end
      else Some (0%Z, s)
  | [] => Some (0%Z, [])
  end.

(** The binary64 number nearest to [m * 10 ^ e], ties to even. *)
Definition round_decimal (neg : bool) (m e : Z) : float :=
  match m with
  | Z.pos p =>
      match e with
      | Z.neg q =>
          SF2Prim (SFdiv prec emax (S754_finite neg p 0)
                                   (S754_finite false (Pos.pow 10 q) 0))
      | Z.pos q =>
          SF2Prim (SFdiv prec emax (S754_finite neg (p * Pos.pow 10 q) 0)
                                   (S754_finite false 1 0))
      | Z0 =>
          SF2Prim (SFdiv prec emax (S754_finite neg p 0) (S754_finite false 1 0))
      end
  | _ => if neg then (-0)%float else 0%float
  end.

(** [floatnumber]: digits, a point and digits, either part optional but
    not both, then the exponent; nothing may follow. *)
Definition floatnumber (neg : bool) (s : str) : outcome float :=
  let (ip, s1) := digitpart false s in
  let (fp, s2) :=
    match s1 with
    | c :: s1' => if is_char "." c then digitpart false s1' else ([], s1)
    | [] => ([], [])
    end in
  match ip ++ fp with
  | [] => Raise ValueError
  | ds =>
      match exponent s2 with
      | Some (e, []) => Ok (round_decimal neg (int_of_digits ds) (e - Z.of_nat (length fp)))
      | _ => Raise ValueError
      end
  end.

(** The blanks [float] passes over at the two ends of its argument: the
    ASCII white space, and the code points 133 and 160, which it reads
    as spaces. Unlike [str.strip] it does not pass over the separators
    28 to 31. *)
Definition is_blank (c : ascii) : bool :=
  in_range 9 13 c || (code c =? 32) || (code c =? 133) || (code c =? 160).

Fixpoint skip_left (s : str) : str :=
  match s with
  | c :: s' => if is_blank c then skip_left s' else s
  | [] => []
  end.

Definition skip_blanks (s : str) : str := rev (skip_left (rev (skip_left s))).

(** [float(s)]: raises [ValueError] when [s] is not a float literal. *)
Definition float (s : str) : outcome float :=
  let (neg, body) := sign (skip_blanks s) in
  let name := lower body in
  if str_eqb name (chars "inf") || str_eqb name (chars "infinity") then
    Ok (if neg then neg_infinity else infinity)
  else if str_eqb name (chars "nan") then Ok nan
  else floatnumber neg body.

End PyFloat.

(** ** The similarity score *)

Definition Qgtb (a b : Q) : bool := negb (Qle_bool a b).

Module Fuzz.

(** Longest common subsequence, one row per character of [a]: the row of
    [a] lists the lengths for [a] against every suffix of [b]. *)
Fixpoint lcs_row (x : ascii) (b : str) (prev : list nat) : list nat :=
  match b, prev with
  | y :: b', p0 :: prev' =>
      let r' := lcs_row x b' prev' in
      (if Ascii.eqb x y then S (hd 0 prev') else Nat.max p0 (hd 0 r')) :: r'
  | _, _ => [0]
  end.

Fixpoint lcs_rows (a b : str) : list nat :=
  match a with
  | [] => repeat 0 (S (length b))
  | x :: a' => lcs_row x b (lcs_rows a' b)
  end.

Definition lcs (a b : str) : nat := hd 0 (lcs_rows a b).

(** The normalised similarity of two strings on the scale 0 to 100:
    twice the common subsequence over the total length. *)
Definition ratio (a b : str) : Q :=
  match (length a + length b)%nat with
  | O => 100%Q
  | S n => Qred (Z.of_nat (200 * lcs a b) # Pos.of_succ_nat n)
  end.

(** The substrings of [longer] that [shorter] is aligned with: the
    proper prefixes shorter than [shorter], every window as long as
    [shorter], and the suffixes shorter than it. *)
Definition alignments (shorter longer : str) : list str :=
  let m := length shorter in
  let n := length longer in
  map (fun i => firstn i longer) (seq 1 (m - 1)) ++
  map (fun i => firstn m (skipn i longer)) (seq 0 (S (n - m))) ++
  map (fun i => skipn i longer) (seq (S (n - m)) (m - 1)).

Definition Qmax_list (l : list Q) : Q :=
  fold_left (fun best q => if Qgtb q best then q else best) l 0%Q.

Definition partial_ratio_impl (shorter longer : str) : Q :=
  Qmax_list (map (ratio shorter) (alignments shorter longer)).

(** Modelled from the spec: [fuzz.partial_ratio] belongs to the
    rapidfuzz library, which is not among the sources. The spec describes
    it as the score, from 0 to 100, of the best alignment of the shorter
    string with a contiguous substring of the longer one, by normalised
    edit distance. Two empty strings score 100, an empty string against a
    non-empty one scores 0. *)
Definition partial_ratio (s1 s2 : str) : Q :=
  match s1, s2 with
  | [], [] => 100%Q
  | [], _ | _, [] => 0%Q
  | _, _ =>
      if length s1 <? length s2 then partial_ratio_impl s1 s2
      else if length s2 <? length s1 then partial_ratio_impl s2 s1
      else
        let a := partial_ratio_impl s1 s2 in
        let b := partial_ratio_impl s2 s1 in
        if Qgtb b a then b else a
  end.

End Fuzz.

(** ** [find_best_pattern] *)

(** The dictionary [best]. *)
Record Best : Type := mkBest {
  b_match : option str;
  b_score : Q;
  b_value : option str
}.

Definition init_best : Best := {| b_match := None; b_score := 0%Q; b_value := None |}.

Section Locator.

(** [fuzz.partial_ratio] *)
Variable partial_ratio : str -> str -> Q.

(** The body of the inner loop, for one match [m] of the window pattern. *)
Definition consider (text pat : str) (best : Best) (m : Match) : Best :=
  let substr := group0 m in
  match search money_re substr with
  | None =>
      let after := firstn 80 (skipn (m_end m) text) in
      match search money_re after with
      | Some m2 =>
          let val := group1 m2 in
          let score := partial_ratio (lower pat) (lower substr) in
          if Qgtb score (b_score best)
          then {| b_match := Some substr; b_score := score; b_value := val |}
          else best
      | None => best
      end
  | Some mval =>
      let val := group1 mval in
      let score := partial_ratio (lower pat) (lower substr) in
      if Qgtb score (b_score best)
      then {| b_match := Some substr; b_score := score; b_value := val |}
      else best
  end.

Definition scan_pattern (text : str) (best : Best) (pat : str) : Best :=
  fold_left (consider text pat) (finditer (window_re pat) text) best.

Definition find_best_pattern (text : str) (label_patterns : list str) : Best :=
  fold_left (scan_pattern text) label_patterns init_best.

End Locator.

(** ** The loop that fills [extracted] *)

Inductive value : Type :=
| VFloat (f : float)
| VStr (s : str).

(** Truth value of [res["value"]]: neither [None] nor the empty string. *)
Definition truthy (v : option str) : bool :=
  match v with
  | Some (_ :: _) => true
  | _ => false
  end.

(** The clean-up of the winning token: commas and surrounding blanks go,
    then [float] is tried; when it raises, the cleaned string is kept. *)
Definition normalize (raw : str) : outcome value :=
  let v := strip (remove_commas raw) in
  try_except (bind (PyFloat.float v) (fun f => Ok (VFloat f))) (Ok (VStr v)).

Section Extraction.

Variable partial_ratio : str -> str -> Q.

Definition extract_field (raw_text : str) (extracted : gmap string value)
    (item : string * list str) : outcome (gmap string value) :=
  let (key, pats) := item in
  let res := find_best_pattern partial_ratio raw_text pats in
  if truthy (b_value res) then
    bind (normalize (default [] (b_value res)))
         (fun x => Ok (<[key := x]> extracted))
  else Ok extracted.

Fixpoint extract_loop (raw_text : str) (items : list (string * list str))
    (extracted : gmap string value) : outcome (gmap string value) :=
  match items with
  | [] => Ok extracted
  | item :: items' =>
      bind (extract_field raw_text extracted item) (extract_loop raw_text items')
  end.

Definition extract (raw_text : str) : outcome (gmap string value) :=
  extract_loop raw_text patterns ∅.

End Extraction.

(** ** The editable fields and the summary *)

(** [float(x)] for a value of the mapping. *)
Definition to_float (v : value) : outcome float :=
  match v with
  | VFloat f => Ok f
  | VStr s => PyFloat.float s
  end.

(** [float(extracted.get(key, 0.0))], the initial value of a number input. *)
Definition number_input_default (extracted : gmap string value) (key : string) : outcome float :=
  to_float (default (VFloat 0%float) (extracted !! key)).

Definition total_taxes (fed state ss medicare : float) : float :=
  (fed + state + ss + medicare)%float.

Definition estimated_take_home (gross fed state ss medicare pre_tax_contrib post_tax_contrib : float) : float :=
  (gross - total_taxes fed state ss medicare - pre_tax_contrib - post_tax_contrib)%float.

(** ** [extract_text_from_pdf_bytes] *)

Section Acquisition.

(** The libraries behind the adapter: pdfplumber for the text layer,
    pdf2image and pytesseract for the fallback. Every call may raise. *)
Variables bytes page image : Type.
Variable pdf_open : bytes -> outcome (list page).
Variable page_extract_text : page -> outcome (option str).
Variable convert_from_bytes : bytes -> outcome (list image).
Variable image_to_string : image -> outcome str.

(** What the adapter does that can be seen from outside. *)
Inductive event : Type :=
| StWarning
| StInfo
| CallConvert
| CallOcr.

(** The loop over [pdf.pages] inside [try]: the text read so far, and
    the exception that ended the loop, if a page raised. *)
Fixpoint read_pages (pages : list page) (text : str) : str * option exn :=
  match pages with
  | [] => (text, None)
  | p :: pages' =>
      match page_extract_text p with
      | Ok page_text =>
          if truthy page_text
          then read_pages pages' (text ++ newline :: default [] page_text)
          else read_pages pages' text
      | Raise e => (text, Some e)
      end
  end.

(** The handler [except Exception]: an exception of that class is
    answered by a warning and [text] stays as it is; any other exception
    goes on to the caller. *)
Definition handle (text : str) (e : exn) : list event * outcome str :=
  if is_exception e then ([StWarning], Ok text) else ([], Raise e).

(** The [try] block with its handler: the value of [text] after it, or
    the exception the handler lets through. *)
Definition primary (pdf_bytes : bytes) : list event * outcome str :=
  match pdf_open pdf_bytes with
  | Ok pages =>
      match read_pages pages [] with
      | (text, None) => ([], Ok text)
      | (text, Some e) => handle text e
      end
  | Raise e => handle [] e
  end.

(** The loop over [imgs]. *)
Fixpoint ocr_pages (imgs : list image) (ocr_text : str) : list event * outcome str :=
  match imgs with
  | [] => ([], Ok ocr_text)
  | im :: imgs' =>
      match image_to_string im with
      | Ok t =>
          let (ev, res) := ocr_pages imgs' (ocr_text ++ newline :: t) in
          (CallOcr :: ev, res)
      | Raise e => ([CallOcr], Raise e)
      end
  end.

Definition extract_text_from_pdf_bytes (pdf_bytes : bytes) : list event * outcome str :=
  match primary pdf_bytes with
  | (ev1, Ok text) =>
      if length (strip text) <? 50 then
        match convert_from_bytes pdf_bytes with
        | Ok imgs =>
            let (ev2, res) := ocr_pages imgs [] in
            (ev1 ++ StInfo :: CallConvert :: ev2,
             bind res (fun ocr_text =>
               Ok (if length text <? length ocr_text then ocr_text else text)))
        | Raise e => (ev1 ++ [StInfo; CallConvert], Raise e)
        end
      else (ev1, Ok text)
  | (ev1, Raise e) => (ev1, Raise e)
  end.

End Acquisition.

Arguments read_pages {page} page_extract_text pages text.
Arguments primary {bytes page} pdf_open page_extract_text pdf_bytes.
Arguments ocr_pages {image} image_to_string imgs ocr_text.
Arguments extract_text_from_pdf_bytes {bytes page image}
  pdf_open page_extract_text convert_from_bytes image_to_string pdf_bytes.

(** ** The withholding check *)

(** [float(n)] for an integer [n], as the arithmetic of a float with an
    integer converts it: the binary64 number nearest to [n]. The
    integers of the source are all below 2^53, where this is exact. *)
Definition float_of_int (n : Z) : float := SF2Prim (binary_normalize prec emax n 0 false).

(** [min(a, b)]: the first argument, unless the second is strictly
    smaller. *)
Definition py_min (a b : float) : float := if (b <? a)%float then b else a.

(** The options of the select box. *)
Definition freq_options : list string :=
  ["Biweekly (26)"; "Weekly (52)"; "Semi-monthly (24)"; "Monthly (12)"]%string.

Definition freq_map : gmap string Z :=
  list_to_map [("Biweekly (26)"%string, 26%Z); ("Weekly (52)"%string, 52%Z);
               ("Semi-monthly (24)"%string, 24%Z); ("Monthly (12)"%string, 12%Z)].

(** [freq_map[freq]]; [None] stands for [KeyError]. *)
Definition periods (freq : string) : option Z := freq_map !! freq.

(** [gross * periods - pre_tax_contrib * periods] *)
Definition taxable_est (gross pre_tax_contrib : float) (periods : Z) : float :=
  (gross * float_of_int periods - pre_tax_contrib * float_of_int periods)%float.

#[warnings="-inexact-float"]
Definition brackets : list (Z * float) :=
  [(11000%Z, 0.10%float);
   ((44725 - 11000)%Z, 0.12%float);
   ((95375 - 44725)%Z, 0.22%float);
   ((182100 - 95375)%Z, 0.24%float);
   ((231250 - 182100)%Z, 0.32%float);
   ((578125 - 231250)%Z, 0.35%float);
   ((10 ^ 12)%Z, 0.37%float)].

(** The loop over the brackets, from the values of [tax] and [rem]
    before a pass. *)
Fixpoint tax_loop (bs : list (Z * float)) (tax rem : float) : float :=
  match bs with
  | [] => tax
  | (amt, rate) :: bs' =>
      let take := py_min rem (float_of_int amt) in
      let tax' := (tax + take * rate)%float in
      let rem' := (rem - take)%float in
      if (rem' <=? 0)%float then tax' else tax_loop bs' tax' rem'
  end.

Definition estimate_federal_tax_simple (annual_taxable : float) : float :=
  tax_loop brackets 0%float annual_taxable.

(** The three messages of the check. *)
Inductive verdict : Type :=
| OverWithholding
| UnderWithholding
| RoughlyMatches.

Definition withholding_verdict (fed estimated_fed_period : float) : verdict :=
  let diff := (fed - estimated_fed_period)%float in
  if (50 <? diff)%float then OverWithholding
  else if (diff <? -50)%float then UnderWithholding
  else RoughlyMatches.

(** [x / n] for a float [x] and an integer [n]; [None] stands for
    [ZeroDivisionError]. *)
Definition div_int (x : float) (n : Z) : option float :=
  if (n =? 0)%Z then None else Some (x / float_of_int n)%float.

(** The check from the selected frequency and the entered values to
    its message. *)
Definition withholding_check (freq : string) (gross pre_tax_contrib fed : float)
    : option verdict :=
  match periods freq with
  | Some n =>
      let estimated_fed_annual :=
        estimate_federal_tax_simple (taxable_est gross pre_tax_contrib n) in
      match div_int estimated_fed_annual n with
      | Some estimated_fed_period => Some (withholding_verdict fed estimated_fed_period)
      | None => None
      end
  | None => None
  end.

(** * The vocabulary of the properties *)

(** ** Words and matches *)

(** The words of a pattern. *)
Fixpoint lang (r : regex) (w : str) : Prop :=
  match r with
  | Eps => w = []
  | Chr p => exists c, w = [c] /\ p c = true
  | Seq r1 r2 => exists w1 w2, w = w1 ++ w2 /\ lang r1 w1 /\ lang r2 w2
  | Rep r lo hi =>
      exists ws, w = concat ws /\ lo <= length ws /\
        match hi with Some h => length ws <= h | None => True end /\
        Forall (lang r) ws
  | Grp r => lang r w
  end.

(** A step from [st] to [st'] reads the word [w]. *)
Definition reads (st st' : mstate) (w : str) : Prop := fst st = w ++ fst st'.

(** The scan past the first character of [s]. *)
Definition scan_tail (r : regex) (s : str) (pos n : nat) : list Match :=
  match s with
  | [] => []
  | _ :: s' => scan r s' (S pos) n
  end.

(** The scan of [s] from position [pos] can yield [m]: one of the
    results of the pattern at some position. *)
Definition found (r : regex) (s : str) (pos : nat) (m : Match) : Prop :=
  exists k st, k <= length s /\ In st (run r (skipn k s, None)) /\
               m = mk (skipn k s) (pos + k) st.

(** Where the scan finds a match, and which one: the first result at
    that position, or a later one when the first is empty. *)
Definition found_first (r : regex) (s : str) (pos : nat) (m : Match) : Prop :=
  exists k st0 st, k <= length s /\
    head (run r (skipn k s, None)) = Some st0 /\
    (st = st0 \/ consumed (skipn k s) st0 = 0) /\
    m = mk (skipn k s) (pos + k) st.

Definition digits (w : str) : Prop := Forall (fun c => is_digit c = true) w.

Definition nondigits (w : list ascii) : Prop := Forall (fun c => is_digit c = false) w.

(** The length of the longest prefix in a class. *)
Fixpoint span (p : ascii -> bool) (s : str) : nat :=
  match s with
  | c :: s' => if p c then S (span p s') else 0
  | [] => 0
  end.

(** Nothing, or a list that starts with the three-digit token. *)
Definition capped (target : list ascii * option (list ascii))
    (l : list (list ascii * option (list ascii))) : Prop :=
  l = [] \/ exists tl, l = target :: tl.

(** ** Candidates *)

(** The current best meets a candidate. *)
Definition challenge (best c : Best) : Best :=
  if Qgtb (b_score c) (b_score best) then c else best.

Section Candidates.

Variable partial_ratio : str -> str -> Q.

(** The token an occurrence yields: the first one in its window, or
    else the first one in the 80 characters after the window. *)
Definition token_near (text : str) (m : Match) : option (option str) :=
  match search money_re (group0 m) with
  | Some mval => Some (group1 mval)
  | None =>
      match search money_re (firstn 80 (skipn (m_end m) text)) with
      | Some m2 => Some (group1 m2)
      | None => None
      end
  end.

(** The candidate of an occurrence, when it yields a token. *)
Definition candidate (text pat : str) (m : Match) : option Best :=
  option_map
    (fun val => {| b_match := Some (group0 m);
                   b_score := partial_ratio (lower pat) (lower (group0 m));
                   b_value := val |})
    (token_near text m).

Definition candidates_of (text pat : str) : list Best :=
  flat_map (fun m => match candidate text pat m with Some c => [c] | None => [] end)
           (finditer (window_re pat) text).

(** All candidates of a field, in the order the scan meets them. *)
Definition candidates (text : str) (pats : list str) : list Best :=
  flat_map (candidates_of text) pats.

End Candidates.

(** ** Windows *)

(** A window: at most 40 characters of one line, the phrase in any
    case, at most 40 characters of the same line. *)
Definition is_window (pat w : str) : Prop :=
  exists pre occ post, w = pre ++ occ ++ post /\
    length pre <= 40 /\ length post <= 40 /\ lower occ = lower pat /\
    Forall (fun c => is_dot c = true) pre /\ Forall (fun c => is_dot c = true) post.

(** The phrase stands at position [p] of the text, in any case. *)
Definition occurs_at (pat text : str) (p : nat) : Prop :=
  lower (firstn (length pat) (skipn p text)) = lower pat.

(** Matches come in order and do not overlap. *)
Fixpoint ordered_from (lo : nat) (ms : list Match) : Prop :=
  match ms with
  | [] => True
  | m :: ms' => lo <= m_start m /\ m_start m <= m_end m /\ ordered_from (m_end m) ms'
  end.

(** The parts of a window in the text: what stands before the phrase,
    the phrase as it is written there, what stands after it, and the
    text that follows the window. The context after the phrase runs on
    for 40 characters unless the line or the text ends first. *)
Definition window_parts (pat s pre occ post rest : str) : Prop :=
  s = pre ++ occ ++ post ++ rest /\
  length pre <= 40 /\ length post <= 40 /\ lower occ = lower pat /\
  Forall (fun c => is_dot c = true) pre /\ Forall (fun c => is_dot c = true) post /\
  (length post = 40 \/ rest = [] \/ exists r, rest = newline :: r).

(** [occurs_at] as a test. *)
Definition occurs_atb (pat text : str) (p : nat) : bool :=
  str_eqb (lower (firstn (length pat) (skipn p text))) (lower pat).

(** The positions where the phrase stands. *)
Definition occurrences_spec (pat text : str) : list nat :=
  List.filter (occurs_atb pat text) (seq 0 (S (length text))).

(** The windows as the spec words them: one for every position where
    the phrase stands, from 40 characters before it to 40 characters
    after it, cut only at the ends of the text. *)
Definition windows_spec (pat text : str) : list (nat * nat) :=
  map (fun p => (p - 40, Nat.min (p + length pat + 40) (length text)))
      (occurrences_spec pat text).

(** The windows the code forms. *)
Definition windows_code (pat text : str) : list (nat * nat) :=
  map (fun m => (m_start m, m_end m)) (finditer (window_re pat) text).

(** From position [s] the window pattern reaches the occurrence at [p]:
    the phrase stands at [p], at most 40 characters after [s], and no
    line feed stands between the two. *)
Definition reaches (pat text : str) (s p : nat) : Prop :=
  s <= p <= s + 40 /\ occurs_at pat text p /\
  Forall (fun c => is_dot c = true) (slice text s p).

(** The matches leave only free positions between them: every position
    from [lo] up to the first match, between the end of a match and the
    start of the next, and after the last match is [free]. *)
Fixpoint gaps (free : nat -> Prop) (lo : nat) (ms : list Match) : Prop :=
  match ms with
  | [] => forall j, lo <= j -> free j
  | m :: ms' =>
      lo <= m_start m <= m_end m /\
      (forall j, lo <= j < m_start m -> free j) /\
      gaps free (m_end m) ms'
  end.

(** ** Stored values and pages *)

(** What is known of a stored value: it is a float, and some occurrence
    of a phrase of its field yields a token. *)
Definition stored_ok (text : str) (all : list (string * list str)) (key : string)
    (v : value) : Prop :=
  (exists f, v = VFloat f) /\
  exists pats pat m w, In (key, pats) all /\ In pat pats /\
    In m (finditer (window_re pat) text) /\ token_near text m = Some (Some w).

(** What a page adds to the text. *)
Definition page_part {page : Type} (page_extract_text : page -> outcome (option str))
    (p : page) : str :=
  match page_extract_text p with
  | Ok (Some (c :: s)) => newline :: c :: s
  | _ => []
  end.

Definition page_ok {page : Type} (page_extract_text : page -> outcome (option str))
    (p : page) : Prop :=
  exists t, page_extract_text p = Ok t.

(** ** What a field stores *)

(** The value the loop stores for a field with the phrases [pats]: the
    token of the best record, normalised; nothing when the best record
    has no token. *)
Definition field_value (partial_ratio : str -> str -> Q) (text : str) (pats : list str)
    : option value :=
  let res := find_best_pattern partial_ratio text pats in
  if truthy (b_value res) then
    match normalize (default [] (b_value res)) with
    | Ok x => Some x
    | Raise _ => None
    end
  else None.

(** ** Images *)

(** What an image adds to the text of the fallback. *)
Definition image_part {image : Type} (image_to_string : image -> outcome str)
    (im : image) : str :=
  match image_to_string im with
  | Ok t => newline :: t
  | Raise _ => []
  end.

Definition image_ok {image : Type} (image_to_string : image -> outcome str)
    (im : image) : Prop :=
  exists t, image_to_string im = Ok t.

(** The first call that fails in a loop over [l], with the exception it
    raises: the calls before it return. *)
Definition first_failure {A B : Type} (f : A -> outcome B) (l : list A) (e : exn) : Prop :=
  exists before x after, l = before ++ x :: after /\
    Forall (fun y => exists t, f y = Ok t) before /\ f x = Raise e.

(** The primary path lets the exception [e] through: [e] is not of the
    class [Exception], and opening the document raises it, or the first
    page that fails does. *)
Definition escapes {bytes page : Type} (pdf_open : bytes -> outcome (list page))
    (page_extract_text : page -> outcome (option str)) (pdf_bytes : bytes) (e : exn) : Prop :=
  is_exception e = false /\
  (pdf_open pdf_bytes = Raise e \/
   exists pages, pdf_open pdf_bytes = Ok pages /\ first_failure page_extract_text pages e).

(** ** A change of case *)

(** The pattern cannot tell [f c] from [c]: each of its character
    classes holds of the one exactly when it holds of the other. *)
Fixpoint respects (f : ascii -> ascii) (r : regex) : Prop :=
  match r with
  | Eps => True
  | Chr p => forall c, p (f c) = p c
  | Seq r1 r2 => respects f r1 /\ respects f r2
  | Rep r' _ _ => respects f r'
  | Grp r' => respects f r'
  end.

(** The characters of every word of the pattern are in [P]. *)
Fixpoint within (P : ascii -> Prop) (r : regex) : Prop :=
  match r with
  | Eps => True
  | Chr p => forall c, p c = true -> P c
  | Seq r1 r2 => within P r1 /\ within P r2
  | Rep r' _ _ => within P r'
  | Grp r' => within P r'
  end.

(** A matcher state, a match and a best record after the change. *)
Definition map_state (f : ascii -> ascii) (st : list ascii * option (list ascii))
    : list ascii * option (list ascii) :=
  (map f (fst st), option_map (map f) (snd st)).

Definition map_match (f : ascii -> ascii) (m : Match) : Match :=
  {| m_start := m_start m; m_end := m_end m;
     group0 := map f (group0 m); group1 := option_map (map f) (group1 m) |}.

Definition map_best (f : ascii -> ascii) (b : Best) : Best :=
  {| b_match := option_map (map f) (b_match b);
     b_score := b_score b;
     b_value := b_value b |}.

(** * Properties *)

(** ** Characters *)

Ltac by_char c :=
  destruct c as [[] [] [] [] [] [] [] []]; vm_compute;
  try reflexivity; try discriminate; try (intros; discriminate); try (intros; reflexivity).

Lemma digit_not_space c : is_digit c = true -> is_space c = false.
Proof. by_char c. Qed.

Lemma digit_not_char a c : is_digit a = false -> is_digit c = true -> is_char a c = false.
Proof.
  unfold is_char. intros Ha Hc. destruct (Nat.eqb_spec (code c) (code a)) as [E|]; [|reflexivity].
  unfold is_digit, in_range in *. rewrite E in Hc. congruence.
Qed.

Lemma code_inj a b : code a = code b -> a = b.
Proof.
  unfold code. intros E. rewrite <- (ascii_nat_embedding a), <- (ascii_nat_embedding b).
  now rewrite E.
Qed.

Lemma is_char_true a c : is_char a c = true -> c = a.
Proof. unfold is_char. intros E. apply Nat.eqb_eq in E. now apply code_inj. Qed.

Lemma is_char_refl a : is_char a a = true.
Proof. unfold is_char. apply Nat.eqb_refl. Qed.

Lemma is_char_ci_true a c : is_char_ci a c = true -> lower_char c = lower_char a.
Proof. unfold is_char_ci. intros E. apply Nat.eqb_eq in E. now apply code_inj. Qed.

Lemma is_char_ci_lower a c : lower_char c = lower_char a -> is_char_ci a c = true.
Proof. unfold is_char_ci. intros ->. apply Nat.eqb_refl. Qed.

Lemma digit_lower c : is_digit c = true -> lower_char c = c.
Proof. by_char c. Qed.

(** ** The matcher is sound for the language of the pattern *)

Module ReFacts.

Lemma reads_consumed s g st' w : reads (s, g) st' w -> consumed s st' = length w.
Proof.
  unfold reads, consumed. simpl. intros ->. rewrite length_app. lia.
Qed.

Lemma reads_firstn s g st' w : reads (s, g) st' w -> firstn (consumed s st') s = w.
Proof.
  intros H. rewrite (reads_consumed _ _ _ _ H). unfold reads in H. simpl in H. subst s.
  rewrite firstn_app, Nat.sub_diag, firstn_all. simpl. apply app_nil_r.
Qed.

Lemma rep_sound (f : mstate -> list mstate) (P : str -> Prop) :
  (forall st st', In st' (f st) -> exists w, reads st st' w /\ P w) ->
  forall hi lo st st', In st' (rep f lo hi st) ->
    exists ws, reads st st' (concat ws) /\ lo <= length ws <= hi /\ Forall P ws.
Proof.
  intros Hf. induction hi as [|hi IH]; intros lo st st' Hin; simpl in Hin.
  - destruct (Nat.eqb_spec lo 0) as [->|]; [|contradiction].
    destruct Hin as [<-|[]]. exists []. repeat split; auto.
  - apply in_app_or in Hin. destruct Hin as [Hin|Hin].
    + apply in_flat_map in Hin. destruct Hin as (st1 & H1 & H2).
      destruct (Hf _ _ H1) as (w & Hw & HP).
      destruct (IH _ _ _ H2) as (ws & Hws & Hlen & HF).
      exists (w :: ws). simpl. repeat split; try lia.
      * unfold reads in *. rewrite Hw, Hws. now rewrite app_assoc.
      * constructor; assumption.
    + destruct (Nat.eqb_spec lo 0) as [->|]; [|contradiction].
      destruct Hin as [<-|[]]. exists []. simpl. repeat split; auto; lia.
Qed.

Theorem run_sound r : forall st st', In st' (run r st) -> exists w, reads st st' w /\ lang r w.
Proof.
  induction r as [|p|r1 IH1 r2 IH2|r IH lo hi|r IH]; intros st st' Hin; simpl in Hin.
  - destruct Hin as [<-|[]]. exists []. split; reflexivity.
  - destruct st as [[|c s] g]; simpl in Hin; [contradiction|].
    destruct (p c) eqn:Hp; [|contradiction]. destruct Hin as [<-|[]].
    exists [c]. split; [reflexivity|]. exists c. auto.
  - apply in_flat_map in Hin. destruct Hin as (st1 & H1 & H2).
    destruct (IH1 _ _ H1) as (w1 & Hw1 & L1). destruct (IH2 _ _ H2) as (w2 & Hw2 & L2).
    exists (w1 ++ w2). split.
    + unfold reads in *. rewrite Hw1, Hw2. now rewrite app_assoc.
    + simpl. eauto.
  - destruct (rep_sound (run r) (lang r) IH _ _ _ _ Hin) as (ws & Hws & Hlen & HF).
    exists (concat ws). split; [assumption|]. simpl. exists ws. repeat split; try lia; auto.
    destruct hi; [lia|exact I].
  - apply in_map_iff in Hin. destruct Hin as (st1 & <- & H1).
    destruct (IH _ _ H1) as (w & Hw & L). exists w. split; assumption.
Qed.

(** What group 1 holds after a group. *)
Lemma run_grp_sound r st st' :
  In st' (run (Grp r) st) -> exists w, reads st st' w /\ lang r w /\ snd st' = Some w.
Proof.
  simpl. intros Hin. apply in_map_iff in Hin. destruct Hin as (st1 & <- & H1).
  destruct (run_sound _ _ _ H1) as (w & Hw & L). exists w. repeat split; auto.
  simpl. destruct st as [s g]. f_equal. apply (reads_firstn _ g). exact Hw.
Qed.

(** Words of a repeated character class. *)
Lemma lang_rep_chr p lo hi w :
  lang (Rep (Chr p) lo hi) w ->
  Forall (fun c => p c = true) w /\ lo <= length w /\
  match hi with Some h => length w <= h | None => True end.
Proof.
  simpl. intros (ws & -> & Hlo & Hhi & HF).
  assert (E : length (concat ws) = length ws /\ Forall (fun c => p c = true) (concat ws)).
  { clear Hlo Hhi. induction HF as [|w ws (c & -> & Hc) _ [IH1 IH2]]; simpl; auto. }
  destruct E as [E1 E2]. rewrite E1. auto.
Qed.

Lemma lang_lit_ci pat w : lang (lit_ci pat) w -> lower w = lower pat.
Proof.
  revert w. induction pat as [|a pat IH]; simpl; intros w H.
  - now subst.
  - destruct H as (w1 & w2 & -> & (c & -> & Hc) & H2). simpl.
    rewrite (is_char_ci_true _ _ Hc). f_equal. now apply IH.
Qed.

End ReFacts.

Import ReFacts.

(** ** Where [search] and [finditer] find their matches *)

Lemma search_from_in r s : forall pos m, search_from r s pos = Some m ->
  exists k st, k <= length s /\ In st (run r (skipn k s, None)) /\
               m = mk (skipn k s) (pos + k) st.
Proof.
  induction s as [|c s IH]; intros pos m H; simpl in H.
  - unfold match_here in H. destruct (run r ([], None)) as [|st l] eqn:E; simpl in H; [discriminate|].
    injection H as <-. exists 0, st. simpl. rewrite E, Nat.add_0_r. auto with datatypes.
  - unfold match_here in H. destruct (run r (c :: s, None)) as [|st l] eqn:E; simpl in H.
    + destruct (IH _ _ H) as (k & st & Hk & Hin & ->).
      exists (S k), st. simpl. rewrite Nat.add_succ_r. repeat split; auto. lia.
    + injection H as <-. exists 0, st. simpl. rewrite E, Nat.add_0_r.
      repeat split; auto with datatypes. lia.
Qed.

Lemma scan_skip r s pos k : scan r s pos (S k) = scan_tail r s pos k.
Proof. destruct s; reflexivity. Qed.

Lemma scan_0 r s pos :
  scan r s pos 0 =
  match run r (s, None) with
  | [] => scan_tail r s pos 0
  | st :: sts =>
      match consumed s st with
      | S k => mk s pos st :: scan_tail r s pos k
      | 0 =>
          mk s pos st ::
          match List.filter (fun st' => negb (consumed s st' =? 0)) sts with
          | st' :: _ => mk s pos st' :: scan_tail r s pos (pred (consumed s st'))
          | [] => scan_tail r s pos 0
          end
      end
  end.
Proof. destruct s; reflexivity. Qed.

Lemma found_here r s pos st : In st (run r (s, None)) -> found r s pos (mk s pos st).
Proof. intros H. exists 0, st. simpl. rewrite Nat.add_0_r. repeat split; auto. lia. Qed.

Lemma found_later r c s pos m : found r s (S pos) m -> found r (c :: s) pos m.
Proof.
  intros (k & st & Hk & Hin & ->). exists (S k), st. simpl. rewrite Nat.add_succ_r.
  repeat split; auto. lia.
Qed.

Lemma scan_in r s : forall pos skip m, In m (scan r s pos skip) -> found r s pos m.
Proof.
  induction s as [|c s IH]; intros pos skip m H.
  - destruct skip; [|rewrite scan_skip in H; contradiction].
    rewrite scan_0 in H. unfold scan_tail in H.
    destruct (run r ([], None)) as [|st sts] eqn:E; [contradiction|].
    assert (Hst : In st (run r ([], None))) by (rewrite E; now left).
    destruct (consumed [] st).
    + destruct H as [<-|H]; [now apply found_here|].
      destruct (List.filter _ sts) as [|st' l] eqn:Ef; [contradiction|].
      destruct H as [<-|[]]. apply found_here. rewrite E. right.
      eapply proj1. apply filter_In. rewrite Ef. now left.
    + destruct H as [<-|[]]. now apply found_here.
  - assert (Ht : forall n, In m (scan_tail r (c :: s) pos n) -> found r (c :: s) pos m).
    { intros n Hn. apply found_later. exact (IH _ _ _ Hn). }
    destruct skip; [|rewrite scan_skip in H; now apply (Ht skip)].
    rewrite scan_0 in H.
    destruct (run r (c :: s, None)) as [|st sts] eqn:E; [now apply (Ht 0)|].
    assert (Hst : In st (run r (c :: s, None))) by (rewrite E; now left).
    destruct (consumed (c :: s) st).
    + destruct H as [<-|H]; [now apply found_here|].
      destruct (List.filter _ sts) as [|st' l] eqn:Ef; [now apply (Ht 0)|].
      destruct H as [<-|H]; [|now apply (Ht _ H)]. apply found_here. rewrite E. right.
      eapply proj1. apply filter_In. rewrite Ef. now left.
    + destruct H as [<-|H]; [now apply found_here|]. now apply (Ht _ H).
Qed.

(** ** Tokens of [money_re] are float literals *)

Lemma search_money_group s m : search money_re s = Some m ->
  exists w, group1 m = Some w /\ lang money_group w.
Proof.
  intros H. apply search_from_in in H. destruct H as (k & st & _ & Hin & ->).
  unfold money_re in Hin. change (run (Seq ?a ?b) ?x) with (flat_map (run b) (run a x)) in Hin.
  apply in_flat_map in Hin. destruct Hin as (st1 & _ & Hin).
  apply in_flat_map in Hin. destruct Hin as (st2 & _ & Hin).
  apply run_grp_sound in Hin. destruct Hin as (w & _ & L & G). exists w. auto.
Qed.

Lemma remove_commas_app a b : remove_commas (a ++ b) = remove_commas a ++ remove_commas b.
Proof. unfold remove_commas. apply List.filter_app. Qed.

Lemma remove_commas_digits w : digits w -> remove_commas w = w.
Proof.
  induction 1 as [|c w Hc _ IH]; [reflexivity|]. unfold remove_commas in *. simpl.
  rewrite (digit_not_char "," c eq_refl Hc). simpl. now rewrite IH.
Qed.

(** The shape of a token once its commas are gone. *)
Lemma money_group_shape w : lang money_group w ->
  exists d ds frac, remove_commas w = d :: ds ++ frac /\ digits (d :: ds) /\
    (frac = [] \/ exists fd, frac = "."%char :: fd /\ digits fd).
Proof.
  unfold money_group. intros (w1 & w23 & -> & L1 & (w2 & w3 & -> & L2 & L3)).
  apply lang_rep_chr in L1. destruct L1 as (D1 & N1 & _).
  assert (D2 : digits (remove_commas w2)).
  { destruct L2 as (ws & -> & _ & _ & HF). induction HF as [|x ws Hx _ IH]; [constructor|].
    simpl. rewrite remove_commas_app. apply Forall_app. split; [|exact IH].
    destruct Hx as (a & b & -> & (c & -> & Hc) & Hb). apply lang_rep_chr in Hb.
    destruct Hb as (Hb & _). apply is_char_true in Hc. subst c.
    change (digits (remove_commas b)). now rewrite remove_commas_digits. }
  assert (F : w3 = [] \/ exists fd, w3 = "."%char :: fd /\ digits fd).
  { destruct L3 as (ws & -> & _ & Hhi & HF). destruct ws as [|x [|y ws]]; simpl in *; [now left| |lia].
    right. inversion HF as [|? ? Hx _]; subst.
    destruct Hx as (a & b & -> & (c & -> & Hc) & Hb).
    apply (lang_rep_chr is_digit 1 (Some 2)) in Hb.
    destruct Hb as (Hb & _). apply is_char_true in Hc. subst c.
    exists b. rewrite app_nil_r. auto. }
  rewrite !remove_commas_app, (remove_commas_digits _ D1).
  destruct w1 as [|d w1]; [simpl in N1; lia|].
  exists d, (w1 ++ remove_commas w2), (remove_commas w3). repeat split.
  - simpl. now rewrite app_assoc.
  - change (digits ((d :: w1) ++ remove_commas w2)). apply Forall_app. auto.
  - destruct F as [->|(fd & -> & Hfd)]; [now left|]. right. exists fd.
    unfold remove_commas. simpl. fold (remove_commas fd). now rewrite remove_commas_digits.
Qed.

Lemma lstrip_id c s : is_space c = false -> lstrip (c :: s) = c :: s.
Proof. simpl. now intros ->. Qed.

Lemma strip_id s : Forall (fun c => is_space c = false) s -> strip s = s.
Proof.
  intros H. unfold strip, rstrip.
  assert (L : forall l, Forall (fun c => is_space c = false) l -> lstrip l = l).
  { intros l Hl. destruct Hl; [reflexivity|]. now apply lstrip_id. }
  rewrite (L s H), L; [apply rev_involutive|].
  apply Forall_forall. intros c Hc. apply in_rev in Hc.
  exact (proj1 (Forall_forall _ _) H c Hc).
Qed.

Lemma space_blank c : is_space c = false -> PyFloat.is_blank c = false.
Proof. by_char c. Qed.

Lemma skip_blanks_id s : Forall (fun c => is_space c = false) s -> PyFloat.skip_blanks s = s.
Proof.
  intros H. unfold PyFloat.skip_blanks.
  assert (L : forall l, Forall (fun c => is_space c = false) l -> PyFloat.skip_left l = l).
  { intros l Hl. destruct Hl as [|c l Hc _]; [reflexivity|].
    cbn [PyFloat.skip_left]. now rewrite (space_blank c Hc). }
  rewrite (L s H), L; [apply rev_involutive|].
  apply Forall_forall. intros c Hc. apply in_rev in Hc.
  exact (proj1 (Forall_forall _ _) H c Hc).
Qed.

Lemma digitpart_digits ds rest : digits ds ->
  (rest = [] \/ exists c r, rest = c :: r /\ is_digit c = false /\ is_char "_" c = false) ->
  forall b, PyFloat.digitpart b (ds ++ rest) = (ds, rest).
Proof.
  intros Hds Hrest. induction Hds as [|d ds Hd _ IH]; intros b; simpl.
  - destruct Hrest as [->|(c & r & -> & H1 & H2)]; [reflexivity|]. simpl. now rewrite H1, H2.
  - now rewrite Hd, IH.
Qed.

Lemma digits_not_space w : digits w -> Forall (fun c => is_space c = false) w.
Proof. intros H. eapply Forall_impl; [|exact H]. intros c. apply digit_not_space. Qed.

Lemma plain_decimal_no_space d ds frac :
  digits (d :: ds) ->
  (frac = [] \/ exists fd, frac = "."%char :: fd /\ digits fd) ->
  Forall (fun c => is_space c = false) (d :: ds ++ frac).
Proof.
  intros HD HF.
  change (Forall (fun c => is_space c = false) ((d :: ds) ++ frac)). apply Forall_app. split.
  - now apply digits_not_space.
  - destruct HF as [->|(fd & -> & Hfd)]; [constructor|].
    constructor; [reflexivity|]. now apply digits_not_space.
Qed.

(** [float] accepts digits followed by an optional point and digits. *)
Lemma float_plain_decimal d ds frac :
  digits (d :: ds) ->
  (frac = [] \/ exists fd, frac = "."%char :: fd /\ digits fd) ->
  exists f, PyFloat.float (d :: ds ++ frac) = Ok f.
Proof.
  intros HD HF. pose proof HD as HD'. inversion HD' as [|? ? Hd Hds]; subst.
  pose proof (plain_decimal_no_space d ds frac HD HF) as NS.
  unfold PyFloat.float. rewrite (skip_blanks_id _ NS).
  assert (S1 : PyFloat.sign (d :: ds ++ frac) = (false, d :: ds ++ frac)).
  { unfold PyFloat.sign.
    now rewrite (digit_not_char "-" d eq_refl Hd), (digit_not_char "+" d eq_refl Hd). }
  rewrite S1. simpl lower. rewrite (digit_lower d Hd).
  assert (NE : forall n, str_eqb (d :: lower (ds ++ frac)) (chars n) = true ->
                         exists c s, chars n = c :: s /\ is_digit c = true).
  { intros n. unfold str_eqb. destruct (List.list_eq_dec _ _ _) as [E|]; [|discriminate].
    intros _. rewrite <- E. eauto. }
  destruct (str_eqb _ (chars "inf")) eqn:E1.
  { destruct (NE _ E1) as (c & s & Hc & Hdc). injection Hc as <- _. discriminate. }
  destruct (str_eqb _ (chars "infinity")) eqn:E2.
  { destruct (NE _ E2) as (c & s & Hc & Hdc). injection Hc as <- _. discriminate. }
  destruct (str_eqb _ (chars "nan")) eqn:E3.
  { destruct (NE _ E3) as (c & s & Hc & Hdc). injection Hc as <- _. discriminate. }
  simpl orb. cbv iota. unfold PyFloat.floatnumber.
  change (d :: ds ++ frac) with ((d :: ds) ++ frac).
  rewrite (digitpart_digits (d :: ds) frac HD).
  - destruct HF as [->|(fd & -> & Hfd)].
    + simpl. eauto.
    + pose proof (digitpart_digits fd [] Hfd (or_introl eq_refl) false) as E.
      rewrite app_nil_r in E. rewrite is_char_refl, E. simpl. eauto.
  - destruct HF as [->|(fd & -> & Hfd)]; [now left|]. right. exists "."%char, fd. auto.
Qed.

Lemma float_money_token w : lang money_group w ->
  exists f, PyFloat.float (strip (remove_commas w)) = Ok f.
Proof.
  intros L. destruct (money_group_shape _ L) as (d & ds & frac & E & HD & HF).
  rewrite E. destruct (float_plain_decimal d ds frac HD HF) as (f & Hf).
  exists f. rewrite strip_id; [exact Hf|]. now apply plain_decimal_no_space.
Qed.

(** ** The scan as a fold over candidates *)

Lemma Qgtb_lt a b : Qgtb a b = true <-> (b < a)%Q.
Proof.
  unfold Qgtb. rewrite negb_true_iff. split; intros H.
  - apply Qnot_le_lt. intros L. apply Qle_bool_iff in L. congruence.
  - destruct (Qle_bool a b) eqn:E; [|reflexivity].
    apply Qle_bool_iff in E. now apply Qle_not_lt in E.
Qed.

Lemma Qgtb_le a b : Qgtb a b = false <-> (a <= b)%Q.
Proof.
  unfold Qgtb. rewrite negb_false_iff. apply Qle_bool_iff.
Qed.

Section Challenge.

Implicit Types (b c : Best) (l : list Best).

Lemma challenge_cases b c :
  (challenge b c = b /\ (b_score c <= b_score b)%Q) \/
  (challenge b c = c /\ (b_score b < b_score c)%Q).
Proof.
  unfold challenge. destruct (Qgtb (b_score c) (b_score b)) eqn:E.
  - right. split; [reflexivity|]. now apply Qgtb_lt.
  - left. split; [reflexivity|]. now apply Qgtb_le.
Qed.

(** The fold keeps the first candidate of highest score, unless the
    start value is at least as good as all of them. *)
Lemma fold_challenge_spec l : forall b,
  let r := fold_left challenge l b in
  (r = b /\ forall x, In x l -> (b_score x <= b_score b)%Q) \/
  (exists l1 l2, l = l1 ++ r :: l2 /\
     (forall x, In x l1 -> (b_score x < b_score r)%Q) /\
     (b_score b < b_score r)%Q /\
     (forall x, In x l2 -> (b_score x <= b_score r)%Q)).
Proof.
  induction l as [|x l IH]; intros b; simpl.
  - left. split; [reflexivity|]. intros _ [].
  - destruct (challenge_cases b x) as [[E Hle]|[E Hlt]]; rewrite E.
    + destruct (IH b) as [[Er Hall]|(l1 & l2 & El & H1 & Hb & H2)].
      * left. split; [exact Er|]. intros y [<-|Hy]; auto.
      * right. exists (x :: l1), l2. repeat split; auto.
        -- simpl. now f_equal.
        -- intros y [<-|Hy]; auto. eapply Qle_lt_trans; eauto.
    + destruct (IH x) as [[Er Hall]|(l1 & l2 & El & H1 & Hb & H2)].
      * right. exists [], l. rewrite Er. repeat split; auto. intros _ [].
      * right. exists (x :: l1), l2. repeat split; auto.
        -- simpl. now f_equal.
        -- intros y [<-|Hy]; auto.
        -- eapply Qlt_trans; eauto.
Qed.

Lemma fold_challenge_stays l : forall b,
  (forall x, In x l -> (b_score x <= b_score b)%Q) -> fold_left challenge l b = b.
Proof.
  induction l as [|x l IH]; intros b H; simpl; [reflexivity|].
  destruct (challenge_cases b x) as [[E _]|[_ Hlt]].
  - rewrite E. apply IH. intros y Hy. apply H. now right.
  - exfalso. apply (Qlt_not_le _ _ Hlt). apply H. now left.
Qed.

Lemma fold_challenge_in l b : fold_left challenge l b = b \/ In (fold_left challenge l b) l.
Proof.
  destruct (fold_challenge_spec l b) as [[E _]|(l1 & l2 & E & _)]; [now left|].
  right. rewrite E at 2. apply in_elt.
Qed.

(** The first candidate of highest score wins. *)
Lemma fold_challenge_first l1 c l2 b :
  (forall x, In x l1 -> (b_score x < b_score c)%Q) ->
  (b_score b < b_score c)%Q ->
  (forall x, In x l2 -> (b_score x <= b_score c)%Q) ->
  fold_left challenge (l1 ++ c :: l2) b = c.
Proof.
  intros H1 Hb H2. rewrite fold_left_app. simpl.
  assert (Hr : (b_score (fold_left challenge l1 b) < b_score c)%Q).
  { destruct (fold_challenge_in l1 b) as [->|Hin]; auto. }
  destruct (challenge_cases (fold_left challenge l1 b) c) as [[_ Hle]|[E _]].
  - exfalso. exact (Qlt_not_le _ _ Hr Hle).
  - rewrite E. now apply fold_challenge_stays.
Qed.

(** The score kept is the highest there is. *)
Lemma fold_challenge_max l b x :
  In x (b :: l) -> (b_score x <= b_score (fold_left challenge l b))%Q.
Proof.
  destruct (fold_challenge_spec l b) as [[E Hall]|(l1 & l2 & El & H1 & Hb & H2)].
  - rewrite E. intros [<-|Hx]; [apply Qle_refl|auto].
  - intros [<-|Hx]; [now apply Qlt_le_weak|].
    rewrite El in Hx. apply in_app_or in Hx. destruct Hx as [Hx|[<-|Hx]].
    + apply Qlt_le_weak. auto.
    + apply Qle_refl.
    + auto.
Qed.

(** Two orders of the same candidates keep the same score, and the same
    value when the candidates of highest score agree on it. *)
Lemma fold_challenge_perm l l' b :
  Permutation l l' ->
  (b_score (fold_left challenge l b) == b_score (fold_left challenge l' b))%Q /\
  ((forall c c', In c l -> In c' l ->
      (forall x, In x l -> (b_score x <= b_score c)%Q) ->
      (forall x, In x l -> (b_score x <= b_score c')%Q) ->
      b_value c = b_value c') ->
   b_value (fold_left challenge l b) = b_value (fold_left challenge l' b)).
Proof.
  intros P.
  assert (P' : forall x, In x l' -> In x l).
  { intros x. apply Permutation_in. now apply Permutation_sym. }
  pose proof (fold_challenge_max l b) as M. pose proof (fold_challenge_max l' b) as M'.
  assert (I : forall k, (b_score b < b_score (fold_left challenge k b))%Q ->
              In (fold_left challenge k b) k).
  { intros k Hlt. destruct (fold_challenge_in k b) as [E|Hin]; [|exact Hin].
    rewrite E in Hlt. now apply Qlt_irrefl in Hlt. }
  destruct (fold_challenge_spec l b) as [[E A]|(l1 & l2 & _ & _ & Hb & _)];
    destruct (fold_challenge_spec l' b) as [[E' A']|(l1' & l2' & _ & _ & Hb' & _)].
  - rewrite E, E'. split; [apply Qeq_refl|reflexivity].
  - exfalso. apply (Qlt_not_le _ _ Hb'). apply A, P', I, Hb'.
  - exfalso. apply (Qlt_not_le _ _ Hb). apply A'. apply (Permutation_in _ P), I, Hb.
  - pose proof (I l Hb) as Il. pose proof (I l' Hb') as Il'.
    split.
    + apply Qle_antisym.
      * apply M'. right. now apply (Permutation_in _ P).
      * apply M. right. now apply P'.
    + intros H. apply H; auto.
      * intros x Hx. apply M. now right.
      * intros x Hx. apply M'. right. now apply (Permutation_in _ P).
Qed.

End Challenge.

Section LocatorFacts.

Variable partial_ratio : str -> str -> Q.

Lemma consider_candidate text pat best m :
  consider partial_ratio text pat best m =
  match candidate partial_ratio text pat m with
  | Some c => challenge best c
  | None => best
  end.
Proof.
  unfold consider, candidate, token_near, challenge.
  destruct (search money_re (group0 m)); simpl; [reflexivity|].
  destruct (search money_re _); reflexivity.
Qed.

Lemma scan_pattern_fold text best pat :
  scan_pattern partial_ratio text best pat = fold_left challenge (candidates_of partial_ratio text pat) best.
Proof.
  unfold scan_pattern, candidates_of. generalize (finditer (window_re pat) text) as ms.
  intros ms. revert best. induction ms as [|m ms IH]; intros best; simpl; [reflexivity|].
  rewrite fold_left_app, consider_candidate, IH.
  destruct (candidate partial_ratio text pat m); reflexivity.
Qed.

Lemma find_best_pattern_fold text pats :
  find_best_pattern partial_ratio text pats = fold_left challenge (candidates partial_ratio text pats) init_best.
Proof.
  unfold find_best_pattern, candidates. generalize init_best as b.
  induction pats as [|p pats IH]; intros b; simpl; [reflexivity|].
  rewrite fold_left_app, scan_pattern_fold. apply IH.
Qed.

End LocatorFacts.

(** ** The score of a window that holds the phrase *)

Module FuzzFacts.

Import Fuzz.

Lemma lcs_rows_cons a : forall y b, lcs_rows a (y :: b) = lcs a (y :: b) :: lcs_rows a b.
Proof.
  induction a as [|x a IH]; intros y b; [reflexivity|].
  unfold lcs. simpl. rewrite IH. reflexivity.
Qed.

Lemma lcs_nil_l b : lcs [] b = 0.
Proof. reflexivity. Qed.

Lemma lcs_nil_r a : lcs a [] = 0.
Proof.
  unfold lcs. assert (E : lcs_rows a [] = [0]); [|now rewrite E].
  destruct a; reflexivity.
Qed.

Lemma lcs_cons x a y b :
  lcs (x :: a) (y :: b) =
  if Ascii.eqb x y then S (lcs a b) else Nat.max (lcs a (y :: b)) (lcs (x :: a) b).
Proof.
  unfold lcs at 1. simpl. rewrite lcs_rows_cons. reflexivity.
Qed.

Lemma lcs_le a : forall b, lcs a b <= length a /\ lcs a b <= length b.
Proof.
  induction a as [|x a IHa]; intros b.
  - rewrite lcs_nil_l. simpl. lia.
  - induction b as [|y b IHb].
    + rewrite lcs_nil_r. simpl. lia.
    + rewrite lcs_cons. destruct (Ascii.eqb x y).
      * destruct (IHa b). simpl. lia.
      * destruct (IHa (y :: b)). simpl in *. lia.
Qed.

Lemma lcs_refl s : lcs s s = length s.
Proof.
  induction s as [|x s IH]; [reflexivity|].
  rewrite lcs_cons, Ascii.eqb_refl, IH. reflexivity.
Qed.

Lemma ratio_le_100 a b : (ratio a b <= 100)%Q.
Proof.
  unfold ratio. destruct (length a + length b)%nat as [|n] eqn:E; [apply Qle_refl|].
  rewrite Qred_correct. unfold Qle. simpl Qnum. simpl Qden.
  destruct (lcs_le a b). lia.
Qed.

Lemma ratio_refl s : s <> [] -> ratio s s = 100%Q.
Proof.
  intros Hs. unfold ratio. destruct (length s + length s)%nat as [|n] eqn:E.
  - destruct s; [congruence|simpl in E; lia].
  - change 100%Q with (Qred 100). apply Qred_complete.
    unfold Qeq. simpl Qnum. simpl Qden. rewrite lcs_refl. lia.
Qed.

(** A ratio that amounts to 100 is the number 100 itself. *)
Lemma ratio_100 a b : (ratio a b == 100)%Q -> ratio a b = 100%Q.
Proof.
  unfold ratio. destruct (length a + length b)%nat; [reflexivity|].
  intros H. rewrite Qred_correct in H. change 100%Q with (Qred 100). now apply Qred_complete.
Qed.

Lemma Qmax_list_spec l : forall b,
  let r := fold_left (fun best q => if Qgtb q best then q else best) l b in
  (r = b \/ In r l) /\ (b <= r)%Q /\ forall x, In x l -> (x <= r)%Q.
Proof.
  induction l as [|x l IH]; intros b; simpl.
  - repeat split; auto. apply Qle_refl. intros _ [].
  - destruct (Qgtb x b) eqn:E.
    + destruct (IH x) as ([Hr|Hr] & Hb & Hall); (repeat split; auto).
      * apply Qgtb_lt in E. apply Qlt_le_weak. eapply Qlt_le_trans; eauto.
      * intros y [<-|Hy]; auto.
      * apply Qgtb_lt in E. apply Qlt_le_weak. eapply Qlt_le_trans; eauto.
      * intros y [<-|Hy]; auto.
    + destruct (IH b) as ([Hr|Hr] & Hb & Hall); (repeat split; auto).
      * intros y [<-|Hy]; auto. apply Qgtb_le in E. eapply Qle_trans; eauto.
      * intros y [<-|Hy]; auto. apply Qgtb_le in E. eapply Qle_trans; eauto.
Qed.

Lemma window_in_alignments s pre post :
  In s (alignments s (pre ++ s ++ post)).
Proof.
  unfold alignments. apply in_or_app. right. apply in_or_app. left.
  apply in_map_iff. exists (length pre). split.
  - rewrite skipn_app, Nat.sub_diag, skipn_all, skipn_O. simpl.
    rewrite firstn_app, Nat.sub_diag, firstn_all, firstn_O. apply app_nil_r.
  - apply in_seq. rewrite !length_app. lia.
Qed.

Lemma partial_ratio_impl_contains s pre post :
  s <> [] -> partial_ratio_impl s (pre ++ s ++ post) = 100%Q.
Proof.
  intros Hs. unfold partial_ratio_impl, Qmax_list.
  destruct (Qmax_list_spec (map (ratio s) (alignments s (pre ++ s ++ post))) 0%Q)
    as (Hin & _ & Hall). simpl in Hin, Hall.
  set (r := fold_left _ _ _) in *.
  assert (H100 : (100 <= r)%Q).
  { apply Hall. apply in_map_iff. exists s. split; [now apply ratio_refl|].
    apply window_in_alignments. }
  destruct Hin as [E|Hin].
  - rewrite E in H100. exfalso. revert H100. apply Qlt_not_le. reflexivity.
  - apply in_map_iff in Hin. destruct Hin as (w & Hw & _). rewrite <- Hw in *.
    apply ratio_100. apply Qle_antisym; [apply ratio_le_100|assumption].
Qed.

(** A string that occurs in another one scores 100 against it. *)
Theorem partial_ratio_contains s pre post :
  s <> [] -> partial_ratio s (pre ++ s ++ post) = 100%Q.
Proof.
  intros Hs. unfold partial_ratio.
  destruct s as [|c s]; [congruence|].
  destruct (pre ++ (c :: s) ++ post) as [|c' s'] eqn:E.
  { destruct pre; discriminate. }
  rewrite <- E. clear c' s' E.
  destruct (Nat.ltb_spec (length (c :: s)) (length (pre ++ (c :: s) ++ post))) as [L|L].
  - now apply partial_ratio_impl_contains.
  - destruct (Nat.ltb_spec (length (pre ++ (c :: s) ++ post)) (length (c :: s))) as [L'|_].
    + rewrite !length_app in L'. lia.
    + assert (pre = [] /\ post = []) as [-> ->].
      { rewrite !length_app in L. destruct pre, post; simpl in L; auto; lia. }
      simpl app. rewrite app_nil_r.
      pose proof (partial_ratio_impl_contains (c :: s) [] [] Hs) as E.
      simpl app in E. rewrite app_nil_r in E. rewrite E. reflexivity.
Qed.

End FuzzFacts.

(** ** What [finditer] yields for the window pattern *)

Lemma lang_window pat w : lang (window_re pat) w -> is_window pat w.
Proof.
  unfold window_re. intros (pre & w' & -> & L1 & (occ & post & -> & L2 & L3)).
  apply lang_rep_chr in L1. apply lang_rep_chr in L3. apply lang_lit_ci in L2.
  exists pre, occ, post. intuition.
Qed.

Lemma lower_length s : length (lower s) = length s.
Proof. apply length_map. Qed.

Lemma is_window_length pat w : is_window pat w -> length pat <= length w.
Proof.
  intros (pre & occ & post & -> & _ & _ & E & _).
  apply (f_equal (@length ascii)) in E. rewrite !lower_length in E.
  rewrite !length_app. lia.
Qed.

(** A match lies in the text where it says. *)
Lemma found_match r text pos m : found r text pos m ->
  exists w, lang r w /\ group0 m = w /\ pos <= m_start m /\
    m_end m = m_start m + length w /\
    skipn (m_start m - pos) text = w ++ skipn (m_end m - pos) text /\
    m_end m - pos <= length text.
Proof.
  intros (k & st & Hk & Hin & ->). destruct (run_sound _ _ _ Hin) as (w & Hr & L).
  exists w. unfold mk. cbn [m_start m_end group0].
  rewrite (reads_firstn _ _ _ _ Hr), (reads_consumed _ _ _ _ Hr).
  unfold reads in Hr. simpl in Hr.
  assert (E : skipn (k + length w) text = fst st).
  { rewrite Nat.add_comm, <- skipn_skipn, Hr, skipn_app, Nat.sub_diag, skipn_all, skipn_O.
    reflexivity. }
  replace (pos + k - pos) with k by lia.
  replace (pos + k + length w - pos) with (k + length w) by lia.
  rewrite E. repeat split; auto; try lia.
  apply (f_equal (@length ascii)) in Hr. rewrite length_skipn, length_app in Hr. lia.
Qed.

Lemma finditer_match r text m : In m (finditer r text) ->
  exists w, lang r w /\ group0 m = w /\
    m_end m = m_start m + length w /\
    skipn (m_start m) text = w ++ skipn (m_end m) text /\
    m_end m <= length text.
Proof.
  intros H. apply scan_in, found_match in H.
  destruct H as (w & L & G & _ & E & S & B). rewrite !Nat.sub_0_r in *.
  exists w. auto.
Qed.

Lemma finditer_slice r text m : In m (finditer r text) ->
  group0 m = slice text (m_start m) (m_end m).
Proof.
  intros H. destruct (finditer_match _ _ _ H) as (w & _ & G & E & S & _).
  unfold slice. rewrite S, E, G. replace (m_start m + length w - m_start m) with (length w) by lia.
  rewrite firstn_app, Nat.sub_diag, firstn_all, firstn_O. symmetry. apply app_nil_r.
Qed.

Lemma ordered_from_weaken ms lo lo' : lo <= lo' -> ordered_from lo' ms -> ordered_from lo ms.
Proof. destruct ms; simpl; [auto|]. intros H (H1 & H2 & H3). repeat split; auto. lia. Qed.

Lemma scan_ordered r s : forall pos skip, ordered_from (pos + skip) (scan r s pos skip).
Proof.
  induction s as [|c s IH]; intros pos skip.
  - destruct skip; [|rewrite scan_skip; exact I].
    rewrite scan_0. unfold scan_tail, consumed. simpl.
    destruct (run r ([], None)) as [|st sts]; [exact I|].
    simpl. repeat split; try lia.
    destruct (List.filter _ sts) eqn:Ef; [exact I|].
    assert (Hin : In p (List.filter (fun _ : list ascii * option (list ascii) => negb true) sts))
      by (simpl; rewrite Ef; now left).
    apply filter_In in Hin. destruct Hin as [_ Hin]. discriminate.
  - assert (Ht : forall n, ordered_from (pos + S n) (scan_tail r (c :: s) pos n)).
    { intros n. unfold scan_tail. replace (pos + S n) with (S pos + n) by lia. apply IH. }
    destruct skip; [|rewrite scan_skip; apply Ht].
    rewrite scan_0.
    destruct (run r (c :: s, None)) as [|st sts].
    { eapply ordered_from_weaken; [|apply (Ht 0)]. lia. }
    destruct (consumed (c :: s) st) eqn:Ec.
    + simpl ordered_from. rewrite Ec. repeat split; try lia.
      destruct (List.filter _ sts) as [|st' l] eqn:Ef.
      * eapply ordered_from_weaken; [|apply (Ht 0)]. lia.
      * assert (Hin : In st' (List.filter (fun st' => negb (consumed (c :: s) st' =? 0)) sts))
          by (rewrite Ef; now left).
        apply filter_In in Hin. destruct Hin as [_ Hin].
        apply negb_true_iff, Nat.eqb_neq in Hin.
        simpl ordered_from. repeat split; try lia.
        eapply ordered_from_weaken; [|apply Ht]. lia.
    + simpl ordered_from. rewrite Ec. repeat split; try lia. apply Ht.
Qed.

Lemma finditer_ordered r text : ordered_from 0 (finditer r text).
Proof. apply (scan_ordered r text 0 0). Qed.

(** ** Every occurrence of the phrase begins inside a window *)

Lemma rep_zero_in (f : list ascii * option (list ascii) -> list (list ascii * option (list ascii)))
    hi st : In st (rep f 0 hi st).
Proof. destruct hi; simpl; [now left|]. apply in_or_app. right. now left. Qed.

Lemma run_lit_ci_occ pat : forall s g,
  lower (firstn (length pat) s) = lower pat ->
  run (lit_ci pat) (s, g) = [(skipn (length pat) s, g)].
Proof.
  induction pat as [|a pat IH]; intros s g H; [reflexivity|].
  destruct s as [|c s]; [discriminate|]. simpl in H. injection H as Hc Hs.
  cbn [lit_ci run fst snd length skipn]. rewrite (is_char_ci_lower _ _ Hc).
  cbn [flat_map]. rewrite (IH _ _ Hs). reflexivity.
Qed.

Lemma window_matches_here pat s :
  occurs_at pat s 0 -> run (window_re pat) (s, None) <> [].
Proof.
  unfold occurs_at. rewrite skipn_O. intros H E.
  assert (Hin : In (skipn (length pat) s, @None (list ascii)) (run (window_re pat) (s, None))).
  { unfold window_re. cbn [run]. apply in_flat_map. exists (s, None). split.
    - apply rep_zero_in.
    - apply in_flat_map. exists (skipn (length pat) s, None). split.
      + rewrite (run_lit_ci_occ pat s None H). now left.
      + apply rep_zero_in. }
  rewrite E in Hin. contradiction.
Qed.

Lemma window_consumes pat s g st :
  pat <> [] -> In st (run (window_re pat) (s, g)) -> 1 <= consumed s st.
Proof.
  intros Hp Hin. destruct (run_sound _ _ _ Hin) as (w & Hr & L).
  rewrite (reads_consumed _ _ _ _ Hr). apply lang_window, is_window_length in L.
  destruct pat; [congruence|]. simpl in L. lia.
Qed.

Lemma occurs_at_tail pat c s p : occurs_at pat (c :: s) (S p) -> occurs_at pat s p.
Proof. exact (fun H => H). Qed.

Lemma occurs_at_nil pat p : pat <> [] -> ~ occurs_at pat [] p.
Proof.
  unfold occurs_at. intros Hp H. rewrite skipn_nil, firstn_nil in H.
  destruct pat; [congruence|discriminate].
Qed.

Lemma scan_covers pat : pat <> [] -> forall s pos skip p,
  occurs_at pat s p -> skip <= p ->
  exists m, In m (scan (window_re pat) s pos skip) /\ m_start m <= pos + p < m_end m.
Proof.
  intros Hp. induction s as [|c s IH]; intros pos skip p Ho Hs.
  { now apply occurs_at_nil in Ho. }
  assert (Ht : forall n q, occurs_at pat (c :: s) (S q) -> n <= q ->
            exists m, In m (scan_tail (window_re pat) (c :: s) pos n) /\
                      m_start m <= pos + S q < m_end m).
  { intros n q Hq Hn. destruct (IH (S pos) n q Hq Hn) as (m & Hin & Hm).
    exists m. split; [exact Hin|lia]. }
  destruct skip as [|k].
  - rewrite scan_0. destruct (run (window_re pat) (c :: s, None)) as [|st sts] eqn:E.
    + destruct p as [|q]; [now apply window_matches_here in Ho|]. apply Ht; [exact Ho|lia].
    + assert (Hc : 1 <= consumed (c :: s) st).
      { apply (window_consumes pat _ None); [exact Hp|]. rewrite E. now left. }
      destruct (consumed (c :: s) st) as [|k] eqn:Ec; [lia|].
      destruct (Nat.lt_ge_cases p (S k)) as [Hlt|Hge].
      * exists (mk (c :: s) pos st). split; [now left|].
        unfold mk. cbn [m_start m_end]. rewrite Ec. lia.
      * destruct p as [|q]; [lia|].
        destruct (Ht k q Ho ltac:(lia)) as (m & Hin & Hm).
        exists m. split; [now right|exact Hm].
  - rewrite scan_skip. destruct p as [|q]; [lia|]. apply Ht; [exact Ho|lia].
Qed.

Lemma finditer_covers pat text p : pat <> [] -> occurs_at pat text p ->
  exists m, In m (finditer (window_re pat) text) /\ m_start m <= p < m_end m.
Proof.
  intros Hp Ho. destruct (scan_covers pat Hp text 0 0 p Ho (Nat.le_0_l _)) as (m & Hin & Hm).
  exists m. split; [exact Hin|]. simpl in Hm. exact Hm.
Qed.

(** ** With the similarity score of the spec, every window scores 100 *)

Lemma lower_nil s : lower s = [] -> s = [].
Proof. destruct s; [reflexivity|discriminate]. Qed.

Lemma window_score pat text m : pat <> [] -> In m (finditer (window_re pat) text) ->
  Fuzz.partial_ratio (lower pat) (lower (group0 m)) = 100%Q.
Proof.
  intros Hp Hin. destruct (finditer_match _ _ _ Hin) as (w & L & -> & _).
  apply lang_window in L. destruct L as (pre & occ & post & -> & _ & _ & E & _).
  unfold lower at 2. rewrite !map_app. fold (lower pre) (lower occ) (lower post). rewrite E.
  apply FuzzFacts.partial_ratio_contains. intros H. apply lower_nil in H. contradiction.
Qed.

Lemma candidates_of_score pat text c : pat <> [] ->
  In c (candidates_of Fuzz.partial_ratio text pat) -> b_score c = 100%Q.
Proof.
  intros Hp Hin. unfold candidates_of in Hin. apply in_flat_map in Hin.
  destruct Hin as (m & Hm & Hc). unfold candidate in Hc.
  destruct (token_near text m); simpl in Hc; [|contradiction].
  destruct Hc as [<-|[]]. simpl. exact (window_score pat text m Hp Hm).
Qed.

Lemma candidates_score pats text c : Forall (fun p => p <> []) pats ->
  In c (candidates Fuzz.partial_ratio text pats) -> b_score c = 100%Q.
Proof.
  intros Hp Hin. unfold candidates in Hin. apply in_flat_map in Hin.
  destruct Hin as (pat & Hpat & Hc). eapply candidates_of_score; [|exact Hc].
  exact (proj1 (Forall_forall _ _) Hp pat Hpat).
Qed.

(** So the first candidate met is the one returned. *)
Lemma first_candidate_wins pats text : Forall (fun p => p <> []) pats ->
  find_best_pattern Fuzz.partial_ratio text pats =
  hd init_best (candidates Fuzz.partial_ratio text pats).
Proof.
  intros Hp. rewrite find_best_pattern_fold.
  destruct (candidates Fuzz.partial_ratio text pats) as [|c l] eqn:E; [reflexivity|].
  assert (Hs : forall x, In x (c :: l) -> b_score x = 100%Q).
  { intros x Hx. apply (candidates_score pats text); [exact Hp|]. now rewrite E. }
  apply (fold_challenge_first [] c l).
  - intros _ [].
  - rewrite (Hs c (or_introl eq_refl)). reflexivity.
  - intros x Hx. rewrite (Hs c (or_introl eq_refl)), (Hs x (or_intror Hx)). apply Qle_refl.
Qed.

(** ** The first match of [money_re] in a text *)

Lemma run_opt_chr_cons p c s g :
  run (opt (Chr p)) (c :: s, g) = if p c then [(s, g); (c :: s, g)] else [(c :: s, g)].
Proof. cbn. destruct (p c); reflexivity. Qed.

Lemma rep_stop (f : list ascii * option (list ascii) -> list (list ascii * option (list ascii)))
    hi st : f st = [] -> rep f 0 hi st = [st].
Proof. intros E. destruct hi; simpl; [reflexivity|]. now rewrite E. Qed.

Lemma rep_more (f : list ascii * option (list ascii) -> list (list ascii * option (list ascii)))
    lo hi st x y tl tl' :
  f st = x :: tl -> rep f (pred lo) hi x = y :: tl' ->
  exists tl'', rep f lo (S hi) st = y :: tl''.
Proof. intros E1 E2. simpl. rewrite E1. simpl. rewrite E2. simpl. eauto. Qed.

Lemma run_chr_true p c s g : p c = true -> run (Chr p) (c :: s, g) = [(s, g)].
Proof. intros E. cbn. now rewrite E. Qed.

Lemma run_chr_false p c s g : p c = false -> run (Chr p) (c :: s, g) = [].
Proof. intros E. cbn. now rewrite E. Qed.

Section MoneyCap.

Variables (d1 d2 d3 d4 : ascii) (rest : list ascii).
Hypothesis (H1 : is_digit d1 = true) (H2 : is_digit d2 = true)
           (H3 : is_digit d3 = true) (H4 : is_digit d4 = true).

Let D : list ascii := d1 :: d2 :: d3 :: d4 :: rest.
Let target : list ascii * option (list ascii) := (d4 :: rest, Some [d1; d2; d3]).

Lemma capped_app a b : capped target a -> capped target b -> capped target (a ++ b).
Proof.
  intros [->|(tl & ->)] Hb; [exact Hb|]. right. simpl. eauto.
Qed.

Lemma capped_nil : capped target [].
Proof. now left. Qed.

Lemma money_group_nondigit c s g : is_digit c = false -> run (Grp money_group) (c :: s, g) = [].
Proof. intros H. cbn. rewrite H. reflexivity. Qed.

Lemma three_digits g :
  exists tl, run (Rep (Chr is_digit) 1 (Some 3)) (D, g) = (d4 :: rest, g) :: tl.
Proof.
  unfold D. cbn [run fst].
  eapply rep_more; [apply (run_chr_true _ _ _ _ H1)|]. simpl pred.
  simpl. rewrite H2. simpl. rewrite H3. simpl. reflexivity.
Qed.

Lemma money_group_four g : exists tl, run (Grp money_group) (D, g) = target :: tl.
Proof.
  destruct (three_digits g) as (tl & E).
  unfold money_group. cbn [run]. cbn [run] in E. rewrite E. cbn [flat_map map fst].
  rewrite (rep_stop _ _ (d4 :: rest, g)).
  2:{ cbn. now rewrite (digit_not_char "," d4 eq_refl H4). }
  cbn [flat_map]. unfold opt. cbn [run fst]. rewrite (rep_stop _ _ (d4 :: rest, g)).
  2:{ cbn. now rewrite (digit_not_char "." d4 eq_refl H4). }
  cbn [app map fst length]. unfold D, target. cbn [length].
  replace (S (S (S (S (length rest)))) - S (length rest)) with 3 by lia.
  cbn [firstn]. eauto.
Qed.

Lemma group_capped X : nondigits X -> capped target (run (Grp money_group) (X ++ D, None)).
Proof.
  intros HX. destruct HX as [|c X Hc _].
  - right. apply money_group_four.
  - left. now apply money_group_nondigit.
Qed.

Lemma space_group_capped X : nondigits X ->
  capped target (flat_map (run (Grp money_group)) (run (opt (Chr is_space)) (X ++ D, None))).
Proof.
  intros HX. pose proof (group_capped X HX) as G. destruct HX as [|c X Hc HX].
  - unfold D in *. cbn [app] in *. rewrite run_opt_chr_cons, (digit_not_space d1 H1).
    cbn [flat_map]. rewrite app_nil_r. exact G.
  - cbn [app] in *. rewrite run_opt_chr_cons. destruct (is_space c); cbn [flat_map].
    + apply capped_app; [now apply group_capped|]. rewrite app_nil_r. exact G.
    + rewrite app_nil_r. exact G.
Qed.

Lemma money_capped X : nondigits X -> capped target (run money_re (X ++ D, None)).
Proof.
  intros HX. pose proof (space_group_capped X HX) as G.
  unfold money_re. cbn [run]. fold (opt (Chr (is_char "$"))) (opt (Chr is_space)).
  change (Rep (Chr (is_char "$")) 0 (Some 1)) with (opt (Chr (is_char "$"))).
  destruct HX as [|c X Hc HX].
  - unfold D in *. cbn [app] in *.
    change (rep (run (Chr (is_char "$"))) 0 1 (d1 :: d2 :: d3 :: d4 :: rest, None))
      with (run (opt (Chr (is_char "$"))) (d1 :: d2 :: d3 :: d4 :: rest, None)).
    rewrite run_opt_chr_cons, (digit_not_char "$" d1 eq_refl H1).
    cbn [flat_map]. rewrite app_nil_r. exact G.
  - cbn [app] in *.
    change (rep (run (Chr (is_char "$"))) 0 1 (c :: X ++ D, None))
      with (run (opt (Chr (is_char "$"))) (c :: X ++ D, None)).
    rewrite run_opt_chr_cons. destruct (is_char "$" c); cbn [flat_map].
    + apply capped_app; [now apply space_group_capped|]. rewrite app_nil_r. exact G.
    + rewrite app_nil_r. exact G.
Qed.

Lemma money_here : exists tl, run money_re (D, None) = target :: tl.
Proof.
  destruct (money_capped [] (Forall_nil _)) as [E|E]; [|exact E]. exfalso.
  destruct (money_group_four None) as (tl & G).
  unfold money_re in E. cbn [run app] in E.
  change (rep (run (Chr (is_char "$"))) 0 1 (D, None))
    with (run (opt (Chr (is_char "$"))) (D, None)) in E.
  unfold D in E, G. rewrite run_opt_chr_cons, (digit_not_char "$" d1 eq_refl H1) in E.
  cbn [flat_map] in E.
  change (rep (run (Chr is_space)) 0 1 (d1 :: d2 :: d3 :: d4 :: rest, None))
    with (run (opt (Chr is_space)) (d1 :: d2 :: d3 :: d4 :: rest, None)) in E.
  rewrite run_opt_chr_cons, (digit_not_space d1 H1) in E. cbn [flat_map] in E.
  cbn [run] in G. rewrite G in E. discriminate.
Qed.

Lemma search_capped X : nondigits X -> forall pos,
  exists m, search_from money_re (X ++ D) pos = Some m /\ group1 m = Some [d1; d2; d3].
Proof.
  intros HX. induction HX as [|c X Hc HX IH]; intros pos.
  - cbn [app]. destruct money_here as (tl & E).
    destruct D eqn:ED; [discriminate|]. rewrite <- ED in *.
    assert (Hm : match_here money_re D = Some target) by (unfold match_here; now rewrite E).
    exists (mk D pos target). split; [|reflexivity].
    rewrite ED in *. simpl. now rewrite Hm.
  - cbn [app search_from].
    destruct (money_capped (c :: X) ltac:(constructor; assumption)) as [E|(tl & E)];
      cbn [app] in E; unfold match_here; rewrite E; cbn [head].
    + apply IH.
    + eexists. split; reflexivity.
Qed.

End MoneyCap.

(** ** Where the value of the best record comes from *)

Lemma money_token_nonempty w : lang money_group w -> w <> [].
Proof.
  unfold money_group. intros (w1 & w2 & -> & L1 & _) E. apply lang_rep_chr in L1.
  destruct L1 as (_ & N & _). destruct w1; [simpl in N; lia|discriminate].
Qed.

Lemma normalize_token w : lang money_group w -> exists f, normalize w = Ok (VFloat f).
Proof.
  intros L. destruct (float_money_token w L) as (f & Hf). exists f.
  unfold normalize. now rewrite Hf.
Qed.

Section ValueFacts.

Variable partial_ratio : str -> str -> Q.

Lemma token_near_token text m v : token_near text m = Some v ->
  exists w, v = Some w /\ lang money_group w.
Proof.
  unfold token_near. intros H.
  destruct (search money_re (group0 m)) as [mval|] eqn:E1.
  - injection H as <-. now apply (search_money_group (group0 m)).
  - destruct (search money_re (firstn 80 (skipn (m_end m) text))) as [m2|] eqn:E2; [|discriminate].
    injection H as <-. now apply (search_money_group _ _ E2).
Qed.

Lemma candidate_token text pat m c : candidate partial_ratio text pat m = Some c ->
  exists w, b_value c = Some w /\ lang money_group w /\ token_near text m = Some (Some w).
Proof.
  unfold candidate. destruct (token_near text m) as [v|] eqn:E; [|discriminate].
  simpl. intros H. injection H as <-. simpl.
  destruct (token_near_token _ _ _ E) as (w & -> & L). eauto.
Qed.

Lemma candidates_token text pats c : In c (candidates partial_ratio text pats) ->
  exists pat m w, In pat pats /\ In m (finditer (window_re pat) text) /\
    token_near text m = Some (Some w) /\ b_value c = Some w /\ lang money_group w.
Proof.
  unfold candidates, candidates_of. intros H. apply in_flat_map in H.
  destruct H as (pat & Hp & H). apply in_flat_map in H. destruct H as (m & Hm & H).
  destruct (candidate partial_ratio text pat m) as [c'|] eqn:E; [|contradiction].
  destruct H as [<-|[]]. destruct (candidate_token _ _ _ _ E) as (w & Hv & L & T).
  exists pat, m, w. auto.
Qed.

(** The value returned is absent, or the token of some occurrence. *)
Lemma find_best_value text pats :
  find_best_pattern partial_ratio text pats = init_best \/
  exists pat m w, In pat pats /\ In m (finditer (window_re pat) text) /\
    token_near text m = Some (Some w) /\
    b_value (find_best_pattern partial_ratio text pats) = Some w /\ lang money_group w.
Proof.
  rewrite find_best_pattern_fold.
  destruct (fold_challenge_in (candidates partial_ratio text pats) init_best) as [E|Hin];
    [now left|right].
  now apply candidates_token.
Qed.

(** One round of the loop stores a float or nothing. *)
Lemma extract_field_cases text ex key pats :
  (extract_field partial_ratio text ex (key, pats) = Ok ex /\
   b_value (find_best_pattern partial_ratio text pats) = None) \/
  (exists w f, b_value (find_best_pattern partial_ratio text pats) = Some w /\
     lang money_group w /\ normalize w = Ok (VFloat f) /\
     extract_field partial_ratio text ex (key, pats) = Ok (<[key := VFloat f]> ex)).
Proof.
  unfold extract_field.
  destruct (find_best_value text pats) as [E|(pat & m & w & _ & _ & _ & E & L)].
  - rewrite E. left. auto.
  - right. rewrite E. destruct (normalize_token w L) as (f & Hf). exists w, f.
    repeat split; auto. destruct w; [now apply money_token_nonempty in L|].
    simpl. now rewrite Hf.
Qed.

End ValueFacts.

(** ** The first match of the window pattern at a position *)

Lemma span_stop p s :
  skipn (span p s) s = [] \/ exists c r, skipn (span p s) s = c :: r /\ p c = false.
Proof.
  induction s as [|c s IH]; simpl; [now left|].
  destruct (p c) eqn:E; [exact IH|]. right. rewrite skipn_O. eauto.
Qed.

Lemma rep_chr_head p n : forall s g,
  head (rep (run (Chr p)) 0 n (s, g)) = Some (skipn (Nat.min n (span p s)) s, g).
Proof.
  induction n as [|n IH]; intros s g; [reflexivity|].
  destruct s as [|c s]; [reflexivity|].
  change (rep (run (Chr p)) 0 (S n) (c :: s, g))
    with (flat_map (rep (run (Chr p)) 0 n) (run (Chr p) (c :: s, g)) ++ [(c :: s, g)]).
  cbn [span]. destruct (p c) eqn:E.
  - rewrite (run_chr_true _ _ _ _ E). cbn [flat_map]. rewrite app_nil_r.
    specialize (IH s g).
    destruct (rep (run (Chr p)) 0 n (s, g)) as [|x l]; [discriminate|].
    simpl in IH |- *. injection IH as ->. reflexivity.
  - rewrite (run_chr_false _ _ _ _ E). reflexivity.
Qed.

Lemma head_flat_map {A B : Type} (f : A -> list B) (l : list A) (y : B) :
  head (flat_map f l) = Some y -> exists x, In x l /\ head (f x) = Some y.
Proof.
  induction l as [|x l IH]; simpl; [discriminate|].
  destruct (f x) as [|z t] eqn:E; simpl.
  - intros H. destruct (IH H) as (x' & Hin & Hx). eauto.
  - intros H. exists x. rewrite E. auto.
Qed.

Lemma head_In {A : Type} (l : list A) (x : A) : head l = Some x -> In x l.
Proof. destruct l; simpl; [discriminate|]. intros H. injection H as ->. now left. Qed.

Lemma is_dot_false c : is_dot c = false -> c = newline.
Proof.
  unfold is_dot. intros H. apply negb_false_iff, Nat.eqb_eq in H. now apply code_inj.
Qed.

Lemma window_head pat s g st :
  head (run (window_re pat) (s, g)) = Some st ->
  exists pre occ post, window_parts pat s pre occ post (fst st).
Proof.
  unfold window_re. cbn [run]. intros H.
  apply head_flat_map in H. destruct H as (st1 & H1 & H).
  apply head_flat_map in H. destruct H as (st2 & H2 & H).
  apply (run_sound (Rep (Chr is_dot) 0 (Some 40))) in H1. destruct H1 as (pre & R1 & L1).
  apply run_sound in H2. destruct H2 as (occ & R2 & L2).
  pose proof (head_In _ _ H) as H3.
  apply (run_sound (Rep (Chr is_dot) 0 (Some 40))) in H3. destruct H3 as (post & R3 & L3).
  apply lang_rep_chr in L1. apply lang_rep_chr in L3. apply lang_lit_ci in L2.
  destruct st2 as [s2 g2].
  change (head (rep (run (Chr is_dot)) 0 40 (s2, g2)) = Some st) in H.
  rewrite rep_chr_head in H.
  remember (Nat.min 40 (span is_dot s2)) as j eqn:Ej. injection H as <-.
  unfold reads in *. cbn [fst] in *.
  exists pre, occ, post. unfold window_parts. rewrite R1, R2. rewrite R3 at 1.
  repeat split; try tauto.
  destruct (Nat.min_spec 40 (span is_dot s2)) as [[_ E]|[_ E]]; rewrite E in Ej; subst j.
  - left. apply (f_equal (@length ascii)) in R3.
    rewrite length_app, length_skipn in R3. destruct L3 as (_ & _ & L3).
    assert (Hs : span is_dot s2 <= length s2).
    { clear. induction s2 as [|c s IH]; simpl; [lia|]. destruct (is_dot c); lia. }
    lia.
  - right. destruct (span_stop is_dot s2) as [E0|(c & r & E1 & Hc)]; [now left|].
    right. exists r. rewrite E1. f_equal. now apply is_dot_false.
Qed.

Lemma found_first_later r c s pos m : found_first r s (S pos) m -> found_first r (c :: s) pos m.
Proof.
  intros (k & st0 & st & Hk & Hh & Hst & ->). exists (S k), st0, st.
  cbn [skipn length]. rewrite Nat.add_succ_r. repeat split; auto. lia.
Qed.

Lemma scan_first r s : forall pos skip m, In m (scan r s pos skip) -> found_first r s pos m.
Proof.
  induction s as [|c s IH]; intros pos skip m H.
  - destruct skip; [|rewrite scan_skip in H; contradiction].
    rewrite scan_0 in H. unfold scan_tail in H.
    destruct (run r ([], None)) as [|st sts] eqn:E; [contradiction|].
    assert (Hc : consumed [] st = 0) by reflexivity. rewrite Hc in H.
    assert (G : forall st', found_first r [] pos (mk [] pos st')).
    { intros st'. exists 0, st, st'. cbn [skipn]. rewrite E, Nat.add_0_r. repeat split; auto. }
    destruct H as [<-|H]; [apply G|].
    destruct (List.filter _ sts) as [|st' l]; [contradiction|].
    destruct H as [<-|[]]. apply G.
  - assert (Ht : forall n, In m (scan_tail r (c :: s) pos n) -> found_first r (c :: s) pos m).
    { intros n Hn. apply found_first_later. exact (IH _ _ _ Hn). }
    destruct skip; [|rewrite scan_skip in H; now apply (Ht skip)].
    rewrite scan_0 in H.
    destruct (run r (c :: s, None)) as [|st sts] eqn:E; [now apply (Ht 0)|].
    assert (G : forall st', st' = st \/ consumed (c :: s) st = 0 ->
                found_first r (c :: s) pos (mk (c :: s) pos st')).
    { intros st' Hst. exists 0, st, st'. cbn [skipn]. rewrite E, Nat.add_0_r.
      repeat split; auto. lia. }
    destruct (consumed (c :: s) st) eqn:Ec.
    + destruct H as [<-|H]; [apply G; now left|].
      destruct (List.filter _ sts) as [|st' l]; [now apply (Ht 0)|].
      destruct H as [<-|H]; [apply G; now right|now apply (Ht _ H)].
    + destruct H as [<-|H]; [apply G; now left|now apply (Ht _ H)].
Qed.

(** Every window [finditer] yields is the first match at its position. *)
Lemma finditer_window_parts pat text m : pat <> [] ->
  In m (finditer (window_re pat) text) ->
  exists pre occ post,
    window_parts pat (skipn (m_start m) text) pre occ post (skipn (m_end m) text) /\
    group0 m = pre ++ occ ++ post /\
    m_end m = m_start m + length (pre ++ occ ++ post) /\
    m_end m <= length text.
Proof.
  intros Hp Hin. apply scan_first in Hin.
  destruct Hin as (k & st0 & st & Hk & Hh & Hst & ->).
  assert (Hc : 1 <= consumed (skipn k text) st0).
  { apply (window_consumes pat _ None); [exact Hp|]. now apply head_In. }
  destruct Hst as [->|Hz]; [|lia].
  destruct (window_head pat _ _ _ Hh) as (pre & occ & post & W).
  exists pre, occ, post. unfold mk. cbn [m_start m_end group0]. rewrite Nat.add_0_l.
  pose proof W as (E & _).
  assert (R : reads (skipn k text, @None (list ascii)) st0 (pre ++ occ ++ post)).
  { unfold reads. cbn [fst]. rewrite E. now rewrite <- !app_assoc. }
  rewrite (reads_firstn _ _ _ _ R), (reads_consumed _ _ _ _ R).
  assert (E2 : skipn (k + length (pre ++ occ ++ post)) text = fst st0).
  { rewrite Nat.add_comm, <- skipn_skipn, E.
    replace (pre ++ occ ++ post ++ fst st0) with ((pre ++ occ ++ post) ++ fst st0)
      by now rewrite <- !app_assoc.
    rewrite skipn_app, Nat.sub_diag, skipn_all, skipn_O. reflexivity. }
  rewrite E2. split; [exact W|]. split; [reflexivity|]. split; [reflexivity|].
  apply (f_equal (@length ascii)) in E.
  rewrite length_skipn in E. rewrite !length_app in *. lia.
Qed.

(** ** Where a window starts *)

Lemma gaps_impl (P Q : nat -> Prop) ms : forall lo,
  (forall j, lo <= j -> P j -> Q j) -> gaps P lo ms -> gaps Q lo ms.
Proof.
  induction ms as [|m ms IH]; intros lo H; cbn [gaps].
  - intros G j Hj. apply H; auto.
  - intros (Hm & G1 & G2). split; [exact Hm|]. split.
    + intros j Hj. apply H; [lia|]. now apply G1.
    + apply (IH (m_end m)); [|exact G2]. intros j Hj. apply H. lia.
Qed.

Lemma gaps_lower (P : nat -> Prop) ms lo : P lo -> gaps P (S lo) ms -> gaps P lo ms.
Proof.
  intros H0. destruct ms as [|m ms]; cbn [gaps].
  - intros G j Hj. destruct (Nat.eq_dec j lo) as [->|]; [exact H0|]. apply G. lia.
  - intros (Hm & G1 & G2). split; [lia|]. split; [|exact G2].
    intros j Hj. destruct (Nat.eq_dec j lo) as [->|]; [exact H0|]. apply G1. lia.
Qed.

Section ScanGaps.

Variable r : regex.
Hypothesis consumes : forall s st, In st (run r (s, None)) -> 1 <= consumed s st.

Lemma run_nil_empty : run r ([], None) = [].
Proof.
  destruct (run r ([], None)) as [|st l] eqn:E; [reflexivity|].
  assert (H : 1 <= consumed [] st) by (apply consumes; rewrite E; now left).
  cbn in H. lia.
Qed.

Lemma scan_gaps : forall s pos skip,
  gaps (fun j => run r (skipn (j - pos) s, None) = []) (pos + skip) (scan r s pos skip).
Proof.
  induction s as [|c s IH]; intros pos skip.
  - assert (E : scan r [] pos skip = []).
    { destruct skip; [|reflexivity]. rewrite scan_0, run_nil_empty. reflexivity. }
    rewrite E. cbn [gaps]. intros j _. rewrite skipn_nil. apply run_nil_empty.
  - assert (Shift : forall lo ms, S pos <= lo ->
              gaps (fun j => run r (skipn (j - S pos) s, None) = []) lo ms ->
              gaps (fun j => run r (skipn (j - pos) (c :: s), None) = []) lo ms).
    { intros lo ms Hlo. apply gaps_impl. intros j Hj.
      assert (Ej : j - pos = S (j - S pos)) by lia.
      rewrite Ej. cbn [skipn]. auto. }
    destruct skip as [|k].
    + rewrite scan_0. destruct (run r (c :: s, None)) as [|st sts] eqn:E.
      * unfold scan_tail. rewrite Nat.add_0_r. apply gaps_lower.
        -- rewrite Nat.sub_diag. exact E.
        -- apply Shift; [lia|]. specialize (IH (S pos) 0). now rewrite Nat.add_0_r in IH.
      * assert (Hc : 1 <= consumed (c :: s) st) by (apply consumes; rewrite E; now left).
        destruct (consumed (c :: s) st) as [|k] eqn:Ec; [lia|].
        cbn [gaps]. unfold mk. cbn [m_start m_end]. rewrite Ec.
        split; [lia|]. split; [intros j Hj; lia|].
        unfold scan_tail. apply Shift; [lia|].
        replace (pos + S k) with (S pos + k) by lia. apply IH.
    + rewrite scan_skip. unfold scan_tail. apply Shift; [lia|].
      replace (pos + S k) with (S pos + k) by lia. apply IH.
Qed.

End ScanGaps.

Lemma span_firstn p j : forall s, j <= length s ->
  Forall (fun c => p c = true) (firstn j s) -> j <= span p s.
Proof.
  induction j as [|j IH]; intros s Hl F; [lia|].
  destruct s as [|c s]; [cbn in Hl; lia|]. cbn [firstn] in F. inversion F as [|? ? Hc F']; subst.
  cbn [span]. rewrite Hc. cbn [length] in Hl. specialize (IH s ltac:(lia) F'). lia.
Qed.

Lemma firstn_span p j : forall s, j <= span p s ->
  Forall (fun c => p c = true) (firstn j s) /\ j <= length s.
Proof.
  induction j as [|j IH]; intros s H; [split; [constructor|lia]|].
  destruct s as [|c s]; [cbn in H; lia|]. cbn [span] in H.
  destruct (p c) eqn:E; [|lia]. destruct (IH s ltac:(lia)) as [F L].
  cbn [firstn length]. split; [now constructor|lia].
Qed.

(** The ways a class can be repeated, longest first. *)
Lemma rep_chr_all p n : forall s g,
  rep (run (Chr p)) 0 n (s, g) =
  map (fun j => (skipn j s, g)) (rev (seq 0 (S (Nat.min n (span p s))))).
Proof.
  induction n as [|n IH]; intros s g; [reflexivity|].
  destruct s as [|c s]; [reflexivity|].
  change (rep (run (Chr p)) 0 (S n) (c :: s, g))
    with (flat_map (rep (run (Chr p)) 0 n) (run (Chr p) (c :: s, g)) ++ [(c :: s, g)]).
  cbn [span]. destruct (p c) eqn:E.
  - rewrite (run_chr_true _ _ _ _ E). cbn [flat_map]. rewrite app_nil_r, IH.
    rewrite <- Nat.succ_min_distr.
    set (m := Nat.min n (span p s)).
    change (seq 0 (S (S m))) with (0 :: seq 1 (S m)).
    cbn [rev]. rewrite map_app. cbn [map skipn]. f_equal.
    rewrite <- seq_shift, <- map_rev, map_map. reflexivity.
  - rewrite (run_chr_false _ _ _ _ E). reflexivity.
Qed.

(** In a list tried from [M] down to 0, the first result comes from the
    largest index that gives one. *)
Lemma head_desc {A B : Type} (F : A -> list B) (f : nat -> A) : forall M y,
  head (flat_map F (map f (rev (seq 0 (S M))))) = Some y ->
  exists j0, j0 <= M /\ head (F (f j0)) = Some y /\
    forall j, j0 < j <= M -> F (f j) = [].
Proof.
  induction M as [|M IH]; intros y H.
  - cbn in H. rewrite app_nil_r in H. exists 0. repeat split; auto. intros j Hj. lia.
  - rewrite seq_S, rev_app_distr in H. cbn [rev app map flat_map Nat.add] in H.
    destruct (F (f (S M))) as [|z l] eqn:E.
    + cbn [app] in H. destruct (IH y H) as (j0 & Hj0 & Hh & Hn).
      exists j0. split; [lia|]. split; [exact Hh|].
      intros j Hj. destruct (Nat.eq_dec j (S M)) as [->|]; [exact E|]. apply Hn. lia.
    + exists (S M). split; [lia|]. rewrite E. split; [exact H|]. intros j Hj. lia.
Qed.

Lemma occurs_run pat s g : occurs_at pat s 0 ->
  run (Seq (lit_ci pat) (Rep (Chr is_dot) 0 (Some 40))) (s, g) <> [].
Proof.
  unfold occurs_at. rewrite skipn_O. intros H E.
  assert (Hin : In (skipn (length pat) s, g)
                  (run (Seq (lit_ci pat) (Rep (Chr is_dot) 0 (Some 40))) (s, g))).
  { cbn [run]. apply in_flat_map. exists (skipn (length pat) s, g). split.
    - rewrite (run_lit_ci_occ pat s g H). now left.
    - apply rep_zero_in. }
  rewrite E in Hin. contradiction.
Qed.

Lemma occurs_at_skipn pat text a j :
  occurs_at pat (skipn a text) j <-> occurs_at pat text (a + j).
Proof. unfold occurs_at. now rewrite skipn_skipn, (Nat.add_comm j a). Qed.

(** The first match of the window pattern at a position takes the last
    occurrence it can reach. *)
Lemma window_head_greedy pat s g st :
  head (run (window_re pat) (s, g)) = Some st ->
  exists pre occ post, window_parts pat s pre occ post (fst st) /\
    forall j, length pre < j <= 40 -> j <= length s ->
      Forall (fun c => is_dot c = true) (firstn j s) -> ~ occurs_at pat s j.
Proof.
  unfold window_re.
  change (run (Seq ?a ?b) ?x) with (flat_map (run b) (run a x)) at 1.
  change (run (Rep (Chr is_dot) 0 (Some 40)) (s, g)) with (rep (run (Chr is_dot)) 0 40 (s, g)).
  rewrite rep_chr_all. intros H.
  apply (head_desc (run (Seq (lit_ci pat) (Rep (Chr is_dot) 0 (Some 40))))
                   (fun j => (skipn j s, g))) in H.
  destruct H as (j0 & Hj0 & Hh & Hn).
  destruct (firstn_span is_dot j0 s ltac:(lia)) as [Fpre Lpre].
  assert (Epre : length (firstn j0 s) = j0) by (rewrite length_firstn; lia).
  change (run (Seq ?a ?b) ?x) with (flat_map (run b) (run a x)) in Hh.
  apply head_flat_map in Hh. destruct Hh as (st2 & H2 & H).
  apply run_sound in H2. destruct H2 as (occ & R2 & L2).
  pose proof (head_In _ _ H) as H3.
  apply (run_sound (Rep (Chr is_dot) 0 (Some 40))) in H3. destruct H3 as (post & R3 & L3).
  apply lang_rep_chr in L3. apply lang_lit_ci in L2.
  destruct st2 as [s2 g2].
  change (head (rep (run (Chr is_dot)) 0 40 (s2, g2)) = Some st) in H.
  rewrite rep_chr_head in H.
  remember (Nat.min 40 (span is_dot s2)) as k eqn:Ek. injection H as <-.
  unfold reads in *. cbn [fst] in *.
  exists (firstn j0 s), occ, post. split.
  - unfold window_parts.
    split; [rewrite <- (firstn_skipn j0 s) at 1; rewrite R2; rewrite R3 at 1;
            reflexivity|].
    split; [lia|]. split; [tauto|]. split; [exact L2|].
    split; [exact Fpre|]. split; [tauto|].
    destruct (Nat.min_spec 40 (span is_dot s2)) as [[_ E]|[_ E]]; rewrite E in Ek; subst k.
    + left. apply (f_equal (@length ascii)) in R3.
      rewrite length_app, length_skipn in R3. destruct L3 as (_ & _ & L3).
      assert (Hs : span is_dot s2 <= length s2).
      { clear. induction s2 as [|c s IH]; simpl; [lia|]. destruct (is_dot c); lia. }
      lia.
    + right. destruct (span_stop is_dot s2) as [E0|(c & r & E1 & Hc)]; [now left|].
      right. exists r. rewrite E1. f_equal. now apply is_dot_false.
  - rewrite Epre. intros j Hj Hl Fj Ho.
    assert (Hsp : j <= span is_dot s) by now apply span_firstn.
    apply (occurs_run pat (skipn j s) g).
    + apply occurs_at_skipn. now rewrite Nat.add_0_r.
    + apply Hn. lia.
Qed.

Lemma occurs_at_bound pat text p : pat <> [] -> occurs_at pat text p -> p < length text.
Proof.
  unfold occurs_at. intros Hp H. destruct (Nat.lt_ge_cases p (length text)) as [|Hge]; [assumption|].
  rewrite skipn_all2, firstn_nil in H by exact Hge.
  destruct pat; [congruence|discriminate].
Qed.

(** Where an occurrence can be reached from, the window pattern matches. *)
Lemma reaches_run pat text a p : pat <> [] -> reaches pat text a p ->
  run (window_re pat) (skipn a text, None) <> [].
Proof.
  intros Hp ((Hap & Hp40) & Ho & Fd) E.
  pose proof (occurs_at_bound pat text p Hp Ho) as Hlt.
  set (s := skipn a text) in *. set (k := p - a).
  assert (Hk : k <= length s) by (subst s k; rewrite length_skipn; lia).
  assert (Hsp : k <= span is_dot s) by (apply span_firstn; [exact Hk|exact Fd]).
  assert (Hocc : occurs_at pat (skipn k s) 0).
  { apply occurs_at_skipn. rewrite Nat.add_0_r. subst s. apply occurs_at_skipn.
    now replace (a + k) with p by (subst k; lia). }
  destruct (run (Seq (lit_ci pat) (Rep (Chr is_dot) 0 (Some 40))) (skipn k s, None))
    as [|y l] eqn:Ey; [now apply occurs_run in Ey|].
  assert (Hin : In y (run (window_re pat) (s, None))).
  { unfold window_re.
    change (run (Seq ?x ?z) ?w) with (flat_map (run z) (run x w)) at 1.
    apply in_flat_map. exists (skipn k s, None). split; [|rewrite Ey; now left].
    change (run (Rep (Chr is_dot) 0 (Some 40)) (s, None))
      with (rep (run (Chr is_dot)) 0 40 (s, None)).
    rewrite rep_chr_all. apply in_map_iff. exists k. split; [reflexivity|].
    apply in_rev. rewrite rev_involutive. apply in_seq. subst k. lia. }
  rewrite E in Hin. contradiction.
Qed.

(** Every window [finditer] yields is the first match at its position,
    and holds the last occurrence that can be reached from there. *)
Lemma finditer_window_greedy pat text m : pat <> [] ->
  In m (finditer (window_re pat) text) ->
  exists pre occ post,
    window_parts pat (skipn (m_start m) text) pre occ post (skipn (m_end m) text) /\
    group0 m = pre ++ occ ++ post /\
    m_end m <= length text /\
    forall p, reaches pat text (m_start m) p -> p <= m_start m + length pre.
Proof.
  intros Hp Hin. apply scan_first in Hin.
  destruct Hin as (k & st0 & st & Hk & Hh & Hst & ->).
  assert (Hc : 1 <= consumed (skipn k text) st0).
  { apply (window_consumes pat _ None); [exact Hp|]. now apply head_In. }
  destruct Hst as [->|Hz]; [|lia].
  destruct (window_head_greedy pat _ _ _ Hh) as (pre & occ & post & W & G).
  exists pre, occ, post. unfold mk. cbn [m_start m_end group0]. rewrite Nat.add_0_l.
  pose proof W as (E & _).
  assert (R : reads (skipn k text, @None (list ascii)) st0 (pre ++ occ ++ post)).
  { unfold reads. cbn [fst]. rewrite E. now rewrite <- !app_assoc. }
  rewrite (reads_firstn _ _ _ _ R), (reads_consumed _ _ _ _ R).
  assert (E2 : skipn (k + length (pre ++ occ ++ post)) text = fst st0).
  { rewrite Nat.add_comm, <- skipn_skipn, E.
    replace (pre ++ occ ++ post ++ fst st0) with ((pre ++ occ ++ post) ++ fst st0)
      by now rewrite <- !app_assoc.
    rewrite skipn_app, Nat.sub_diag, skipn_all, skipn_O. reflexivity. }
  rewrite E2. split; [exact W|]. split; [reflexivity|]. split.
  - apply (f_equal (@length ascii)) in E.
    rewrite length_skipn in E. rewrite !length_app in *. lia.
  - intros p ((Hkp & Hp40) & Ho & Fd).
    destruct (Nat.le_gt_cases p (k + length pre)) as [|Hgt]; [assumption|]. exfalso.
    pose proof (occurs_at_bound pat text p Hp Ho) as Hlt.
    apply (G (p - k)).
    + lia.
    + rewrite length_skipn. lia.
    + exact Fd.
    + apply occurs_at_skipn. now replace (k + (p - k)) with p by lia.
Qed.

Lemma finditer_gaps pat text : pat <> [] ->
  gaps (fun s => forall p, ~ reaches pat text s p) 0 (finditer (window_re pat) text).
Proof.
  intros Hp. unfold finditer.
  pose proof (scan_gaps (window_re pat)
                (fun s st => window_consumes pat s None st Hp) text 0 0) as G.
  cbn [Nat.add] in G. revert G. apply gaps_impl.
  intros j _ E p Hr. rewrite Nat.sub_0_r in E. exact (reaches_run pat text j p Hp Hr E).
Qed.

Lemma last_default {A : Type} (l : list A) : forall b d d',
  last (b :: l) d = last (b :: l) d'.
Proof.
  induction l as [|c l IH]; intros b d d'; [reflexivity|].
  change (last (c :: l) d = last (c :: l) d'). apply IH.
Qed.

Lemma last_cons {A : Type} (a : A) l d : last (a :: l) d = last l a.
Proof. destruct l as [|b l]; [reflexivity|]. apply (last_default l b d a). Qed.

Lemma gaps_at (P : nat -> Prop) ms1 m ms2 : forall lo,
  gaps P lo (ms1 ++ m :: ms2) ->
  last (map m_end ms1) lo <= m_start m /\
  forall j, last (map m_end ms1) lo <= j < m_start m -> P j.
Proof.
  induction ms1 as [|x ms1 IH]; intros lo; cbn [app gaps map].
  - intros (Hm & G & _). cbn [last]. split; [lia|exact G].
  - intros (_ & _ & G). rewrite last_cons. now apply IH.
Qed.

Lemma window_left_reach pat text ms1 m ms2 : pat <> [] ->
  finditer (window_re pat) text = ms1 ++ m :: ms2 ->
  m_start m = last (map m_end ms1) 0 \/
  (exists before, firstn (m_start m) text = before ++ [newline]) \/
  (forall p, reaches pat text (m_start m) p -> p = m_start m + 40).
Proof.
  intros Hp E. pose proof (finditer_gaps pat text Hp) as G. rewrite E in G.
  apply gaps_at in G. destruct G as [Hlo G].
  assert (Hin : In m (finditer (window_re pat) text)) by (rewrite E; apply in_elt).
  destruct (finditer_match _ _ _ Hin) as (w & _ & _ & Ew & _ & Hend).
  destruct (Nat.eq_dec (m_start m) (last (map m_end ms1) 0)) as [|Hne]; [now left|right].
  destruct (m_start m) as [|s'] eqn:Es; [lia|].
  assert (Hs' : s' < length text) by lia.
  destruct (skipn s' text) as [|c rest] eqn:Ec.
  { apply (f_equal (@length ascii)) in Ec. rewrite length_skipn in Ec. cbn in Ec. lia. }
  assert (Er : skipn (S s') text = rest).
  { replace (S s') with (1 + s') by lia. rewrite <- skipn_skipn, Ec. reflexivity. }
  destruct (is_dot c) eqn:Hd.
  - right. intros p ((H1 & H2) & Ho & Fd).
    destruct (Nat.eq_dec p (S s' + 40)) as [|Hp40]; [assumption|]. exfalso.
    apply (G s' ltac:(lia) p). split; [lia|]. split; [exact Ho|].
    unfold slice in *. rewrite Ec. replace (p - s') with (S (p - S s')) by lia.
    cbn [firstn]. constructor; [exact Hd|]. now rewrite <- Er.
  - left. exists (firstn s' text). apply is_dot_false in Hd. subst c.
    rewrite <- (firstn_skipn s' text) at 1.
    rewrite firstn_app, firstn_firstn, Nat.min_r by lia.
    rewrite length_firstn, Nat.min_l by lia.
    replace (S s' - s') with 1 by lia. now rewrite Ec.
Qed.

(** ** The extraction loop *)

Section LoopFacts.

Variable partial_ratio : str -> str -> Q.
Variable text : str.

Lemma extract_loop_total all : forall items (ex0 : gmap string value),
  incl items all ->
  (forall key v, ex0 !! key = Some v -> stored_ok text all key v) ->
  exists ex, extract_loop partial_ratio text items ex0 = Ok ex /\
             forall key v, ex !! key = Some v -> stored_ok text all key v.
Proof.
  induction items as [|[key pats] items IH]; intros ex0 Hincl H0; cbn [extract_loop].
  - exists ex0. auto.
  - assert (Hin : In (key, pats) all) by (apply Hincl; now left).
    assert (Hincl' : incl items all) by (intros x Hx; apply Hincl; now right).
    unfold extract_field.
    destruct (find_best_value partial_ratio text pats)
      as [E|(pat & m & w & Hpat & Hm & Ht & E & L)]; rewrite E.
    + cbn [b_value init_best truthy bind]. now apply IH.
    + destruct (normalize_token w L) as (f & Hf).
      destruct w as [|c w]; [now apply money_token_nonempty in L|].
      cbn [truthy]. unfold default. cbn [from_option id]. rewrite Hf. cbn [bind].
      apply IH; [exact Hincl'|].
      intros k v Hk. destruct (decide (key = k)) as [->|Hne].
      * rewrite lookup_insert_eq in Hk. injection Hk as <-. split; [eauto|].
        exists pats, pat, m, (c :: w). auto.
      * rewrite lookup_insert_ne in Hk by exact Hne. now apply H0.
Qed.

End LoopFacts.

(** ** Text acquisition *)

Section AcquisitionFacts.

Variables bytes page image : Type.
Variable pdf_open : bytes -> outcome (list page).
Variable page_extract_text : page -> outcome (option str).
Variable convert_from_bytes : bytes -> outcome (list image).
Variable image_to_string : image -> outcome str.

Lemma read_pages_ok pages : Forall (page_ok page_extract_text) pages -> forall text,
  read_pages page_extract_text pages text =
  (text ++ concat (map (page_part page_extract_text) pages), None).
Proof.
  induction 1 as [|p pages (t & Hp) _ IH]; intros text; cbn [read_pages map concat].
  - now rewrite app_nil_r.
  - unfold page_part at 1. rewrite Hp. destruct t as [[|c s]|]; cbn [truthy default].
    + rewrite IH. reflexivity.
    + rewrite IH, <- app_assoc. reflexivity.
    + rewrite IH. reflexivity.
Qed.

Lemma read_pages_raise before p e after : Forall (page_ok page_extract_text) before ->
  page_extract_text p = Raise e -> forall text,
  read_pages page_extract_text (before ++ p :: after) text =
  (text ++ concat (map (page_part page_extract_text) before), Some e).
Proof.
  induction 1 as [|q before (t & Hq) _ IH]; intros Hp text; cbn [app read_pages map concat].
  - now rewrite Hp, app_nil_r.
  - unfold page_part at 1. rewrite Hq. destruct t as [[|c s]|]; cbn [truthy default].
    + now rewrite IH.
    + now rewrite IH, <- app_assoc.
    + now rewrite IH.
Qed.

(** All pages return, or there is a first one that fails. *)
Lemma pages_ok_or_failure pages :
  Forall (page_ok page_extract_text) pages \/
  exists e, first_failure page_extract_text pages e.
Proof.
  induction pages as [|p pages IH]; [left; constructor|].
  destruct (page_extract_text p) as [t|e] eqn:E.
  - destruct IH as [F|(e & b & x & a & -> & Fb & Hx)].
    + left. constructor; [now exists t|exact F].
    + right. exists e, (p :: b), x, a. split; [reflexivity|]. split; [|exact Hx].
      constructor; [now exists t|exact Fb].
  - right. exists e, [], p, pages. split; [reflexivity|]. split; [constructor|exact E].
Qed.

Lemma handle_events text e : ~ In CallConvert (fst (handle text e)).
Proof.
  unfold handle. destruct (is_exception e); cbn [fst]; [|intros []].
  intros [H|[]]. discriminate.
Qed.

Lemma primary_events pdf_bytes :
  ~ In CallConvert (fst (primary pdf_open page_extract_text pdf_bytes)).
Proof.
  unfold primary. destruct (pdf_open pdf_bytes) as [pages|e]; [|apply handle_events].
  destruct (read_pages page_extract_text pages []) as [t [e|]]; [apply handle_events|].
  cbn [fst]. intros [].
Qed.

(** What the primary path ends with: a text, or an exception it lets
    through. *)
Lemma primary_cases pdf_bytes :
  (exists ev text, primary pdf_open page_extract_text pdf_bytes = (ev, Ok text)) \/
  (exists e, escapes pdf_open page_extract_text pdf_bytes e /\
     primary pdf_open page_extract_text pdf_bytes = ([], Raise e)).
Proof.
  unfold primary, escapes, handle. destruct (pdf_open pdf_bytes) as [pages|e] eqn:Eo.
  - destruct (pages_ok_or_failure pages) as [F|(e & FF)].
    + rewrite (read_pages_ok pages F). left. eauto.
    + pose proof FF as (b & x & a & -> & Fb & Hx).
      rewrite (read_pages_raise b x e a Fb Hx).
      destruct (is_exception e) eqn:Ee; [left; eauto|].
      right. exists e. split; [|reflexivity]. split; [exact Ee|]. right. eauto.
  - destruct (is_exception e) eqn:Ee; [left; eauto|].
    right. exists e. split; [|reflexivity]. split; [exact Ee|]. now left.
Qed.

Lemma first_failure_unique {A B : Type} (f : A -> outcome B) l e e' :
  first_failure f l e -> first_failure f l e' -> e = e'.
Proof.
  intros (b & x & a & -> & Fb & Hx). revert Fb.
  induction b as [|y b IH]; intros Fb (b' & x' & a' & E & Fb' & Hx').
  - destruct b' as [|y' b']; cbn [app] in E; injection E as <- E.
    + congruence.
    + inversion Fb' as [|? ? (t & Ht) _]. congruence.
  - destruct b' as [|y' b']; cbn [app] in E; injection E as <- E.
    + inversion Fb as [|? ? (t & Ht) _]. congruence.
    + inversion Fb; inversion Fb'; subst. apply IH; [assumption|].
      exists b', x', a'. auto.
Qed.

(** An exception gets through only in the way [escapes] says. *)
Lemma primary_raise_iff pdf_bytes e :
  snd (primary pdf_open page_extract_text pdf_bytes) = Raise e <->
  escapes pdf_open page_extract_text pdf_bytes e.
Proof.
  split.
  - intros H. destruct (primary_cases pdf_bytes) as [(ev & t & E)|(e' & Hesc & E)];
      rewrite E in H; cbn [snd] in H; [discriminate|]. now injection H as <-.
  - intros (Hne & Hc). unfold primary, handle.
    destruct Hc as [->|(pages & -> & (b & x & a & -> & Fb & Hx))].
    + now rewrite Hne.
    + rewrite (read_pages_raise b x e a Fb Hx). now rewrite Hne.
Qed.

End AcquisitionFacts.

(** * The claims *)

(** ** The running best *)

(** C1: during the scan of a field one candidate is kept, the running
    best; a later candidate takes its place only when its score is
    strictly greater; so the first candidate of highest score is the one
    returned, and a later candidate with an equal score does not
    displace it. With the similarity score of the spec all candidates
    of non-empty phrases tie at 100, and the first one met is returned. *)
Theorem running_best_first_seen_wins
    (partial_ratio : list ascii -> list ascii -> Q) (text : list ascii)
    (pats : list (list ascii)) :
  (forall pat best m,
     consider partial_ratio text pat best m = best \/
     (candidate partial_ratio text pat m = Some (consider partial_ratio text pat best m) /\
      (b_score best < b_score (consider partial_ratio text pat best m))%Q)) /\
  (forall l1 c l2,
     candidates partial_ratio text pats = l1 ++ c :: l2 ->
     (forall x, In x l1 -> (b_score x < b_score c)%Q) ->
     (0 < b_score c)%Q ->
     (forall x, In x l2 -> (b_score x <= b_score c)%Q) ->
     find_best_pattern partial_ratio text pats = c) /\
  (Forall (fun p => p <> []) pats ->
   forall c l, candidates Fuzz.partial_ratio text pats = c :: l ->
     find_best_pattern Fuzz.partial_ratio text pats = c).
Proof.
  split; [|split].
  - intros pat best m. rewrite consider_candidate.
    destruct (candidate partial_ratio text pat m) as [c|]; [|now left].
    destruct (challenge_cases best c) as [[E _]|[E Hlt]]; rewrite E; auto.
  - intros l1 c l2 E H1 Hc H2. rewrite find_best_pattern_fold, E.
    now apply fold_challenge_first.
  - intros Hp c l E. rewrite (first_candidate_wins pats text Hp), E. reflexivity.
Qed.

Lemma running_best_first_seen_wins_witness :
  let text := chars "Gross Pay 100" ++ newline :: chars "Gross Pay 200" in
  let c1 := {| b_match := Some (chars "Gross Pay 100"); b_score := 100;
               b_value := Some (chars "100") |} in
  let c2 := {| b_match := Some (chars "Gross Pay 200"); b_score := 100;
               b_value := Some (chars "200") |} in
  candidates Fuzz.partial_ratio text [chars "Gross Pay"] = [c1; c2] /\
  find_best_pattern Fuzz.partial_ratio text [chars "Gross Pay"] = c1.
Proof.
  intros text c1 c2.
  assert (E : candidates Fuzz.partial_ratio text [chars "Gross Pay"] = [] ++ c1 :: [c2])
    by (vm_compute; reflexivity).
  split; [exact E|].
  apply (proj1 (proj2 (running_best_first_seen_wins Fuzz.partial_ratio text
                         [chars "Gross Pay"])) [] c1 [c2] E).
  - intros x [].
  - reflexivity.
  - intros x [<-|[]]. simpl. apply Qle_refl.
Defined.

(** ** The secondary window *)

(** C2, as the spec states it, fails: the 80 characters searched start
    where the context window ends, not where the phrase ends. Here the
    phrase ends at 9 and its window at 13; the 40 characters after the
    phrase hold no token, the 80 characters searched are not the 80
    characters after the phrase, those hold the token ["12"], and the
    value returned is ["125"]. *)
Lemma secondary_window_starts_after_context :
  let pat := chars "Gross Pay" in
  let text := chars "Gross Pay abc" ++ newline :: repeat "x"%char 73 ++ chars "125" in
  windows_code pat text = [(0, 13)] /\
  occurs_at pat text 0 /\
  search money_re (slice text 0 49) = None /\
  firstn 80 (skipn 13 text) <> slice text 9 89 /\
  option_map group1 (search money_re (slice text 9 89)) = Some (Some (chars "12")) /\
  b_value (find_best_pattern Fuzz.partial_ratio text [pat]) = Some (chars "125").
Proof.
  repeat split; try (vm_compute; reflexivity).
  intros H. vm_compute in H. discriminate.
Qed.

(** C2, amended: when the context window of an occurrence holds no
    token, the secondary window is exactly the 80 characters that follow
    the end of the context window (the phrase and the up to 40
    characters of its line after it). When a token stands there, the
    first one is the value the occurrence puts forward, and it is
    returned as the raw value of the field when no occurrence met
    earlier in the scan yields a token. *)
Theorem secondary_window_after_context (pat text : list ascii) (m m2 : Match) :
  pat <> [] ->
  In m (finditer (window_re pat) text) ->
  search money_re (group0 m) = None ->
  search money_re (firstn 80 (skipn (m_end m) text)) = Some m2 ->
  (exists pre occ post rest,
     window_parts pat (skipn (m_start m) text) pre occ post rest /\
     group0 m = pre ++ occ ++ post /\
     firstn 80 (skipn (m_end m) text) = firstn 80 rest) /\
  (forall partial_ratio best,
     consider partial_ratio text pat best m =
     challenge best {| b_match := Some (group0 m);
                       b_score := partial_ratio (lower pat) (lower (group0 m));
                       b_value := group1 m2 |}) /\
  (forall before after ms1 ms2,
     Forall (fun p => p <> []) (before ++ pat :: after) ->
     candidates Fuzz.partial_ratio text before = [] ->
     finditer (window_re pat) text = ms1 ++ m :: ms2 ->
     Forall (fun m' => token_near text m' = None) ms1 ->
     b_value (find_best_pattern Fuzz.partial_ratio text (before ++ pat :: after)) =
     group1 m2).
Proof.
  intros Hp Hm H1 H2. split; [|split].
  - destruct (finditer_window_parts pat text m Hp Hm) as (pre & occ & post & W & G & _).
    exists pre, occ, post, (skipn (m_end m) text). auto.
  - intros partial_ratio best. rewrite consider_candidate. unfold candidate, token_near.
    now rewrite H1, H2.
  - intros before after ms1 ms2 Hne Hb E Hms. rewrite (first_candidate_wins _ _ Hne).
    unfold candidates in *. rewrite flat_map_app, Hb. cbn [app flat_map].
    unfold candidates_of at 1. rewrite E, flat_map_app.
    assert (Z : flat_map (fun m0 => match candidate Fuzz.partial_ratio text pat m0 with
                                    | Some c => [c]
                                    | None => []
                                    end) ms1 = []).
    { clear E. induction Hms as [|m' ms1 Hm' _ IH]; [reflexivity|].
      cbn [flat_map]. unfold candidate at 1. rewrite Hm'. exact IH. }
    rewrite Z. cbn [app flat_map]. unfold candidate at 1, token_near. rewrite H1, H2.
    reflexivity.
Qed.

Lemma secondary_window_after_context_witness :
  let pat := chars "Gross Pay" in
  let after := [chars "Gross Earnings"; chars "Total Gross"; chars "Gross"] in
  let text := chars "Gross Pay" ++ newline :: chars "   500" in
  let m := mkMatch 0 9 (chars "Gross Pay") None in
  finditer (window_re pat) text = [m] /\
  search money_re (group0 m) = None /\
  search money_re (firstn 80 (skipn (m_end m) text)) =
    Some (mkMatch 3 7 (chars " 500") (Some (chars "500"))) /\
  b_value (find_best_pattern Fuzz.partial_ratio text (pat :: after)) = Some (chars "500").
Proof.
  intros pat after text m.
  assert (E : finditer (window_re pat) text = [] ++ m :: []) by (vm_compute; reflexivity).
  assert (H1 : search money_re (group0 m) = None) by (vm_compute; reflexivity).
  assert (H2 : search money_re (firstn 80 (skipn (m_end m) text)) =
               Some (mkMatch 3 7 (chars " 500") (Some (chars "500"))))
    by (vm_compute; reflexivity).
  assert (Hp : pat <> []) by discriminate.
  assert (Hm : In m (finditer (window_re pat) text)) by (rewrite E; now left).
  split; [exact E|]. split; [exact H1|]. split; [exact H2|].
  apply (proj2 (proj2 (secondary_window_after_context pat text m _ Hp Hm H1 H2))
           [] after [] [] ltac:(repeat constructor; discriminate) eq_refl E).
  constructor.
Defined.

(** ** The windows of a phrase *)

(** C3, as the spec states it, fails: a line break cuts a window, and
    two occurrences on one line fall into one window, so the first of
    them gets no window of its own. *)
Lemma windows_cut_by_lines_and_merged :
  let pat := chars "Gross Pay" in
  let text1 := chars "ab" ++ newline :: chars "Gross Pay 5" in
  let text2 := chars "Gross Pay 1 Gross Pay 2" in
  windows_code pat text1 = [(3, 14)] /\ windows_spec pat text1 = [(0, 14)] /\
  windows_code pat text2 = [(0, 23)] /\ windows_spec pat text2 = [(0, 23); (0, 23)].
Proof. repeat split; vm_compute; reflexivity. Qed.

(** C3, amended: for every label phrase the text is scanned from left
    to right for windows that do not overlap. A window starts at the
    first position, from the end of the window before it on, from which
    an occurrence can be reached: one that has the phrase, in any case,
    at most 40 characters ahead with no line break in between. So a
    window reaches back 40 characters before the phrase, unless the
    start of the line or the end of the window before it comes first.
    The window holds what stands before the last occurrence that can be
    reached from its start, that occurrence, and the context after it,
    which runs on for 40 characters unless the line or the text ends
    first. Every occurrence of the phrase begins inside some window,
    but an occurrence that lies in the context of another one has no
    window of its own. *)
Theorem windows_of_occurrences (pat text : list ascii) :
  pat <> [] ->
  (forall m, In m (finditer (window_re pat) text) ->
     exists pre occ post,
       window_parts pat (skipn (m_start m) text) pre occ post (skipn (m_end m) text) /\
       group0 m = pre ++ occ ++ post /\
       group0 m = slice text (m_start m) (m_end m) /\
       m_end m <= length text /\
       (forall p, reaches pat text (m_start m) p -> p <= m_start m + length pre)) /\
  ordered_from 0 (finditer (window_re pat) text) /\
  (forall p, occurs_at pat text p ->
     exists m, In m (finditer (window_re pat) text) /\ m_start m <= p < m_end m) /\
  gaps (fun s => forall p, ~ reaches pat text s p) 0 (finditer (window_re pat) text) /\
  (forall ms1 m ms2, finditer (window_re pat) text = ms1 ++ m :: ms2 ->
     m_start m = last (map m_end ms1) 0 \/
     (exists before, firstn (m_start m) text = before ++ [newline]) \/
     (forall p, reaches pat text (m_start m) p -> p = m_start m + 40)).
Proof.
  intros Hp. split; [|split; [|split; [|split]]].
  - intros m Hm.
    destruct (finditer_window_greedy pat text m Hp Hm) as (pre & occ & post & W & G & B & R).
    exists pre, occ, post. split; [exact W|]. split; [exact G|].
    split; [exact (finditer_slice _ _ _ Hm)|]. split; [exact B|exact R].
  - apply finditer_ordered.
  - intros p Ho. now apply finditer_covers.
  - now apply finditer_gaps.
  - intros ms1 m ms2. now apply window_left_reach.
Qed.

Lemma windows_of_occurrences_witness :
  let pat := chars "Gross Pay" in
  let text := repeat "x"%char 50 ++ chars "Gross Pay 1 Gross Pay 2" in
  let m := mkMatch 10 73 (skipn 10 text) None in
  pat <> [] /\ occurs_at pat text 62 /\
  finditer (window_re pat) text = [m] /\
  (exists m', In m' (finditer (window_re pat) text) /\ m_start m' <= 62 < m_end m') /\
  (forall p, reaches pat text 10 p -> p = 50).
Proof.
  intros pat text m.
  assert (Hp : pat <> []) by discriminate.
  assert (Ho : occurs_at pat text 62) by reflexivity.
  assert (E : finditer (window_re pat) text = [] ++ m :: []) by (vm_compute; reflexivity).
  destruct (windows_of_occurrences pat text Hp) as (_ & _ & Hc & _ & Hl).
  split; [exact Hp|]. split; [exact Ho|]. split; [exact E|]. split; [exact (Hc 62 Ho)|].
  destruct (Hl [] m [] E) as [H|[(before & H)|H]].
  - discriminate H.
  - exfalso. apply (f_equal (@rev ascii)) in H. rewrite rev_app_distr in H.
    vm_compute in H. discriminate H.
  - exact H.
Defined.

(** ** The value normalizer *)

(** C4, as the spec states it, fails on a token with a currency symbol:
    ["$250"] does not parse, so it is kept as a string, not turned into
    250.0; and what is kept after a failure is the cleaned string, not
    the raw one. *)
Lemma normalize_keeps_currency_symbol :
  normalize (chars "$250") = Ok (VStr (chars "$250")) /\
  normalize (chars "$250") <> Ok (VFloat 250) /\
  normalize (chars " 1,2x ") = Ok (VStr (chars "12x")).
Proof.
  split; [vm_compute; reflexivity|]. split; [vm_compute; discriminate|].
  vm_compute; reflexivity.
Qed.

(** C4, amended: the normalizer removes every comma, strips leading and
    trailing whitespace and parses the result as a decimal number; when
    that fails, the cleaned string is kept as the value. A currency
    symbol is not removed: ["1,234.56"], ["1234.5"] and ["250"] become
    1234.56, 1234.5 and 250.0, while ["$250"] and ["N/A"] fail to parse
    and are kept as strings. The token pattern leaves the symbol out of
    what it captures: from ["$250"] it captures ["250"]. *)
#[warnings="-inexact-float"] Theorem normalize_spec :
  (forall raw,
     normalize raw =
     match PyFloat.float (strip (remove_commas raw)) with
     | Ok f => Ok (VFloat f)
     | Raise _ => Ok (VStr (strip (remove_commas raw)))
     end) /\
  normalize (chars "1,234.56") = Ok (VFloat 1234.56) /\
  normalize (chars "1234.5") = Ok (VFloat 1234.5) /\
  normalize (chars "250") = Ok (VFloat 250) /\
  normalize (chars "$250") = Ok (VStr (chars "$250")) /\
  normalize (chars "N/A") = Ok (VStr (chars "N/A")) /\
  option_map group1 (search money_re (chars "$250")) = Some (Some (chars "250")).
Proof.
  split.
  { intros raw. unfold normalize. destruct (PyFloat.float _); reflexivity. }
  repeat split; vm_compute; reflexivity.
Qed.

(** ** The order of the label phrases *)

(** C5, as the spec states it, fails: two phrases whose candidates tie
    for the highest score give different values in different orders,
    because the first candidate met is kept. Here the list is the one
    of the field [gross], with [Total Gross] moved to the front. *)
Lemma phrase_order_changes_value :
  let text := chars "Gross Pay 100" ++ newline :: chars "Total Gross 200" in
  let pats := [chars "Gross Pay"; chars "Gross Earnings"; chars "Total Gross"; chars "Gross"] in
  let pats' := [chars "Total Gross"; chars "Gross Pay"; chars "Gross Earnings"; chars "Gross"] in
  Permutation pats pats' /\
  b_value (find_best_pattern Fuzz.partial_ratio text pats) = Some (chars "100") /\
  b_value (find_best_pattern Fuzz.partial_ratio text pats') = Some (chars "200").
Proof.
  intros text pats pats'. split.
  - apply Permutation_sym.
    apply (Permutation_middle [chars "Gross Pay"; chars "Gross Earnings"] [chars "Gross"]).
  - split; vm_compute; reflexivity.
Qed.

(** C5, amended: for every permutation of the phrase list the best
    record has the same score, the highest among all candidates; it has
    the same value whenever the candidates of highest score all carry
    the same token. When they do not, the first one met in the order of
    the list is kept. *)
Theorem phrase_order_up_to_ties
    (partial_ratio : list ascii -> list ascii -> Q) (text : list ascii)
    (pats pats' : list (list ascii)) :
  Permutation pats pats' ->
  (b_score (find_best_pattern partial_ratio text pats) ==
   b_score (find_best_pattern partial_ratio text pats'))%Q /\
  ((forall c c',
      In c (candidates partial_ratio text pats) ->
      In c' (candidates partial_ratio text pats) ->
      (forall x, In x (candidates partial_ratio text pats) -> (b_score x <= b_score c)%Q) ->
      (forall x, In x (candidates partial_ratio text pats) -> (b_score x <= b_score c')%Q) ->
      b_value c = b_value c') ->
   b_value (find_best_pattern partial_ratio text pats) =
   b_value (find_best_pattern partial_ratio text pats')).
Proof.
  intros P. rewrite !find_best_pattern_fold. apply fold_challenge_perm.
  unfold candidates. now apply Permutation_flat_map.
Qed.

Lemma phrase_order_up_to_ties_witness :
  let text := chars "Gross Pay 100" in
  let pats := [chars "Gross Pay"; chars "Gross"] in
  let pats' := [chars "Gross"; chars "Gross Pay"] in
  Permutation pats pats' /\
  (b_score (find_best_pattern Fuzz.partial_ratio text pats) ==
   b_score (find_best_pattern Fuzz.partial_ratio text pats'))%Q /\
  b_value (find_best_pattern Fuzz.partial_ratio text pats) =
  b_value (find_best_pattern Fuzz.partial_ratio text pats').
Proof.
  intros text pats pats'.
  assert (P : Permutation pats pats') by apply perm_swap.
  destruct (phrase_order_up_to_ties Fuzz.partial_ratio text pats pats' P) as [Hs Hv].
  split; [exact P|]. split; [exact Hs|]. apply Hv.
  intros c c' Hc Hc' _ _. vm_compute in Hc, Hc'.
  destruct Hc as [<-|[<-|[]]], Hc' as [<-|[<-|[]]]; reflexivity.
Defined.

(** ** The extractor and the editable fields *)

(** C6, as the spec states it, fails in one direction: a number input
    can start from 0.0 although its field is in the mapping. From the
    text ["Gross Pay 0"] the field [gross] is stored with the value 0.0,
    and its number input starts from 0.0. *)
Lemma stored_zero_defaults_to_zero :
  exists ex, extract Fuzz.partial_ratio (chars "Gross Pay 0") = Ok ex /\
    ex !! "gross"%string = Some (VFloat 0) /\
    number_input_default ex "gross" = Ok 0%float.
Proof.
  exists (<["gross"%string := VFloat 0]> ∅).
  split; [vm_compute; reflexivity|]. split; reflexivity.
Qed.

(** C6, amended: the extractor never raises; a field is in the mapping
    only if some occurrence of one of its label phrases yields a numeric
    token; a number input starts from 0.0 when its field is absent from
    the mapping, and from the stored float otherwise. So it starts from
    0.0 exactly when its field is absent or is stored with the value
    0.0. *)
Theorem extractor_never_raises
    (partial_ratio : list ascii -> list ascii -> Q) (text : list ascii) :
  exists ex, extract partial_ratio text = Ok ex /\
    (forall key v, ex !! key = Some v ->
       exists pats pat m w, In (key, pats) patterns /\ In pat pats /\
         In m (finditer (window_re pat) text) /\ token_near text m = Some (Some w)) /\
    (forall key, ex !! key = None -> number_input_default ex key = Ok 0%float) /\
    (forall key v, ex !! key = Some v ->
       exists f, v = VFloat f /\ number_input_default ex key = Ok f) /\
    (forall key, number_input_default ex key = Ok 0%float <->
       ex !! key = None \/ ex !! key = Some (VFloat 0)).
Proof.
  destruct (extract_loop_total partial_ratio text patterns patterns ∅ (incl_refl _))
    as (ex & Hex & Hok).
  { intros key v Hk. rewrite lookup_empty in Hk. discriminate. }
  assert (Hnone : forall key, ex !! key = None -> number_input_default ex key = Ok 0%float).
  { intros key Hk. unfold number_input_default. now rewrite Hk. }
  assert (Hsome : forall key v, ex !! key = Some v ->
            exists f, v = VFloat f /\ number_input_default ex key = Ok f).
  { intros key v Hk. destruct (proj1 (Hok key v Hk)) as (f & ->). exists f.
    split; [reflexivity|]. unfold number_input_default. now rewrite Hk. }
  exists ex. split; [exact Hex|]. split; [|split; [exact Hnone|split; [exact Hsome|]]].
  - intros key v Hk. exact (proj2 (Hok key v Hk)).
  - intros key. split.
    + intros H. destruct (ex !! key) as [v|] eqn:Hk; [right|now left].
      destruct (Hsome key v Hk) as (f & -> & Hf). rewrite Hf in H.
      now injection H as ->.
    + intros [Hk|Hk]; [now apply Hnone|].
      destruct (Hsome key _ Hk) as (f & Ef & Hf). injection Ef as <-. exact Hf.
Qed.

Lemma extractor_never_raises_witness :
  exists ex, extract Fuzz.partial_ratio (chars "Gross Pay 5") = Ok ex /\
    number_input_default ex "net" = Ok 0%float /\
    number_input_default ex "gross" = Ok 5%float.
Proof.
  destruct (extractor_never_raises Fuzz.partial_ratio (chars "Gross Pay 5"))
    as (ex & Hex & _ & Hnone & Hsome & _).
  assert (E : extract Fuzz.partial_ratio (chars "Gross Pay 5") =
              Ok (<["gross"%string := VFloat 5]> ∅)) by (vm_compute; reflexivity).
  exists ex. split; [exact Hex|]. rewrite E in Hex. injection Hex as <-. split.
  - apply Hnone. reflexivity.
  - destruct (Hsome "gross"%string (VFloat 5) eq_refl) as (f & Ef & Hf).
    injection Ef as <-. exact Hf.
Defined.

(** ** Summary arithmetic *)

(** C7: for all entered values, total taxes is federal + state +
    social security + medicare, and the estimated take-home is gross
    minus total taxes minus pre-tax contributions minus post-tax
    deductions; with gross 3000, federal 300, state 100, social security
    186, medicare 43.5, pre-tax 200 and post-tax 0 the total taxes are
    629.5 and the estimated take-home is 2170.5. *)
Theorem summary_arithmetic :
  (forall gross fed state ss medicare pre_tax post_tax : float,
     total_taxes fed state ss medicare = (fed + state + ss + medicare)%float /\
     estimated_take_home gross fed state ss medicare pre_tax post_tax =
       (gross - (fed + state + ss + medicare) - pre_tax - post_tax)%float) /\
  total_taxes 300 100 186 43.5 = 629.5%float /\
  estimated_take_home 3000 300 100 186 43.5 200 0 = 2170.5%float.
Proof.
  split; [intros; split; reflexivity|]. split; vm_compute; reflexivity.
Qed.

(** ** Text acquisition *)

(** C8, as the spec states it, fails when a page raises after earlier
    pages were read: the text read so far is kept, it is not replaced by
    the empty string, and with 50 characters or more of it the fallback
    is not attempted. *)
Lemma page_failure_keeps_text_read :
  let pdf_open := fun _ : unit => Ok [0; 1] in
  let page_extract_text := fun p : nat =>
    if p =? 0 then Ok (Some (repeat "a"%char 60)) else Raise OtherError in
  let convert_from_bytes := fun _ : unit => Ok [tt] in
  let image_to_string := fun _ : unit => Ok (repeat "b"%char 70) in
  page_extract_text 1 = Raise OtherError /\
  primary pdf_open page_extract_text tt = ([StWarning], Ok (newline :: repeat "a"%char 60)) /\
  extract_text_from_pdf_bytes pdf_open page_extract_text convert_from_bytes image_to_string tt
    = ([StWarning], Ok (newline :: repeat "a"%char 60)).
Proof. repeat split. Qed.

(** C8, amended: when the primary path ends with a text, the adapter
    turns to the OCR fallback exactly when that text, stripped, is
    shorter than 50 characters, and then keeps the longer of the two
    texts. An exception of the class [Exception] in the primary path is
    caught and does not abort the pipeline: when opening the document
    raises it, the primary text is the empty string and the fallback
    runs; when a page raises it, the primary text is what the pages
    before it gave, and the length test decides on the fallback as
    usual. An exception outside that class, such as [KeyboardInterrupt]
    or [SystemExit], is not caught: the adapter raises it, without a
    warning and without attempting the fallback. *)
Theorem acquisition_fallback_gate (bytes page image : Type)
    (pdf_open : bytes -> outcome (list page))
    (page_extract_text : page -> outcome (option (list ascii)))
    (convert_from_bytes : bytes -> outcome (list image))
    (image_to_string : image -> outcome (list ascii))
    (pdf_bytes : bytes) :
  let out := extract_text_from_pdf_bytes pdf_open page_extract_text
               convert_from_bytes image_to_string pdf_bytes in
  (forall ev text,
     primary pdf_open page_extract_text pdf_bytes = (ev, Ok text) ->
     (In CallConvert (fst out) <-> length (strip text) < 50) /\
     (50 <= length (strip text) -> out = (ev, Ok text)) /\
     (length (strip text) < 50 -> forall imgs ocr_text,
        convert_from_bytes pdf_bytes = Ok imgs ->
        snd (ocr_pages image_to_string imgs []) = Ok ocr_text ->
        snd out = Ok (if length text <? length ocr_text then ocr_text else text))) /\
  (forall e, pdf_open pdf_bytes = Raise e -> is_exception e = true ->
     primary pdf_open page_extract_text pdf_bytes = ([StWarning], Ok []) /\
     In CallConvert (fst out)) /\
  (forall before p after e,
     pdf_open pdf_bytes = Ok (before ++ p :: after) ->
     Forall (page_ok page_extract_text) before ->
     page_extract_text p = Raise e -> is_exception e = true ->
     primary pdf_open page_extract_text pdf_bytes =
     ([StWarning], Ok (concat (map (page_part page_extract_text) before)))) /\
  (forall e, escapes pdf_open page_extract_text pdf_bytes e -> out = ([], Raise e)) /\
  (forall e, snd (primary pdf_open page_extract_text pdf_bytes) = Raise e ->
     escapes pdf_open page_extract_text pdf_bytes e).
Proof.
  intros out.
  assert (Text : forall ev text,
            primary pdf_open page_extract_text pdf_bytes = (ev, Ok text) ->
            (In CallConvert (fst out) <-> length (strip text) < 50) /\
            (50 <= length (strip text) -> out = (ev, Ok text)) /\
            (length (strip text) < 50 -> forall imgs ocr_text,
               convert_from_bytes pdf_bytes = Ok imgs ->
               snd (ocr_pages image_to_string imgs []) = Ok ocr_text ->
               snd out = Ok (if length text <? length ocr_text then ocr_text else text))).
  { intros ev t E. subst out. unfold extract_text_from_pdf_bytes.
    pose proof (primary_events _ _ pdf_open page_extract_text pdf_bytes) as Hp.
    rewrite E in *. cbn [fst] in Hp.
    destruct (Nat.ltb_spec (length (strip t)) 50) as [Hlt|Hge].
    - split; [|split; [lia|]].
      + split; [auto|]. intros _. destruct (convert_from_bytes pdf_bytes) as [imgs|e].
        * destruct (ocr_pages image_to_string imgs []) as [ev2 res]. cbn [fst].
          apply in_or_app. right. right. now left.
        * cbn [fst]. apply in_or_app. right. right. now left.
      + intros _ imgs ocr_text Hc Ho. rewrite Hc.
        destruct (ocr_pages image_to_string imgs []) as [ev2 res]. cbn [snd] in *.
        now rewrite Ho.
    - split; [|split; [reflexivity|lia]].
      split; [|lia]. cbn [fst]. intros H. contradiction. }
  split; [exact Text|]. split; [|split; [|split]].
  - intros e He Hx.
    assert (E : primary pdf_open page_extract_text pdf_bytes = ([StWarning], Ok [])).
    { unfold primary, handle. now rewrite He, Hx. }
    split; [exact E|]. apply (proj1 (Text _ _ E)). cbn. lia.
  - intros before p after e Ho Hb Hp Hx. unfold primary, handle. rewrite Ho.
    rewrite (read_pages_raise page page_extract_text before p e after Hb Hp), Hx. reflexivity.
  - intros e Hesc. apply (primary_raise_iff _ _ pdf_open page_extract_text) in Hesc.
    subst out. unfold extract_text_from_pdf_bytes.
    destruct (primary_cases _ _ pdf_open page_extract_text pdf_bytes)
      as [(ev & t & E)|(e' & _ & E)]; rewrite E in *; cbn [snd] in Hesc; [discriminate|].
    now injection Hesc as ->.
  - intros e. apply primary_raise_iff.
Qed.

Lemma acquisition_fallback_gate_witness :
  let pdf_open := fun _ : unit => @Raise (list nat) OtherError in
  let page_extract_text := fun _ : nat => @Ok (option (list ascii)) None in
  let convert_from_bytes := fun _ : unit => Ok [tt] in
  let image_to_string := fun _ : unit => Ok (chars "Gross Pay 5") in
  primary pdf_open page_extract_text tt = ([StWarning], Ok []) /\
  In CallConvert
    (fst (extract_text_from_pdf_bytes pdf_open page_extract_text
            convert_from_bytes image_to_string tt)) /\
  snd (extract_text_from_pdf_bytes pdf_open page_extract_text
         convert_from_bytes image_to_string tt) = Ok (newline :: chars "Gross Pay 5").
Proof.
  intros pdf_open page_extract_text convert_from_bytes image_to_string.
  pose proof (acquisition_fallback_gate unit nat unit pdf_open page_extract_text
                convert_from_bytes image_to_string tt) as (Htext & Hopen & _).
  destruct (Hopen OtherError eq_refl eq_refl) as [Et Hc].
  split; [exact Et|]. split; [exact Hc|].
  destruct (Htext _ _ Et) as (_ & _ & Hocr).
  apply (Hocr ltac:(cbn; lia) [tt] (newline :: chars "Gross Pay 5")); reflexivity.
Defined.

(** ** Tokens of the money pattern *)

(** C9: every token the money pattern captures parses as a float once
    its commas are removed and it is stripped, so the normalizer never
    takes its failure branch on such a token, and every value stored in
    the extracted mapping is a float, never a string. *)
Theorem money_tokens_parse_as_floats (partial_ratio : list ascii -> list ascii -> Q) :
  (forall s m, search money_re s = Some m ->
     exists tok f, group1 m = Some tok /\
       PyFloat.float (strip (remove_commas tok)) = Ok f /\
       normalize tok = Ok (VFloat f)) /\
  (forall text ex key v,
     extract partial_ratio text = Ok ex -> ex !! key = Some v -> exists f, v = VFloat f).
Proof.
  split.
  - intros s m H. destruct (search_money_group s m H) as (tok & G & L).
    destruct (float_money_token tok L) as (f & Hf). exists tok, f.
    repeat split; auto. unfold normalize. now rewrite Hf.
  - intros text. unfold extract.
    assert (Hloop : forall items (ex0 : gmap string value),
              (forall k v, ex0 !! k = Some v -> exists f, v = VFloat f) ->
              forall ex, extract_loop partial_ratio text items ex0 = Ok ex ->
              forall k v, ex !! k = Some v -> exists f, v = VFloat f).
    { induction items as [|[key pats] items IH]; intros ex0 H0 ex Hex;
        cbn [extract_loop] in Hex.
      - injection Hex as <-. exact H0.
      - destruct (extract_field_cases partial_ratio text ex0 key pats)
          as [[E _]|(w & f & _ & _ & _ & E)]; rewrite E in Hex; cbn [bind] in Hex.
        + exact (IH _ H0 _ Hex).
        + apply (IH (<[key := VFloat f]> ex0)); [|exact Hex].
          intros k v Hk. destruct (decide (key = k)) as [->|Hne].
          * rewrite lookup_insert_eq in Hk. injection Hk as <-. eauto.
          * rewrite lookup_insert_ne in Hk by exact Hne. eauto. }
    intros ex key v Hex. apply (Hloop patterns ∅); [|exact Hex].
    intros k v0 Hk. rewrite lookup_empty in Hk. discriminate.
Qed.

Lemma money_tokens_parse_as_floats_witness :
  search money_re (chars "$2,500.00") =
    Some (mkMatch 0 9 (chars "$2,500.00") (Some (chars "2,500.00"))) /\
  (exists tok f, Some (chars "2,500.00") = Some tok /\
     PyFloat.float (strip (remove_commas tok)) = Ok f /\ normalize tok = Ok (VFloat f)) /\
  extract Fuzz.partial_ratio (chars "Gross Pay 5") = Ok (<["gross"%string := VFloat 5]> ∅) /\
  exists f, VFloat 5 = VFloat f.
Proof.
  assert (H1 : search money_re (chars "$2,500.00") =
               Some (mkMatch 0 9 (chars "$2,500.00") (Some (chars "2,500.00"))))
    by (vm_compute; reflexivity).
  assert (H2 : extract Fuzz.partial_ratio (chars "Gross Pay 5") =
               Ok (<["gross"%string := VFloat 5]> ∅))
    by (vm_compute; reflexivity).
  split; [exact H1|]. split.
  - exact (proj1 (money_tokens_parse_as_floats Fuzz.partial_ratio) _ _ H1).
  - split; [exact H2|].
    apply (proj2 (money_tokens_parse_as_floats Fuzz.partial_ratio) _ _ "gross"%string _ H2).
    vm_compute. reflexivity.
Defined.

(** C10: the money pattern takes at most three digits before any comma
    group, so in a window whose first digits are an ungrouped run of
    four or more (as in ["Gross Pay 1234.56"]) the token captured is the
    first three digits only (["123"]); that is the token the loop body
    puts forward for the window. *)
Theorem money_token_capped_at_three_digits
    (partial_ratio : list ascii -> list ascii -> Q) (pre : list ascii)
    (d1 d2 d3 d4 : ascii) (rest : list ascii) :
  Forall (fun c => is_digit c = false) pre ->
  is_digit d1 = true -> is_digit d2 = true -> is_digit d3 = true -> is_digit d4 = true ->
  (exists m, search money_re (pre ++ d1 :: d2 :: d3 :: d4 :: rest) = Some m /\
             group1 m = Some [d1; d2; d3]) /\
  (forall text pat best m, group0 m = pre ++ d1 :: d2 :: d3 :: d4 :: rest ->
     consider partial_ratio text pat best m =
     challenge best {| b_match := Some (group0 m);
                       b_score := partial_ratio (lower pat) (lower (group0 m));
                       b_value := Some [d1; d2; d3] |}).
Proof.
  intros Hpre H1 H2 H3 H4.
  destruct (search_capped d1 d2 d3 d4 rest H1 H2 H3 H4 pre Hpre 0) as (m & Hm & Hg).
  split; [exists m; auto|].
  intros text pat best m0 E. rewrite consider_candidate. unfold candidate, token_near.
  rewrite E. unfold search. rewrite Hm. simpl. now rewrite Hg.
Qed.

Lemma money_token_capped_at_three_digits_witness :
  (exists m, search money_re (chars "Gross Pay 1234.56") = Some m /\
             group1 m = Some (chars "123")) /\
  b_value (find_best_pattern Fuzz.partial_ratio (chars "Gross Pay 1234.56") [chars "Gross Pay"])
    = Some (chars "123").
Proof.
  split.
  - apply (money_token_capped_at_three_digits Fuzz.partial_ratio (chars "Gross Pay ")
             "1" "2" "3" "4" (chars ".56")); try reflexivity.
    repeat constructor.
  - vm_compute. reflexivity.
Defined.

(** * Further properties *)

(** ** Where [money_re] matches *)

Lemma search_from_first r s : forall pos m, search_from r s pos = Some m ->
  exists k st, k <= length s /\
    head (run r (skipn k s, None)) = Some st /\
    (forall j, j < k -> run r (skipn j s, None) = []) /\
    m = mk (skipn k s) (pos + k) st.
Proof.
  induction s as [|c s IH]; intros pos m H; cbn [search_from] in H; unfold match_here in H.
  - destruct (head (run r ([], None))) as [st|] eqn:E; [|discriminate].
    injection H as <-. exists 0, st. cbn [skipn]. rewrite Nat.add_0_r.
    repeat split; auto. intros j Hj. lia.
  - destruct (head (run r (c :: s, None))) as [st|] eqn:E.
    + injection H as <-. exists 0, st. cbn [skipn]. rewrite Nat.add_0_r.
      repeat split; auto; [cbn [length]; lia|]. intros j Hj. lia.
    + destruct (IH _ _ H) as (k & st & Hk & Hh & Hn & ->).
      exists (S k), st. cbn [skipn length]. rewrite Nat.add_succ_r.
      repeat split; auto; [lia|].
      intros [|j] Hj; cbn [skipn].
      * destruct (run r (c :: s, None)); [reflexivity|discriminate].
      * apply Hn. lia.
Qed.

Lemma lang_opt_chr p w : lang (opt (Chr p)) w -> w = [] \/ exists c, w = [c] /\ p c = true.
Proof.
  intros (ws & -> & _ & Hhi & HF). destruct ws as [|x [|y ws]]; cbn in Hhi; [now left| |lia].
  right. inversion HF as [|? ? (c & -> & Hc) _]; subst. exists c. auto.
Qed.

Lemma space_not_digit c : is_space c = true -> is_digit c = false.
Proof.
  intros H. destruct (is_digit c) eqn:E; [|reflexivity].
  apply digit_not_space in E. congruence.
Qed.

(** The parts of a match of [money_re]: the symbol, the blank, the token. *)
Lemma money_run_parts s g st : In st (run money_re (s, g)) ->
  exists w0 w1 w, s = w0 ++ w1 ++ w ++ fst st /\ snd st = Some w /\
    lang money_group w /\ nondigits w0 /\ nondigits w1.
Proof.
  unfold money_re. intros H.
  change (run (Seq ?a ?b) ?x) with (flat_map (run b) (run a x)) in H.
  apply in_flat_map in H. destruct H as (st1 & H1 & H).
  apply in_flat_map in H. destruct H as (st2 & H2 & H).
  apply run_sound in H1. destruct H1 as (w0 & R0 & L0).
  apply run_sound in H2. destruct H2 as (w1 & R1 & L1).
  apply run_grp_sound in H. destruct H as (w & R & L & G).
  unfold reads in *. cbn [fst] in R0.
  exists w0, w1, w. rewrite R0, R1, R. repeat split; auto.
  - apply lang_opt_chr in L0. destruct L0 as [->|(c & -> & Hc)]; [constructor|].
    apply is_char_true in Hc. subst c. repeat constructor.
  - apply lang_opt_chr in L1. destruct L1 as [->|(c & -> & Hc)]; [constructor|].
    constructor; [now apply space_not_digit|constructor].
Qed.

Lemma money_group_head_digit w : lang money_group w ->
  exists d w', w = d :: w' /\ is_digit d = true.
Proof.
  unfold money_group. intros (w1 & w2 & -> & L1 & _). apply lang_rep_chr in L1.
  destruct L1 as (D & N & _). destruct w1 as [|d w1]; [cbn in N; lia|].
  exists d, (w1 ++ w2). split; [reflexivity|]. now inversion D.
Qed.

Lemma in_run_seq a b st st1 st2 :
  In st1 (run a st) -> In st2 (run b st1) -> In st2 (run (Seq a b) st).
Proof. intros H1 H2. cbn [run]. apply in_flat_map. eauto. Qed.

Lemma in_run_skip r hi st : In st (run (Rep r 0 hi) st).
Proof. cbn [run]. apply rep_zero_in. Qed.

Lemma in_run_grp r st st' :
  In st' (run r st) -> exists g, In (fst st', g) (run (Grp r) st).
Proof. intros H. eexists. cbn [run]. apply in_map_iff. exists st'. split; [reflexivity|exact H]. Qed.

(** A digit is a match of [money_re] by itself. *)
Lemma money_digit_matches c s : is_digit c = true -> run money_re (c :: s, None) <> [].
Proof.
  intros Hc E.
  assert (Hd : In (s, @None (list ascii))
                  (run (Rep (Chr is_digit) 1 (Some 3)) (c :: s, None))).
  { change (In (s, @None (list ascii))
              (flat_map (rep (run (Chr is_digit)) 0 2) (run (Chr is_digit) (c :: s, None))
               ++ [])).
    rewrite (run_chr_true _ _ _ _ Hc). cbn [flat_map]. rewrite !app_nil_r.
    apply rep_zero_in. }
  assert (Hg : In (s, @None (list ascii)) (run money_group (c :: s, None))).
  { unfold money_group. eapply in_run_seq; [exact Hd|].
    eapply in_run_seq; [apply in_run_skip|]. apply in_run_skip. }
  destruct (in_run_grp _ _ _ Hg) as (g & Hin).
  assert (Hm : In (s, g) (run money_re (c :: s, None))).
  { unfold money_re. eapply in_run_seq; [apply in_run_skip|].
    eapply in_run_seq; [apply in_run_skip|]. exact Hin. }
  rewrite E in Hm. contradiction.
Qed.

Lemma no_match_no_digit s : forall k,
  (forall j, j < k -> run money_re (skipn j s, None) = []) -> k <= length s ->
  nondigits (firstn k s).
Proof.
  induction s as [|c s IH]; intros k H Hk.
  - rewrite firstn_nil. constructor.
  - destruct k as [|k]; [constructor|]. cbn [firstn]. constructor.
    + destruct (is_digit c) eqn:E; [|reflexivity].
      exfalso. apply (money_digit_matches c s E). apply (H 0). lia.
    + apply IH; [|cbn [length] in Hk; lia]. intros j Hj. apply (H (S j)). lia.
Qed.

Lemma nondigits_app a b : nondigits a -> nondigits b -> nondigits (a ++ b).
Proof. intros Ha Hb. apply Forall_app. auto. Qed.

Lemma search_money_parts s m : search money_re s = Some m ->
  exists a w b, s = a ++ w ++ b /\ nondigits a /\ group1 m = Some w /\
    lang money_group w /\ m_end m = length (a ++ w).
Proof.
  intros H. apply search_from_first in H. destruct H as (k & st & Hk & Hh & Hn & ->).
  destruct (money_run_parts _ _ _ (head_In _ _ Hh)) as (w0 & w1 & w & E & G & L & N0 & N1).
  exists (firstn k s ++ w0 ++ w1), w, (fst st). repeat split.
  - rewrite <- (firstn_skipn k s) at 1. rewrite E. now rewrite <- !app_assoc.
  - apply nondigits_app; [now apply no_match_no_digit|now apply nondigits_app].
  - exact G.
  - exact L.
  - unfold mk. cbn [m_end]. unfold consumed. rewrite E. rewrite !length_app, length_firstn.
    rewrite Nat.min_l by exact Hk. lia.
Qed.

Lemma search_none_nondigits s : forall pos, search_from money_re s pos = None -> nondigits s.
Proof.
  induction s as [|c s IH]; intros pos H; [constructor|].
  cbn [search_from] in H. unfold match_here in H.
  destruct (run money_re (c :: s, None)) as [|st l] eqn:E; [|discriminate].
  cbn [head] in H. constructor.
  - destruct (is_digit c) eqn:Hc; [|reflexivity].
    now apply (money_digit_matches c s) in Hc.
  - exact (IH _ H).
Qed.

Lemma search_money_none s : search money_re s = None <-> nondigits s.
Proof.
  split; [apply search_none_nondigits|].
  intros N. destruct (search money_re s) as [m|] eqn:E; [|reflexivity].
  destruct (search_money_parts s m E) as (a & w & b & Es & _ & _ & L & _).
  destruct (money_group_head_digit w L) as (d & w' & -> & Hd).
  exfalso. rewrite Es in N. apply Forall_app in N. destruct N as [_ N].
  inversion N as [|? ? Hn _]. congruence.
Qed.

(** X1: [money_re] finds a match exactly in the texts that hold a digit,
    and the token it captures starts at the first digit of the text: no
    digit stands before the token. *)
Theorem money_search_first_digit (s : list ascii) :
  (search money_re s = None <-> nondigits s) /\
  (forall m, search money_re s = Some m ->
     exists a w b d w', s = a ++ w ++ b /\ nondigits a /\ group1 m = Some w /\
       w = d :: w' /\ is_digit d = true).
Proof.
  split; [apply search_money_none|].
  intros m H. destruct (search_money_parts s m H) as (a & w & b & E & Na & G & L & _).
  destruct (money_group_head_digit w L) as (d & w' & -> & Hd).
  exists a, (d :: w'), b, d, w'. auto.
Qed.

(** ** Windows and occurrences *)

Lemma window_occurrence pat text m : In m (finditer (window_re pat) text) ->
  exists p, m_start m <= p /\ p <= m_start m + 40 /\ p + length pat <= m_end m /\
            occurs_at pat text p.
Proof.
  intros H. destruct (finditer_match _ _ _ H) as (w & L & G & E & S & B).
  apply lang_window in L. destruct L as (pre & occ & post & -> & Hpre & _ & Ho & _).
  assert (Hl : length occ = length pat).
  { apply (f_equal (@length ascii)) in Ho. now rewrite !lower_length in Ho. }
  exists (m_start m + length pre). rewrite !length_app in E. repeat split; try lia.
  unfold occurs_at. rewrite (Nat.add_comm (m_start m)), <- skipn_skipn, S, <- app_assoc.
  rewrite skipn_app, Nat.sub_diag, skipn_all, skipn_O. cbn [app].
  rewrite <- Hl, <- app_assoc, firstn_app, Nat.sub_diag, firstn_all, firstn_O, app_nil_r.
  exact Ho.
Qed.

(** X2: a non-empty phrase has a window exactly when it occurs in the
    text, in any case; and every window holds an occurrence that starts
    at most 40 characters after the start of the window. *)
Theorem window_iff_occurrence (pat text : list ascii) :
  pat <> [] ->
  (finditer (window_re pat) text = [] <-> forall p, ~ occurs_at pat text p) /\
  (forall m, In m (finditer (window_re pat) text) ->
     exists p, m_start m <= p /\ p <= m_start m + 40 /\ p + length pat <= m_end m /\
               occurs_at pat text p).
Proof.
  intros Hp. split; [|apply window_occurrence]. split.
  - intros E p Ho. destruct (finditer_covers pat text p Hp Ho) as (m & Hin & _).
    rewrite E in Hin. contradiction.
  - intros H. destruct (finditer (window_re pat) text) as [|m l] eqn:E; [reflexivity|].
    destruct (window_occurrence pat text m) as (p & _ & _ & _ & Ho); [rewrite E; now left|].
    now apply H in Ho.
Qed.

Lemma window_iff_occurrence_witness :
  let pat := chars "Net Pay" in
  let text := chars "Gross Pay 5" in
  pat <> [] /\ finditer (window_re pat) text = [] /\ forall p, ~ occurs_at pat text p.
Proof.
  intros pat text. assert (Hp : pat <> []) by discriminate.
  assert (E : finditer (window_re pat) text = []) by (vm_compute; reflexivity).
  split; [exact Hp|]. split; [exact E|].
  exact (proj1 (proj1 (window_iff_occurrence pat text Hp)) E).
Defined.

(** ** The token of an occurrence *)

Lemma region_split r text m : In m (finditer r text) ->
  slice text (m_start m) (m_end m + 80) = group0 m ++ firstn 80 (skipn (m_end m) text) /\
  length (group0 m) = m_end m - m_start m.
Proof.
  intros H. destruct (finditer_match _ _ _ H) as (w & _ & G & E & S & _).
  unfold slice. rewrite S, G, E.
  replace (m_start m + length w + 80 - m_start m) with (length w + 80) by lia.
  rewrite firstn_app, firstn_all2 by lia.
  replace (length w + 80 - length w) with 80 by lia. split; [reflexivity|lia].
Qed.

Lemma consider_found partial_ratio text pat best m w :
  token_near text m = Some (Some w) ->
  consider partial_ratio text pat best m =
  challenge best {| b_match := Some (group0 m);
                    b_score := partial_ratio (lower pat) (lower (group0 m));
                    b_value := Some w |}.
Proof.
  intros T. rewrite consider_candidate. unfold candidate. now rewrite T.
Qed.

(** X3: an occurrence is looked at through its window and the 80
    characters after it. When no digit stands there, the occurrence
    leaves the running best as it is. Otherwise it puts forward one
    token: the token that starts at the first digit found there. The
    token lies in the window or in the 80 characters after it, never
    across the end of the window, so a number the window cuts in two is
    read up to the cut. *)
Theorem occurrence_token (partial_ratio : list ascii -> list ascii -> Q)
    (text pat : list ascii) (best : Best) (m : Match) :
  In m (finditer (window_re pat) text) ->
  let region := slice text (m_start m) (m_end m + 80) in
  let width := m_end m - m_start m in
  (nondigits region -> consider partial_ratio text pat best m = best) /\
  (~ nondigits region ->
     exists a w b d w', region = a ++ w ++ b /\ nondigits a /\
       w = d :: w' /\ is_digit d = true /\ lang money_group w /\
       (length (a ++ w) <= width \/ width <= length a) /\
       consider partial_ratio text pat best m =
       challenge best
         {| b_match := Some (slice text (m_start m) (m_end m));
            b_score := partial_ratio (lower pat) (lower (slice text (m_start m) (m_end m)));
            b_value := Some w |}).
Proof.
  intros Hm region width. subst region width.
  destruct (region_split _ _ _ Hm) as [-> <-]. rewrite <- (finditer_slice _ _ _ Hm).
  split.
  - intros N. apply Forall_app in N. destruct N as [N1 N2].
    apply search_money_none in N1, N2. unfold consider. now rewrite N1, N2.
  - intros N.
    destruct (search money_re (group0 m)) as [mval|] eqn:E1.
    + destruct (search_money_parts _ _ E1) as (a & w & b & Es & Na & G & L & _).
      destruct (money_group_head_digit w L) as (d & w' & Ew & Hd).
      exists a, w, (b ++ firstn 80 (skipn (m_end m) text)), d, w'.
      repeat split; auto.
      * rewrite Es at 1. now rewrite <- !app_assoc.
      * left. rewrite Es, !length_app. lia.
      * apply consider_found. unfold token_near. now rewrite E1, G.
    + destruct (search money_re (firstn 80 (skipn (m_end m) text))) as [m2|] eqn:E2.
      * destruct (search_money_parts _ _ E2) as (a & w & b & Es & Na & G & L & _).
        destruct (money_group_head_digit w L) as (d & w' & Ew & Hd).
        exists (group0 m ++ a), w, b, d, w'.
        repeat split; auto.
        -- rewrite Es at 1. now rewrite <- !app_assoc.
        -- apply nondigits_app; [now apply search_money_none|exact Na].
        -- right. rewrite length_app. lia.
        -- apply consider_found. unfold token_near. now rewrite E1, E2, G.
      * exfalso. apply N. apply nondigits_app; now apply search_money_none.
Qed.

Lemma occurrence_token_witness :
  let text := chars "Net Pay: see below" in
  let pat := chars "Net Pay" in
  let m := mkMatch 0 18 text None in
  In m (finditer (window_re pat) text) /\
  consider Fuzz.partial_ratio text pat init_best m = init_best.
Proof.
  intros text pat m.
  assert (Hm : In m (finditer (window_re pat) text)) by (vm_compute; left; reflexivity).
  split; [exact Hm|].
  apply (proj1 (occurrence_token Fuzz.partial_ratio text pat init_best m Hm)).
  vm_compute. repeat constructor.
Defined.

(** ** The record [find_best_pattern] returns *)

Section BestFacts.

Variable partial_ratio : list ascii -> list ascii -> Q.

Lemma candidates_record text pats c : In c (candidates partial_ratio text pats) ->
  exists pat m w, In pat pats /\ In m (finditer (window_re pat) text) /\
    token_near text m = Some (Some w) /\ lang money_group w /\
    c = {| b_match := Some (group0 m);
           b_score := partial_ratio (lower pat) (lower (group0 m));
           b_value := Some w |}.
Proof.
  unfold candidates, candidates_of. intros H. apply in_flat_map in H.
  destruct H as (pat & Hp & H). apply in_flat_map in H. destruct H as (m & Hm & H).
  destruct (candidate partial_ratio text pat m) as [c'|] eqn:E; [|contradiction].
  destruct H as [<-|[]]. unfold candidate in E.
  destruct (token_near text m) as [v|] eqn:T; [|discriminate].
  destruct (token_near_token _ _ _ T) as (w & -> & L).
  cbn [option_map] in E. injection E as <-. exists pat, m, w. auto.
Qed.

Lemma best_init_iff text pats :
  find_best_pattern partial_ratio text pats = init_best <->
  forall c, In c (candidates partial_ratio text pats) -> (b_score c <= 0)%Q.
Proof.
  rewrite find_best_pattern_fold. split.
  - intros E c Hc.
    pose proof (fold_challenge_max (candidates partial_ratio text pats) init_best c
                  (or_intror Hc)) as M.
    now rewrite E in M.
  - intros H. now apply fold_challenge_stays.
Qed.

Lemma best_not_init text pats :
  find_best_pattern partial_ratio text pats <> init_best ->
  In (find_best_pattern partial_ratio text pats) (candidates partial_ratio text pats) /\
  (0 < b_score (find_best_pattern partial_ratio text pats))%Q.
Proof.
  rewrite find_best_pattern_fold. intros N.
  destruct (fold_challenge_spec (candidates partial_ratio text pats) init_best)
    as [[E _]|(l1 & l2 & E & _ & Hb & _)]; [contradiction|].
  split; [|exact Hb]. rewrite E at 2. apply in_elt.
Qed.

End BestFacts.

(** X4: the record returned for a field is the initial one, with no
    match, score 0 and no value, exactly when no candidate scores above
    0. Otherwise it is one of the candidates: its score is above 0 and
    the highest of all, its match is the window of an occurrence of one
    of the phrases, cut out of the text, its score is the score of that
    phrase against that window, and its value is a token, which is not
    empty. *)
Theorem best_record_characterised (partial_ratio : list ascii -> list ascii -> Q)
    (text : list ascii) (pats : list (list ascii)) :
  let r := find_best_pattern partial_ratio text pats in
  (r = init_best <->
   forall c, In c (candidates partial_ratio text pats) -> (b_score c <= 0)%Q) /\
  (r <> init_best ->
   In r (candidates partial_ratio text pats) /\
   (0 < b_score r)%Q /\
   (forall c, In c (candidates partial_ratio text pats) -> (b_score c <= b_score r)%Q) /\
   exists pat m w, In pat pats /\ In m (finditer (window_re pat) text) /\
     b_match r = Some (slice text (m_start m) (m_end m)) /\
     b_score r = partial_ratio (lower pat) (lower (slice text (m_start m) (m_end m))) /\
     b_value r = Some w /\ lang money_group w /\ w <> []).
Proof.
  intros r. subst r. split; [apply best_init_iff|].
  intros N. destruct (best_not_init partial_ratio text pats N) as [Hin Hpos].
  split; [exact Hin|]. split; [exact Hpos|]. split.
  - intros c Hc. rewrite find_best_pattern_fold. apply fold_challenge_max. now right.
  - destruct (candidates_record partial_ratio _ _ _ Hin) as (pat & m & w & Hp & Hm & _ & L & E).
    exists pat, m, w. rewrite E. cbn [b_match b_score b_value].
    rewrite <- (finditer_slice _ _ _ Hm). repeat split; auto.
    now apply money_token_nonempty.
Qed.

(** ** The fields do not interfere *)

Section FieldFacts.

Variable partial_ratio : list ascii -> list ascii -> Q.
Variable text : list ascii.

Lemma extract_field_value ex key pats :
  extract_field partial_ratio text ex (key, pats) =
  Ok (match field_value partial_ratio text pats with
      | Some v => <[key := v]> ex
      | None => ex
      end).
Proof.
  unfold field_value.
  destruct (extract_field_cases partial_ratio text ex key pats)
    as [[E V]|(w & f & V & L & Nf & E)]; rewrite E, V.
  - reflexivity.
  - destruct w as [|c w]; [now apply money_token_nonempty in L|].
    cbn [truthy]. unfold default. cbn [from_option id]. now rewrite Nf.
Qed.

Lemma extract_loop_lookup : forall items (ex0 : gmap string value),
  NoDup (map fst items) ->
  exists ex, extract_loop partial_ratio text items ex0 = Ok ex /\
    (forall key pats, In (key, pats) items ->
       ex !! key = match field_value partial_ratio text pats with
                   | Some v => Some v
                   | None => ex0 !! key
                   end) /\
    (forall key, ~ In key (map fst items) -> ex !! key = ex0 !! key).
Proof.
  induction items as [|[key pats] items IH]; intros ex0 ND; cbn [extract_loop].
  - exists ex0. split; [reflexivity|]. split; [intros ? ? []|reflexivity].
  - cbn [map fst] in ND. inversion ND as [|? ? Hnotin ND']; subst.
    rewrite extract_field_value. cbn [bind].
    set (ex1 := match field_value partial_ratio text pats with
                | Some v => <[key := v]> ex0
                | None => ex0
                end).
    assert (H1 : ex1 !! key = match field_value partial_ratio text pats with
                              | Some v => Some v
                              | None => ex0 !! key
                              end).
    { subst ex1. destruct (field_value partial_ratio text pats);
        [apply lookup_insert_eq|reflexivity]. }
    assert (H2 : forall k, k <> key -> ex1 !! k = ex0 !! k).
    { intros k Hk. subst ex1. destruct (field_value partial_ratio text pats);
        [now apply lookup_insert_ne|reflexivity]. }
    destruct (IH ex1 ND') as (ex & Hex & Hin & Hout). exists ex.
    split; [exact Hex|]. split.
    + intros k p [E|Hk].
      * injection E as <- <-. now rewrite (Hout key Hnotin).
      * rewrite (Hin k p Hk). rewrite H2; [reflexivity|].
        intros ->. apply Hnotin. apply in_map_iff. now exists (key, p).
    + intros k Hk. cbn [map fst] in Hk.
      rewrite Hout by (intros Hi; apply Hk; now right). apply H2.
      intros ->. apply Hk. now left.
Qed.

Lemma field_value_none pats :
  field_value partial_ratio text pats = None <->
  find_best_pattern partial_ratio text pats = init_best.
Proof.
  unfold field_value.
  destruct (find_best_value partial_ratio text pats)
    as [E|(pat & m & w & _ & _ & _ & E & L)]; rewrite E.
  - tauto.
  - destruct (normalize_token w L) as (f & Hf).
    destruct w as [|c w]; [now apply money_token_nonempty in L|].
    cbn [truthy]. unfold default. cbn [from_option id]. rewrite Hf.
    split; [discriminate|]. intros E'. rewrite E' in E. discriminate.
Qed.

End FieldFacts.

Lemma patterns_keys_nodup : NoDup (map fst patterns).
Proof.
  cbn [map fst patterns].
  repeat (constructor; [cbn [In]; intros H; repeat (destruct H as [H|H]; [discriminate|]);
                        exact H|]).
  constructor.
Qed.

(** X5: the loop gives every field of the dictionary what its own
    phrases yield, whatever the other fields store before or after it,
    and stores nothing under any other key; a field is absent exactly
    when none of its candidates scores above 0. *)
Theorem fields_do_not_interfere (partial_ratio : list ascii -> list ascii -> Q)
    (text : list ascii) :
  exists ex, extract partial_ratio text = Ok ex /\
    (forall key pats, In (key, pats) patterns ->
       ex !! key = field_value partial_ratio text pats /\
       (ex !! key = None <->
        forall c, In c (candidates partial_ratio text pats) -> (b_score c <= 0)%Q)) /\
    (forall key, ~ In key (map fst patterns) -> ex !! key = None).
Proof.
  destruct (extract_loop_lookup partial_ratio text patterns ∅ patterns_keys_nodup)
    as (ex & Hex & Hin & Hout).
  exists ex. split; [exact Hex|]. split.
  - intros key pats Hk.
    assert (E : ex !! key = field_value partial_ratio text pats).
    { rewrite (Hin key pats Hk). destruct (field_value partial_ratio text pats);
        [reflexivity|apply lookup_empty]. }
    split; [exact E|]. rewrite E, field_value_none. apply best_init_iff.
  - intros key Hk. rewrite (Hout key Hk). apply lookup_empty.
Qed.

(** ** Texts that give nothing *)

Lemma nondigits_parts n s : nondigits s -> nondigits (firstn n s) /\ nondigits (skipn n s).
Proof.
  intros H. rewrite <- (firstn_skipn n s) in H. now apply Forall_app in H.
Qed.

Lemma nondigits_firstn n s : nondigits s -> nondigits (firstn n s).
Proof. intros H. now apply nondigits_parts. Qed.

Lemma nondigits_skipn n s : nondigits s -> nondigits (skipn n s).
Proof. intros H. now apply nondigits_parts. Qed.

Lemma candidates_nil partial_ratio text pats :
  (forall pat m, In pat pats -> In m (finditer (window_re pat) text) ->
     token_near text m = None) ->
  candidates partial_ratio text pats = [].
Proof.
  intros H. unfold candidates. induction pats as [|pat pats IH]; [reflexivity|].
  cbn [flat_map]. rewrite IH by (intros p m Hp; apply H; now right).
  rewrite app_nil_r. unfold candidates_of.
  assert (Hm : forall m, In m (finditer (window_re pat) text) -> token_near text m = None)
    by (intros m; apply H; now left).
  induction (finditer (window_re pat) text) as [|m ms IHm]; [reflexivity|].
  cbn [flat_map]. unfold candidate at 1. rewrite (Hm m) by now left.
  cbn [option_map app]. apply IHm. intros m' Hm'. apply Hm. now right.
Qed.

(** X6: from a text without a digit, and from a text in which no
    phrase of the dictionary stands, the loop stores nothing: the
    mapping stays empty. *)
Theorem nothing_stored_without_digits_or_labels
    (partial_ratio : list ascii -> list ascii -> Q) (text : list ascii) :
  nondigits text \/
  (forall key pats pat p, In (key, pats) patterns -> In pat pats -> ~ occurs_at pat text p) ->
  extract partial_ratio text = Ok ∅.
Proof.
  intros H.
  destruct (extract_loop_lookup partial_ratio text patterns ∅ patterns_keys_nodup)
    as (ex & Hex & Hin & Hout).
  unfold extract. rewrite Hex. f_equal. apply map_eq. intros key. rewrite lookup_empty.
  destruct (in_dec string_dec key (map fst patterns)) as [Hk|Hk].
  - apply in_map_iff in Hk. destruct Hk as ([k pats] & <- & Hk). cbn [fst].
    rewrite (Hin k pats Hk).
    assert (E : field_value partial_ratio text pats = None).
    { apply field_value_none. rewrite find_best_pattern_fold.
      rewrite candidates_nil; [reflexivity|]. intros pat m Hp Hm.
      destruct H as [N|N].
      - unfold token_near.
        assert (N1 : nondigits (group0 m)).
        { rewrite (finditer_slice _ _ _ Hm). unfold slice.
          now apply nondigits_firstn, nondigits_skipn. }
        assert (N2 : nondigits (firstn 80 (skipn (m_end m) text)))
          by now apply nondigits_firstn, nondigits_skipn.
        apply search_money_none in N1, N2. now rewrite N1, N2.
      - destruct (window_occurrence pat text m Hm) as (p & _ & _ & _ & Ho).
        now apply (N k pats pat p) in Ho. }
    rewrite E. apply lookup_empty.
  - rewrite (Hout key Hk). apply lookup_empty.
Qed.

Lemma nothing_stored_without_digits_or_labels_witness :
  nondigits (chars "Gross Pay: see the attached sheet") /\
  extract Fuzz.partial_ratio (chars "Gross Pay: see the attached sheet") = Ok ∅.
Proof.
  assert (N : nondigits (chars "Gross Pay: see the attached sheet"))
    by (vm_compute; repeat constructor).
  split; [exact N|].
  apply (nothing_stored_without_digits_or_labels Fuzz.partial_ratio _ (or_introl N)).
Defined.

(** ** The case of the phrases *)

Lemma run_lit_ci_ext p : forall p', lower p = lower p' ->
  forall st, run (lit_ci p) st = run (lit_ci p') st.
Proof.
  induction p as [|a p IH]; intros [|a' p'] H st; try discriminate; [reflexivity|].
  cbn [lower map] in H. injection H as Ha Hp. cbn [lit_ci].
  change (run (Seq ?x ?y) ?z) with (flat_map (run y) (run x z)).
  assert (E : run (Chr (is_char_ci a)) st = run (Chr (is_char_ci a')) st).
  { cbn [run]. unfold is_char_ci. now rewrite Ha. }
  rewrite E. apply flat_map_ext. intros st'. now apply IH.
Qed.

Lemma run_window_ext p p' : lower p = lower p' ->
  forall st, run (window_re p) st = run (window_re p') st.
Proof.
  intros H st. unfold window_re.
  change (run (Seq ?x ?y) ?z) with (flat_map (run y) (run x z)).
  apply flat_map_ext. intros st1.
  change (run (Seq ?x ?y) ?z) with (flat_map (run y) (run x z)).
  now rewrite (run_lit_ci_ext p p' H).
Qed.

(** Two patterns that match alike give the same matches. *)
Lemma scan_ext r r' : (forall st, run r st = run r' st) ->
  forall s pos skip, scan r s pos skip = scan r' s pos skip.
Proof.
  intros H. induction s as [|c s IH]; intros pos [|k]; cbn [scan]; rewrite <- ?H;
    try reflexivity; [|apply IH].
  destruct (run r (c :: s, None)) as [|st sts]; [apply IH|].
  destruct (consumed (c :: s) st); [|f_equal; apply IH].
  f_equal. destruct (List.filter _ sts); [apply IH|f_equal; apply IH].
Qed.

Lemma scan_pattern_case partial_ratio text best p p' : lower p = lower p' ->
  scan_pattern partial_ratio text best p = scan_pattern partial_ratio text best p'.
Proof.
  intros H. unfold scan_pattern, finditer.
  rewrite (scan_ext _ _ (run_window_ext p p' H)).
  generalize (scan (window_re p') text 0 0) as ms. intros ms. revert best.
  induction ms as [|m ms IH]; intros best; [reflexivity|]. cbn [fold_left].
  rewrite IH. f_equal. unfold consider. now rewrite H.
Qed.

(** X7: the phrases of a field are looked for and scored without
    regard to case: two lists of phrases that agree once lower-cased
    give the same record, for every text. *)
Theorem phrase_case_is_irrelevant (partial_ratio : list ascii -> list ascii -> Q)
    (text : list ascii) (pats pats' : list (list ascii)) :
  map lower pats = map lower pats' ->
  find_best_pattern partial_ratio text pats = find_best_pattern partial_ratio text pats'.
Proof.
  unfold find_best_pattern. generalize init_best as best. revert pats'.
  induction pats as [|p pats IH]; intros [|p' pats'] best H; try discriminate;
    [reflexivity|].
  cbn [map] in H. injection H as Hp Hps. cbn [fold_left].
  rewrite (scan_pattern_case partial_ratio text best p p' Hp). now apply IH.
Qed.

Lemma phrase_case_is_irrelevant_witness :
  let text := chars "Gross pay: 1,250.00" in
  map lower [chars "Gross Pay"; chars "GROSS"] = map lower [chars "GROSS PAY"; chars "gross"] /\
  find_best_pattern Fuzz.partial_ratio text [chars "Gross Pay"; chars "GROSS"] =
  find_best_pattern Fuzz.partial_ratio text [chars "GROSS PAY"; chars "gross"].
Proof.
  intros text.
  assert (H : map lower [chars "Gross Pay"; chars "GROSS"] =
              map lower [chars "GROSS PAY"; chars "gross"]) by reflexivity.
  split; [exact H|].
  exact (phrase_case_is_irrelevant Fuzz.partial_ratio text _ _ H).
Defined.

(** ** The case of the text *)

Lemma flat_map_map {A B C : Type} (g : B -> list C) (h : A -> B) (l : list A) :
  flat_map g (map h l) = flat_map (fun x => g (h x)) l.
Proof. induction l as [|x l IH]; [reflexivity|]. cbn [map flat_map]. now rewrite IH. Qed.

Lemma map_flat_map {A B C : Type} (g : A -> list B) (h : B -> C) (l : list A) :
  map h (flat_map g l) = flat_map (fun x => map h (g x)) l.
Proof.
  induction l as [|x l IH]; [reflexivity|]. cbn [flat_map]. now rewrite map_app, IH.
Qed.

Section CaseFacts.

Variable f : ascii -> ascii.

Lemma rep_map F : (forall st, F (map_state f st) = map (map_state f) (F st)) ->
  forall hi lo st, rep F lo hi (map_state f st) = map (map_state f) (rep F lo hi st).
Proof.
  intros HF. induction hi as [|hi IH]; intros lo st; cbn [rep].
  - destruct (lo =? 0); reflexivity.
  - rewrite HF, flat_map_map, map_app, map_flat_map.
    f_equal; [|destruct (lo =? 0); reflexivity].
    apply flat_map_ext. intros st'. apply IH.
Qed.

Lemma run_map r : respects f r ->
  forall st, run r (map_state f st) = map (map_state f) (run r st).
Proof.
  induction r as [|p|r1 IH1 r2 IH2|r IH lo hi|r IH]; cbn [respects]; intros H st.
  - reflexivity.
  - cbn [run]. unfold map_state at 1. cbn [fst snd]. destruct (fst st) as [|c s]; [reflexivity|].
    cbn [map]. rewrite H. destruct (p c); reflexivity.
  - destruct H as [H1 H2]. cbn [run].
    rewrite (IH1 H1), flat_map_map, map_flat_map. apply flat_map_ext. intros st'.
    now apply IH2.
  - cbn [run]. replace (length (fst (map_state f st))) with (length (fst st))
      by (unfold map_state; cbn [fst]; now rewrite length_map).
    apply rep_map. now apply IH.
  - cbn [run]. rewrite (IH H), !map_map. apply map_ext. intros st'.
    unfold map_state. cbn [fst snd option_map]. rewrite !length_map, firstn_map. reflexivity.
Qed.

Lemma consumed_map s st : consumed (map f s) (map_state f st) = consumed s st.
Proof. unfold consumed, map_state. cbn [fst]. now rewrite !length_map. Qed.

Lemma mk_map s pos st : mk (map f s) pos (map_state f st) = map_match f (mk s pos st).
Proof.
  unfold mk, map_match. cbn [m_start m_end group0 group1].
  rewrite consumed_map, firstn_map. reflexivity.
Qed.

Lemma run_map_start r s : respects f r ->
  run r (map f s, None) = map (map_state f) (run r (s, None)).
Proof. intros H. exact (run_map r H (s, None)). Qed.

Lemma search_from_unfold r s pos :
  search_from r s pos =
  match head (run r (s, None)) with
  | Some st => Some (mk s pos st)
  | None => match s with [] => None | _ :: s' => search_from r s' (S pos) end
  end.
Proof. destruct s; reflexivity. Qed.

Lemma search_from_map r : respects f r -> forall s pos,
  search_from r (map f s) pos = option_map (map_match f) (search_from r s pos).
Proof.
  intros H. induction s as [|c s IH]; intros pos;
    rewrite (search_from_unfold r (map f _)), (search_from_unfold r _), (run_map_start r _ H).
  - destruct (run r ([], None)) as [|st l]; [reflexivity|].
    cbn [map head option_map]. now rewrite <- mk_map.
  - destruct (run r (c :: s, None)) as [|st l].
    + cbn [map head]. apply IH.
    + cbn [map head option_map]. now rewrite <- mk_map.
Qed.

Lemma filter_consumed_map s sts :
  List.filter (fun st' => negb (consumed (map f s) st' =? 0)) (map (map_state f) sts) =
  map (map_state f) (List.filter (fun st' => negb (consumed s st' =? 0)) sts).
Proof.
  induction sts as [|st sts IH]; [reflexivity|]. cbn [map List.filter].
  rewrite consumed_map, IH. destruct (negb (consumed s st =? 0)); reflexivity.
Qed.

Lemma scan_map r : respects f r -> forall s pos skip,
  scan r (map f s) pos skip = map (map_match f) (scan r s pos skip).
Proof.
  intros H. induction s as [|c s IH]; intros pos skip.
  - destruct skip as [|k]; [|reflexivity].
    rewrite !scan_0, (run_map_start r [] H). unfold scan_tail.
    destruct (run r ([], None)) as [|st sts]; [reflexivity|]. cbn [map].
    pose proof (consumed_map [] st) as E1. pose proof (filter_consumed_map [] sts) as E2.
    pose proof (mk_map [] pos) as E3. cbn [map] in E1, E2, E3.
    rewrite E1, E2, E3.
    destruct (consumed [] st); [|reflexivity].
    destruct (List.filter _ sts) as [|st' l]; [reflexivity|].
    cbn [map]. now rewrite E3.
  - destruct skip as [|k].
    + rewrite !scan_0, (run_map_start r (c :: s) H).
      pose proof (consumed_map (c :: s)) as E1.
      pose proof (filter_consumed_map (c :: s)) as E2.
      pose proof (mk_map (c :: s) pos) as E3. cbn [map] in E1, E2, E3.
      destruct (run r (c :: s, None)) as [|st sts].
      * unfold scan_tail. cbn [map]. apply IH.
      * cbn [map]. rewrite E1, E2, E3.
        destruct (consumed (c :: s) st).
        -- destruct (List.filter _ sts) as [|st' l]; cbn [map].
           ++ unfold scan_tail. now rewrite IH.
           ++ rewrite E3, E1. unfold scan_tail. now rewrite IH.
        -- unfold scan_tail. cbn [map]. now rewrite IH.
    + rewrite !scan_skip. unfold scan_tail. cbn [map]. apply IH.
Qed.

Lemma lang_within P r : within P r -> forall w, lang r w -> Forall P w.
Proof.
  induction r as [|p|r1 IH1 r2 IH2|r IH lo hi|r IH]; cbn [within lang]; intros H w L.
  - subst w. constructor.
  - destruct L as (c & -> & Hc). constructor; [now apply H|constructor].
  - destruct H as [H1 H2]. destruct L as (w1 & w2 & -> & L1 & L2).
    apply Forall_app. split; [now apply IH1|now apply IH2].
  - destruct L as (ws & -> & _ & _ & HF). induction HF as [|x ws Hx _ IHws]; [constructor|].
    cbn [concat]. apply Forall_app. split; [now apply IH|exact IHws].
  - now apply IH.
Qed.

End CaseFacts.

Lemma lower_digit c : is_digit (lower_char c) = is_digit c.
Proof. by_char c. Qed.

Lemma lower_space c : is_space (lower_char c) = is_space c.
Proof. by_char c. Qed.

Lemma lower_dot c : is_dot (lower_char c) = is_dot c.
Proof. by_char c. Qed.

Lemma lower_dollar c : is_char "$" (lower_char c) = is_char "$" c.
Proof. by_char c. Qed.

Lemma lower_comma c : is_char "," (lower_char c) = is_char "," c.
Proof. by_char c. Qed.

Lemma lower_point c : is_char "." (lower_char c) = is_char "." c.
Proof. by_char c. Qed.

Section CaseOfText.

Variable f : ascii -> ascii.
Hypothesis f_case : forall c, lower_char (f c) = lower_char c.

Lemma lower_map s : lower (map f s) = lower s.
Proof. unfold lower. rewrite map_map. apply map_ext. exact f_case. Qed.

Lemma case_class (p : ascii -> bool) :
  (forall c, p (lower_char c) = p c) -> forall c, p (f c) = p c.
Proof. intros H c. now rewrite <- (H (f c)), f_case, H. Qed.

Lemma respects_money_re : respects f money_re.
Proof.
  unfold money_re, money_group, opt. cbn [respects].
  repeat split; apply case_class;
    auto using lower_digit, lower_space, lower_dollar, lower_comma, lower_point.
Qed.

Lemma respects_lit_ci pat : respects f (lit_ci pat).
Proof.
  induction pat as [|a pat IH]; cbn [lit_ci respects]; [exact I|]. split; [|exact IH].
  intros c. unfold is_char_ci. now rewrite f_case.
Qed.

Lemma respects_window_re pat : respects f (window_re pat).
Proof.
  unfold window_re. cbn [respects].
  repeat split; try apply respects_lit_ci; apply case_class; apply lower_dot.
Qed.

Lemma case_fixes (p : ascii -> bool) : (forall c, p (lower_char c) = p c) ->
  (forall c, p c = true -> lower_char c = c) -> forall c, p c = true -> f c = c.
Proof.
  intros H1 H2 c Hc.
  assert (Hf : p (f c) = true) by now rewrite (case_class p H1).
  rewrite <- (H2 (f c) Hf), f_case. now apply H2.
Qed.

(** A token is made of characters that have no case. *)
Lemma token_fixed w : lang money_group w -> map f w = w.
Proof.
  intros L.
  assert (W : within (fun c => f c = c) money_group).
  { unfold money_group, opt. cbn [within].
    repeat split; intros c Hc.
    - apply (case_fixes is_digit lower_digit digit_lower c Hc).
    - apply (case_fixes _ lower_comma); [|exact Hc].
      intros d Hd. apply is_char_true in Hd. now subst d.
    - apply (case_fixes is_digit lower_digit digit_lower c Hc).
    - apply (case_fixes _ lower_point); [|exact Hc].
      intros d Hd. apply is_char_true in Hd. now subst d.
    - apply (case_fixes is_digit lower_digit digit_lower c Hc). }
  pose proof (lang_within _ _ W w L) as F. clear L W.
  induction F as [|c w Hc _ IH]; [reflexivity|]. cbn [map]. now rewrite Hc, IH.
Qed.

Lemma search_money_map s :
  search money_re (map f s) = option_map (map_match f) (search money_re s).
Proof. unfold search. apply search_from_map, respects_money_re. Qed.

Lemma group1_map m s : search money_re s = Some m ->
  group1 (map_match f m) = group1 m.
Proof.
  intros H. destruct (search_money_group s m H) as (w & G & L).
  unfold map_match. cbn [group1]. rewrite G. cbn [option_map]. now rewrite (token_fixed w L).
Qed.

Variable partial_ratio : list ascii -> list ascii -> Q.

Lemma consider_map text pat best m :
  consider partial_ratio (map f text) pat (map_best f best) (map_match f m) =
  map_best f (consider partial_ratio text pat best m).
Proof.
  unfold consider. cbn [map_match group0 m_end map_best b_score].
  rewrite search_money_map, skipn_map, firstn_map, search_money_map, lower_map.
  destruct (search money_re (group0 m)) as [mval|] eqn:E1; cbn [option_map].
  - rewrite (group1_map _ _ E1).
    destruct (Qgtb _ _); reflexivity.
  - destruct (search money_re (firstn 80 (skipn (m_end m) text))) as [m2|] eqn:E2;
      cbn [option_map]; [|reflexivity].
    rewrite (group1_map _ _ E2). destruct (Qgtb _ _); reflexivity.
Qed.

Lemma scan_pattern_map text best pat :
  scan_pattern partial_ratio (map f text) (map_best f best) pat =
  map_best f (scan_pattern partial_ratio text best pat).
Proof.
  unfold scan_pattern, finditer. rewrite (scan_map f _ (respects_window_re pat)).
  generalize (scan (window_re pat) text 0 0) as ms. intros ms. revert best.
  induction ms as [|m ms IH]; intros best; [reflexivity|].
  cbn [map fold_left]. now rewrite consider_map, IH.
Qed.

Lemma find_best_pattern_map text pats :
  find_best_pattern partial_ratio (map f text) pats =
  map_best f (find_best_pattern partial_ratio text pats).
Proof.
  unfold find_best_pattern. change init_best with (map_best f init_best) at 1.
  generalize init_best as best. induction pats as [|p pats IH]; intros best; [reflexivity|].
  cbn [fold_left]. now rewrite scan_pattern_map, IH.
Qed.

Lemma extract_loop_map text items : forall ex,
  extract_loop partial_ratio (map f text) items ex = extract_loop partial_ratio text items ex.
Proof.
  induction items as [|[key pats] items IH]; intros ex; [reflexivity|].
  cbn [extract_loop]. unfold extract_field. rewrite find_best_pattern_map.
  cbn [map_best b_value].
  destruct (truthy _); cbn [bind]; [|apply IH].
  destruct (normalize _); cbn [bind]; [apply IH|reflexivity].
Qed.

End CaseOfText.

(** X8: the case of the text plays no part in what is found. For every
    change of characters that leaves their lower-case forms alone, such
    as writing the text in lower case, the record of a field has the
    same score and the same value, its match is the match in the
    changed text, and the loop stores the same mapping. *)
Theorem text_case_changes_only_the_match
    (partial_ratio : list ascii -> list ascii -> Q) (f : ascii -> ascii)
    (text : list ascii) :
  (forall c, lower_char (f c) = lower_char c) ->
  (forall pats,
     find_best_pattern partial_ratio (map f text) pats =
     map_best f (find_best_pattern partial_ratio text pats)) /\
  extract partial_ratio (map f text) = extract partial_ratio text.
Proof.
  intros Hf. split.
  - intros pats. now apply find_best_pattern_map.
  - unfold extract. now apply extract_loop_map.
Qed.

Lemma text_case_changes_only_the_match_witness :
  (forall c, lower_char (lower_char c) = lower_char c) /\
  extract Fuzz.partial_ratio (lower (chars "GROSS PAY: 1,250.00")) =
  extract Fuzz.partial_ratio (chars "GROSS PAY: 1,250.00").
Proof.
  assert (H : forall c, lower_char (lower_char c) = lower_char c) by (intros c; by_char c).
  split; [exact H|].
  exact (proj2 (text_case_changes_only_the_match Fuzz.partial_ratio lower_char
                  (chars "GROSS PAY: 1,250.00") H)).
Defined.

(** ** The fallback *)

Section FallbackFacts.

Variables bytes page image : Type.
Variable pdf_open : bytes -> outcome (list page).
Variable page_extract_text : page -> outcome (option (list ascii)).
Variable convert_from_bytes : bytes -> outcome (list image).
Variable image_to_string : image -> outcome (list ascii).

(** The loop over the images reads them in order. *)
Lemma ocr_pages_ok imgs : Forall (image_ok image_to_string) imgs -> forall t,
  ocr_pages image_to_string imgs t =
  (repeat CallOcr (length imgs), Ok (t ++ concat (map (image_part image_to_string) imgs))).
Proof.
  induction 1 as [|im imgs (s & Hs) _ IH]; intros t; cbn [ocr_pages].
  - cbn. now rewrite app_nil_r.
  - rewrite Hs, IH. cbn [length repeat map concat]. unfold image_part at 2.
    now rewrite Hs, <- app_assoc.
Qed.

(** It stops at the first image that fails. *)
Lemma ocr_pages_failure before im after e :
  Forall (image_ok image_to_string) before -> image_to_string im = Raise e -> forall t,
  ocr_pages image_to_string (before ++ im :: after) t =
  (repeat CallOcr (S (length before)), Raise e).
Proof.
  induction 1 as [|x before (s & Hs) _ IH]; intros Hi t; cbn [app ocr_pages].
  - now rewrite Hi.
  - now rewrite Hs, IH.
Qed.

Lemma ok_or_failure imgs :
  Forall (image_ok image_to_string) imgs \/ exists e, first_failure image_to_string imgs e.
Proof.
  induction imgs as [|im imgs IH]; [left; constructor|].
  destruct (image_to_string im) as [s|e] eqn:E.
  - destruct IH as [F|(e & b & i & a & -> & Fb & Hi)].
    + left. constructor; [now exists s|exact F].
    + right. exists e, (im :: b), i, a. split; [reflexivity|]. split; [|exact Hi].
      constructor; [now exists s|exact Fb].
  - right. exists e, [], im, imgs. split; [reflexivity|]. split; [constructor|exact E].
Qed.

End FallbackFacts.

(** X9: the adapter raises an exception in two cases and in no other.
    Either the exception is not of the class [Exception] and comes from
    opening the document or from the first page that fails: the handler
    lets it through, and there is no warning and no fallback. Or the
    primary path ends with a text that, stripped, is shorter than 50
    characters, and the conversion to images raises the exception, or
    the recognition of an image raises it after all images before it
    were read: nothing catches it, and the images after that one are
    not read. *)
Theorem adapter_raise_cases (bytes page image : Type)
    (pdf_open : bytes -> outcome (list page))
    (page_extract_text : page -> outcome (option (list ascii)))
    (convert_from_bytes : bytes -> outcome (list image))
    (image_to_string : image -> outcome (list ascii))
    (pdf_bytes : bytes) (e : exn) :
  let out := extract_text_from_pdf_bytes pdf_open page_extract_text
               convert_from_bytes image_to_string pdf_bytes in
  (snd out = Raise e <->
   escapes pdf_open page_extract_text pdf_bytes e \/
   exists ev text,
     primary pdf_open page_extract_text pdf_bytes = (ev, Ok text) /\
     length (strip text) < 50 /\
     (convert_from_bytes pdf_bytes = Raise e \/
      exists imgs, convert_from_bytes pdf_bytes = Ok imgs /\
        first_failure image_to_string imgs e)) /\
  (escapes pdf_open page_extract_text pdf_bytes e -> fst out = []) /\
  (forall ev text before im after,
     primary pdf_open page_extract_text pdf_bytes = (ev, Ok text) ->
     length (strip text) < 50 ->
     convert_from_bytes pdf_bytes = Ok (before ++ im :: after) ->
     Forall (image_ok image_to_string) before ->
     image_to_string im = Raise e ->
     fst out = ev ++ StInfo :: CallConvert :: repeat CallOcr (S (length before))).
Proof.
  intros out. subst out. unfold extract_text_from_pdf_bytes.
  destruct (primary_cases _ _ pdf_open page_extract_text pdf_bytes)
    as [(ev & t & E)|(e' & Hesc & E)]; rewrite E.
  2:{ assert (U : forall e0, escapes pdf_open page_extract_text pdf_bytes e0 -> e0 = e').
      { intros e0 H0. apply (primary_raise_iff _ _ pdf_open page_extract_text) in H0.
        rewrite E in H0. cbn [snd] in H0. now injection H0 as ->. }
      cbn [snd fst]. split; [|split; [reflexivity|discriminate]]. split.
      - intros H. injection H as ->. now left.
      - intros [H|(ev & t & H & _)]; [now rewrite (U e H)|discriminate]. }
  assert (NE : ~ escapes pdf_open page_extract_text pdf_bytes e).
  { intros H. apply (primary_raise_iff _ _ pdf_open page_extract_text) in H.
    rewrite E in H. discriminate. }
  split; [|split; [intros H; now apply NE in H|]].
  - destruct (Nat.ltb_spec (length (strip t)) 50) as [Hlt|Hge].
    2:{ cbn [snd]. split; [discriminate|].
        intros [H|(ev' & t' & H & Hl & _)]; [now apply NE in H|]. injection H as _ <-. lia. }
    destruct (convert_from_bytes pdf_bytes) as [imgs|e0] eqn:Ec.
    2:{ cbn [snd]. split.
        - intros H. injection H as ->. right. exists ev, t. auto.
        - intros [H|(ev' & t' & _ & _ & [H|(imgs & H & _)])];
            [now apply NE in H|congruence|discriminate]. }
    destruct (ok_or_failure _ image_to_string imgs) as [F|(e1 & b & i & a & -> & Fb & Hi)].
    + rewrite (ocr_pages_ok _ _ _ F). cbn [snd bind].
      split; [discriminate|].
      intros [H|(ev' & t' & _ & _ & [H|(imgs' & H & (b & i & a & -> & _ & Hi))])];
        [now apply NE in H|discriminate|]. injection H as ->.
      apply Forall_app in F. destruct F as [_ F]. inversion F as [|? ? (s & Hs) _]. congruence.
    + rewrite (ocr_pages_failure _ _ _ _ _ _ Fb Hi). cbn [snd bind]. split.
      * intros H. injection H as ->. right. exists ev, t. split; [reflexivity|].
        split; [exact Hlt|]. right. exists (b ++ i :: a). split; [reflexivity|].
        now exists b, i, a.
      * intros [H|(ev' & t' & _ & _ & [H|(imgs' & H & FF)])];
          [now apply NE in H|discriminate|]. injection H as <-. f_equal.
        apply (first_failure_unique image_to_string (b ++ i :: a)); [|exact FF].
        now exists b, i, a.
  - intros ev' t' before im after H Hlt Hc Fb Hi. injection H as <- <-.
    destruct (Nat.ltb_spec (length (strip t)) 50); [|lia]. rewrite Hc.
    now rewrite (ocr_pages_failure _ _ _ _ _ _ Fb Hi).
Qed.

Lemma adapter_raise_cases_witness :
  let pdf_open := fun _ : unit => Ok [0; 1] in
  let page_extract_text := fun p : nat =>
    if p =? 0 then Ok (Some (chars "scanned")) else Raise Interrupt in
  let page_extract_text' := fun _ : nat => Ok (Some (chars "scanned")) in
  let convert_from_bytes := fun _ : unit => Ok [0; 1; 2] in
  let image_to_string := fun i : nat =>
    if i =? 1 then Raise OtherError else Ok (chars "Gross Pay 5") in
  snd (extract_text_from_pdf_bytes pdf_open page_extract_text convert_from_bytes
         image_to_string tt) = Raise Interrupt /\
  extract_text_from_pdf_bytes pdf_open page_extract_text' convert_from_bytes
    image_to_string tt = ([StInfo; CallConvert; CallOcr; CallOcr], Raise OtherError).
Proof.
  intros pdf_open page_extract_text page_extract_text' convert_from_bytes image_to_string.
  split.
  - apply (proj1 (adapter_raise_cases unit nat nat pdf_open page_extract_text
                    convert_from_bytes image_to_string tt Interrupt)).
    left. split; [reflexivity|]. right. exists [0; 1]. split; [reflexivity|].
    exists [0], 1, []. split; [reflexivity|]. split; [|reflexivity].
    constructor; [now exists (Some (chars "scanned"))|constructor].
  - destruct (adapter_raise_cases unit nat nat pdf_open page_extract_text'
                convert_from_bytes image_to_string tt OtherError) as (Hr & _ & Ht).
    assert (Ep : primary pdf_open page_extract_text' tt =
                 ([], Ok (newline :: chars "scanned" ++ newline :: chars "scanned")))
      by reflexivity.
    assert (Hlt : length (strip (newline :: chars "scanned" ++ newline :: chars "scanned")) < 50)
      by (vm_compute; lia).
    assert (Hb : Forall (image_ok image_to_string) [0])
      by (constructor; [now exists (chars "Gross Pay 5")|constructor]).
    pose proof (Ht _ _ [0] 1 [2] Ep Hlt eq_refl Hb eq_refl) as E1.
    assert (E2 : snd (extract_text_from_pdf_bytes pdf_open page_extract_text'
                        convert_from_bytes image_to_string tt) = Raise OtherError).
    { apply Hr. right. eexists _, _. split; [exact Ep|]. split; [exact Hlt|]. right.
      exists [0; 1; 2]. split; [reflexivity|]. exists [0], 1, [2]. auto. }
    rewrite (surjective_pairing (extract_text_from_pdf_bytes _ _ _ _ _)), E1, E2.
    reflexivity.
Defined.

(** X10: when the adapter returns, the primary path has ended with a
    text, and the text returned is never shorter than it: it is the
    primary text, or else the text of the fallback, which is made of a
    line feed and the recognised text for every image in order, and is
    returned only when the primary text, stripped, has fewer than 50
    characters and the text of the fallback is strictly longer than the
    primary text. The adapter returns whenever the primary path ends
    with a text and either that text, stripped, has 50 characters or
    more, or the conversion and the recognition of every image
    succeed. *)
Theorem acquired_text_never_shorter (bytes page image : Type)
    (pdf_open : bytes -> outcome (list page))
    (page_extract_text : page -> outcome (option (list ascii)))
    (convert_from_bytes : bytes -> outcome (list image))
    (image_to_string : image -> outcome (list ascii))
    (pdf_bytes : bytes) :
  let out := extract_text_from_pdf_bytes pdf_open page_extract_text
               convert_from_bytes image_to_string pdf_bytes in
  (forall t, snd out = Ok t ->
     exists ev text,
       primary pdf_open page_extract_text pdf_bytes = (ev, Ok text) /\
       length text <= length t /\
       (t = text \/
        exists imgs, convert_from_bytes pdf_bytes = Ok imgs /\
          Forall (image_ok image_to_string) imgs /\
          t = concat (map (image_part image_to_string) imgs) /\
          length (strip text) < 50 /\ length text < length t)) /\
  (forall ev text,
     primary pdf_open page_extract_text pdf_bytes = (ev, Ok text) ->
     50 <= length (strip text) \/
     (exists imgs, convert_from_bytes pdf_bytes = Ok imgs /\
        Forall (image_ok image_to_string) imgs) ->
     exists t, snd out = Ok t).
Proof.
  intros out. subst out. unfold extract_text_from_pdf_bytes.
  destruct (primary_cases _ _ pdf_open page_extract_text pdf_bytes)
    as [(ev & t0 & E)|(e' & _ & E)]; rewrite E.
  2:{ cbn [snd]. split; [discriminate|]. intros ev t H. discriminate. }
  destruct (Nat.ltb_spec (length (strip t0)) 50) as [Hlt|Hge].
  2:{ cbn [snd]. split; [|eauto]. intros t H. injection H as <-.
      exists ev, t0. split; [reflexivity|]. split; [lia|now left]. }
  destruct (convert_from_bytes pdf_bytes) as [imgs|e0] eqn:Ec.
  2:{ cbn [snd]. split; [discriminate|].
      intros ev' t' H [Hl|(imgs & Hi & _)]; [|discriminate]. injection H as _ <-. lia. }
  split.
  - intros t. destruct (ok_or_failure _ image_to_string imgs) as [F|(e1 & b & i & a & -> & Fb & Hi)].
    + rewrite (ocr_pages_ok _ _ _ F). cbn [snd bind app]. intros H. injection H as <-.
      exists ev, t0. split; [reflexivity|].
      destruct (Nat.ltb_spec (length t0) (length (concat (map (image_part image_to_string) imgs))))
        as [Hl|Hl].
      * split; [lia|]. right. exists imgs. auto.
      * split; [lia|now left].
    + rewrite (ocr_pages_failure _ _ _ _ _ _ Fb Hi). cbn [snd bind]. discriminate.
  - intros ev' t' H [Hl|(imgs' & Hi & F)]; injection H as _ <-; [lia|].
    injection Hi as <-. rewrite (ocr_pages_ok _ _ _ F). cbn [snd bind]. eauto.
Qed.

(** ** The withholding check *)

Module FloatFacts.

Lemma SFcompare_antisym x y :
  SFcompare y x = option_map CompOpp (SFcompare x y).
Proof.
  destruct x as [sx|sx| |sx mx ex], y as [sy|sy| |sy my ey]; cbn [SFcompare option_map];
    try reflexivity; try (destruct sx; reflexivity); try (destruct sy; reflexivity);
    try (destruct sx, sy; reflexivity).
  destruct sx, sy; cbn [CompOpp]; try reflexivity;
    rewrite (Z.compare_antisym ex ey); destruct (ex ?= ey)%Z; cbn [CompOpp];
    try reflexivity;
    rewrite !Pos.compare_cont_spec; cbn [Pos.switch_Eq];
    rewrite (Pos.compare_antisym mx my); destruct (mx ?= my)%positive; reflexivity.
Qed.

Lemma SFcompare_some x y : SFeqb x x = true -> SFeqb y y = true ->
  exists c, SFcompare x y = Some c.
Proof.
  destruct x as [sx|sx| |sx mx ex], y as [sy|sy| |sy my ey]; try discriminate;
    intros _ _; cbn [SFcompare]; eexists; reflexivity.
Qed.

(** Of two numbers, neither of them a NaN, one is less than the other
    or they are equal. *)
Lemma ltb_false_leb x y : is_nan x = false -> is_nan y = false ->
  (x <? y)%float = negb (y <=? x)%float.
Proof.
  unfold is_nan. rewrite !eqb_spec, ltb_spec, leb_spec. intros Hx Hy.
  apply negb_false_iff in Hx, Hy.
  unfold SFltb, SFleb. rewrite (SFcompare_antisym (Prim2SF x) (Prim2SF y)).
  destruct (SFcompare_some _ _ Hx Hy) as (c & ->). destruct c; reflexivity.
Qed.

Lemma ltb_nan_l x y : is_nan x = true -> (x <? y)%float = false.
Proof.
  unfold is_nan. rewrite eqb_spec, ltb_spec. unfold SFeqb, SFltb.
  destruct (Prim2SF x) as [sx|sx| |sx mx ex]; cbn [SFcompare]; try reflexivity.
  - discriminate.
  - destruct sx; discriminate.
  - destruct sx; rewrite Z.compare_refl, Pos.compare_cont_refl; discriminate.
Qed.

Lemma ltb_nan_r x y : is_nan y = true -> (x <? y)%float = false.
Proof.
  unfold is_nan. rewrite eqb_spec, ltb_spec. unfold SFeqb, SFltb.
  destruct (Prim2SF y) as [sy|sy| |sy my ey]; cbn [SFcompare].
  - discriminate.
  - destruct sy; discriminate.
  - destruct (Prim2SF x); reflexivity.
  - destruct sy; rewrite Z.compare_refl, Pos.compare_cont_refl; discriminate.
Qed.

End FloatFacts.

Lemma below_band_not_above d : (d <? -50)%float = true -> (50 <? d)%float = false.
Proof.
  rewrite !ltb_spec.
  set (a := Prim2SF (-50)). vm_compute in a. subst a.
  set (a := Prim2SF 50). vm_compute in a. subst a.
  unfold SFltb.
  destruct (Prim2SF d) as [[|]|[|]| |[|] m e]; cbn [SFcompare]; try discriminate; reflexivity.
Qed.

(** X11: the message of the check depends on [diff], the amount withheld
    less the estimate per period: over-withholding exactly when [diff]
    is above 50, under-withholding exactly when it is below -50, and a
    rough match exactly when it lies between -50 and 50, both ends
    included, or is not a number. *)
Theorem verdict_band (fed estimated_fed_period : float) :
  let diff := (fed - estimated_fed_period)%float in
  (withholding_verdict fed estimated_fed_period = OverWithholding <->
     (50 <? diff)%float = true) /\
  (withholding_verdict fed estimated_fed_period = UnderWithholding <->
     (diff <? -50)%float = true) /\
  (withholding_verdict fed estimated_fed_period = RoughlyMatches <->
     is_nan diff = true \/ ((-50 <=? diff)%float = true /\ (diff <=? 50)%float = true)).
Proof.
  intros diff. unfold withholding_verdict. fold diff. generalize diff. clear. intros d.
  pose proof (below_band_not_above d) as Hex.
  destruct (is_nan d) eqn:Hn.
  - rewrite (FloatFacts.ltb_nan_r 50 d Hn), (FloatFacts.ltb_nan_l d (-50) Hn).
    repeat split; try discriminate; auto.
  - assert (H50 : is_nan 50 = false) by reflexivity.
    assert (Hm50 : is_nan (-50) = false) by reflexivity.
    pose proof (FloatFacts.ltb_false_leb 50 d H50 Hn) as E1.
    pose proof (FloatFacts.ltb_false_leb d (-50) Hn Hm50) as E2.
    destruct (50 <? d)%float eqn:A; [|destruct (d <? -50)%float eqn:B].
    + symmetry in E1. apply negb_true_iff in E1.
      repeat split; try discriminate; auto.
      * intros B. apply Hex in B. discriminate.
      * intros [C|[_ C]]; congruence.
    + symmetry in E2. apply negb_true_iff in E2.
      repeat split; try discriminate; auto.
      intros [C|[C _]]; congruence.
    + symmetry in E1, E2. apply negb_false_iff in E1, E2.
      repeat split; try discriminate; auto.
Qed.

Lemma finite_cases x : is_finite x = true ->
  (exists s, Prim2SF x = S754_zero s) \/ (exists s m e, Prim2SF x = S754_finite s m e).
Proof.
  unfold is_finite, is_nan, is_infinity. rewrite !eqb_spec, abs_spec.
  set (a := Prim2SF infinity). vm_compute in a. subst a.
  destruct (Prim2SF x) as [s|[|]| |s m e]; try discriminate; eauto.
Qed.

Lemma sub_diag_finite x : is_finite x = true -> (x - x <=? 0)%float = true.
Proof.
  intros H. rewrite leb_spec, sub_spec.
  set (a := Prim2SF 0). vm_compute in a. subst a.
  destruct (finite_cases x H) as [(s & ->)|(s & m & e & ->)].
  - destruct s; reflexivity.
  - unfold SF64sub, SFsub. rewrite Z.sub_diag. reflexivity.
Qed.

(** A bracket that is not smaller than what remains ends the loop: the
    brackets after it are not used. *)
Lemma tax_loop_stops amt rate bs tax rem :
  is_finite rem = true -> (float_of_int amt <? rem)%float = false ->
  tax_loop ((amt, rate) :: bs) tax rem = (tax + rem * rate)%float.
Proof.
  intros Hf Hlt. cbn [tax_loop]. unfold py_min. rewrite Hlt.
  now rewrite (sub_diag_finite rem Hf).
Qed.

(** X12: an annual income that is a finite number not above 11000 is
    taxed at the first rate as a whole, and the later brackets play no
    part; nothing keeps the income or the tax from being negative. *)
#[warnings="-inexact-float"] Theorem tax_within_first_bracket (annual_taxable : float) :
  is_finite annual_taxable = true ->
  (11000 <? annual_taxable)%float = false ->
  estimate_federal_tax_simple annual_taxable = (0 + annual_taxable * 0.10)%float.
Proof.
  intros Hf Hlt. unfold estimate_federal_tax_simple, brackets.
  apply tax_loop_stops; [exact Hf|].
  replace (float_of_int 11000) with 11000%float by (vm_compute; reflexivity). exact Hlt.
Qed.

Lemma tax_within_first_bracket_witness :
  is_finite (-1000) = true /\ (11000 <? -1000)%float = false /\
  estimate_federal_tax_simple (-1000) = (-100)%float.
Proof.
  split; [reflexivity|]. split; [reflexivity|].
  rewrite (tax_within_first_bracket (-1000) eq_refl eq_refl). vm_compute. reflexivity.
Defined.

Lemma periods_options freq n : periods freq = Some n ->
  In (freq, n) [("Biweekly (26)"%string, 26%Z); ("Weekly (52)"%string, 52%Z);
                ("Semi-monthly (24)"%string, 24%Z); ("Monthly (12)"%string, 12%Z)].
Proof.
  unfold periods, freq_map. cbn [list_to_map foldr uncurry fst snd]. intros H.
  repeat (apply lookup_insert_Some in H; destruct H as [[<- <-]|[_ H]];
          [cbn; tauto|]).
  rewrite lookup_empty in H. discriminate.
Qed.

(** X13: the frequency table has an entry for every option of the
    select box and for nothing else, and every entry is the positive
    number its label names; so for every option the check neither fails
    on the lookup nor divides by zero, and gives the message of the
    estimate per period. *)
Theorem check_defined_for_options (freq : string) :
  (In freq freq_options <-> exists n, periods freq = Some n) /\
  (forall n gross pre_tax_contrib fed, periods freq = Some n ->
     (0 < n)%Z /\
     withholding_check freq gross pre_tax_contrib fed =
     Some (withholding_verdict fed
             (estimate_federal_tax_simple (taxable_est gross pre_tax_contrib n)
              / float_of_int n)%float)).
Proof.
  split.
  - split.
    + intros [<-|[<-|[<-|[<-|[]]]]]; eexists; reflexivity.
    + intros (n & H). apply periods_options in H. unfold freq_options.
      destruct H as [H|[H|[H|[H|[]]]]]; injection H as <- _; cbn; tauto.
  - intros n gross pre fed H. unfold withholding_check. rewrite H.
    apply periods_options in H.
    destruct H as [H|[H|[H|[H|[]]]]]; injection H as _ <-; (split; [lia|reflexivity]).
Qed.
